(** * CRLite: aggregate-crls

  A shallow embedding of the CRL aggregation tool of CRLite
  (command [aggregate-crls] and package [types]) and the properties of
  its specification.

  Layout:
  - [Sha256], [GoString]: the parts of Go's standard library that
    [makeFilenameFromUrl] computes with;
  - [Types]: [IssuerCrlMap] and its [Merge] (go/types.go);
  - [Engine]: the external collaborators, the worker monad, [processCRL],
    the three workers and their dispatchers;
  - [Run], [Demo]: the steps of the program as functions of the world, and
    a small world to run the program in;
  - the properties of the specification, stage by stage. *)

From Stdlib Require Import ZArith String Ascii List Lia Bool.
From stdpp Require Import base option gmap sets list strings.
Import ListNotations.

Local Open Scope Z_scope.

(* ===================================================================== *)
(** ** crypto/sha256 (FIPS 180-4), on bytes held as [Z] *)
(* ===================================================================== *)

Module Sha256.

Definition w32 (x : Z) : Z := Z.land x 0xFFFFFFFF.
Definition add32 (a b : Z) : Z := w32 (a + b).

Definition rotr (n x : Z) : Z :=
  Z.lor (Z.shiftr x n) (w32 (Z.shiftl x (32 - n))).

Definition Ch (x y z : Z) : Z := Z.lxor (Z.land x y) (Z.land (Z.lnot x) z).
Definition Maj (x y z : Z) : Z :=
  Z.lxor (Z.lxor (Z.land x y) (Z.land x z)) (Z.land y z).
Definition bigSigma0 (x : Z) : Z := Z.lxor (Z.lxor (rotr 2 x) (rotr 13 x)) (rotr 22 x).
Definition bigSigma1 (x : Z) : Z := Z.lxor (Z.lxor (rotr 6 x) (rotr 11 x)) (rotr 25 x).
Definition smallSigma0 (x : Z) : Z := Z.lxor (Z.lxor (rotr 7 x) (rotr 18 x)) (Z.shiftr x 3).
Definition smallSigma1 (x : Z) : Z := Z.lxor (Z.lxor (rotr 17 x) (rotr 19 x)) (Z.shiftr x 10).

(** The first 64 primes. *)
Definition is_prime (k : Z) : bool :=
  forallb (fun d => negb (k mod d =? 0)) (map Z.of_nat (seq 2 (Z.to_nat k - 2))).

Definition primes : list Z :=
  Eval vm_compute in List.filter is_prime (map Z.of_nat (seq 2 310)).

(** The largest [r] below [2^bits] with [r^3 <= n]. *)
Fixpoint cube_root (bits : nat) (n r : Z) : Z :=
  match bits with
  | O => r
  | S b =>
      let r' := r + 2 ^ Z.of_nat b in
      cube_root b n (if r' * r' * r' <=? n then r' else r)
  end.

(** FIPS 180-4, 4.2.2: the first 32 bits of the fractional parts of the
    cube roots of the first 64 primes. *)
Definition K : list Z :=
  Eval vm_compute in map (fun p => w32 (cube_root 36 (p * 2 ^ 96) 0)) primes.

(** FIPS 180-4, 5.3.3: the same of the square roots of the first 8 primes. *)
Definition H0 : list Z :=
  Eval vm_compute in map (fun p => w32 (Z.sqrt (p * 2 ^ 64))) (firstn 8 primes).

(** Big-endian encoding of [x] on [n] bytes, and its inverse. *)
Fixpoint be_bytes (n : nat) (x : Z) : list Z :=
  match n with
  | O => []
  | S k => Z.land (Z.shiftr x (8 * Z.of_nat k)) 0xFF :: be_bytes k x
  end.

Definition be_word (bs : list Z) : Z :=
  fold_left (fun acc b => Z.lor (Z.shiftl acc 8) b) bs 0.

(** The message, one [0x80] byte, zeros up to 56 modulo 64, and the
    length in bits on 8 bytes. *)
Definition pad (msg : list Z) : list Z :=
  let len := Z.of_nat (length msg) in
  msg ++ [0x80] ++ repeat 0 (Z.to_nat ((55 - len) mod 64)) ++ be_bytes 8 (8 * len).

(** Cut a list into pieces of [n] elements ([fuel] bounds the number of
    pieces). *)
Fixpoint chunks {A} (n : nat) (fuel : nat) (l : list A) : list (list A) :=
  match fuel with
  | O => []
  | S f =>
      match l with
      | [] => []
      | _ => firstn n l :: chunks n f (skipn n l)
      end
  end.

Definition words_of_block (block : list Z) : list Z :=
  map be_word (chunks 4 16 block).

(** The message schedule: [window] holds W[t-16..t-1]. *)
Fixpoint schedule (rounds : nat) (window : list Z) : list Z :=
  match rounds with
  | O => []
  | S r =>
      let w := add32 (add32 (smallSigma1 (nth 14 window 0)) (nth 9 window 0))
                     (add32 (smallSigma0 (nth 1 window 0)) (nth 0 window 0)) in
      w :: schedule r (tl window ++ [w])
  end.

Record regs := Regs { ra : Z; rb : Z; rc : Z; rd : Z; re : Z; rf : Z; rg : Z; rh : Z }.

Definition round (s : regs) (kw : Z * Z) : regs :=
  let t1 := add32 (add32 (add32 (rh s) (bigSigma1 (re s)))
                         (add32 (Ch (re s) (rf s) (rg s)) (fst kw))) (snd kw) in
  let t2 := add32 (bigSigma0 (ra s)) (Maj (ra s) (rb s) (rc s)) in
  Regs (add32 t1 t2) (ra s) (rb s) (rc s) (add32 (rd s) t1) (re s) (rf s) (rg s).

Definition regs_of (h : list Z) : regs :=
  Regs (nth 0 h 0) (nth 1 h 0) (nth 2 h 0) (nth 3 h 0)
       (nth 4 h 0) (nth 5 h 0) (nth 6 h 0) (nth 7 h 0).

Definition list_of (s : regs) : list Z :=
  [ra s; rb s; rc s; rd s; re s; rf s; rg s; rh s].

Definition compress (h : list Z) (block : list Z) : list Z :=
  let w16 := words_of_block block in
  let w := w16 ++ schedule 48 w16 in
  let s := fold_left round (combine K w) (regs_of h) in
  map (fun p => add32 (fst p) (snd p)) (combine h (list_of s)).

(** [sha256.Sum256]: the 32 bytes of the digest. *)
Definition Sum256 (msg : list Z) : list Z :=
  let p := pad msg in
  let h := fold_left compress (chunks 64 (length p) p) H0 in
  flat_map (be_bytes 4) h.

End Sha256.

(* ===================================================================== *)
(** ** Go strings and the library functions [makeFilenameFromUrl] calls *)
(* ===================================================================== *)

(** A Go string is a sequence of bytes: a [string] of Rocq, whose
  characters are the 256 bytes. *)
Module GoString.

Definition byte_of (c : ascii) : Z := Z.of_N (N_of_ascii c).
Definition ascii_of (b : Z) : ascii := ascii_of_N (Z.to_N b).

(** [[]byte(s)] *)
Definition bytes_of_string (s : string) : list Z :=
  map byte_of (list_ascii_of_string s).

Definition in_range (lo hi : ascii) (c : ascii) : bool :=
  (byte_of lo <=? byte_of c) && (byte_of c <=? byte_of hi).

Definition is_upper (c : ascii) : bool := in_range "A" "Z" c.
Definition is_lower (c : ascii) : bool := in_range "a" "z" c.
Definition is_digit (c : ascii) : bool := in_range "0" "9" c.

Definition lower_byte (c : ascii) : ascii :=
  if is_upper c then ascii_of (byte_of c + 32) else c.

(** [strings.ToLower]. Go lower-cases rune by rune. An ASCII letter is
    lower-cased in place. Two runes outside ASCII have an ASCII lower
    case: U+0130 (bytes C4 B0) gives [i] and U+212A (bytes E2 84 AA)
    gives [k]; a lead byte always starts a rune, so both are recognised
    on the bytes. Every other byte of 0x80 and above belongs to a rune
    whose lower case lies outside ASCII (or to an invalid sequence, which
    Go replaces by U+FFFD): it is kept as it is here, [illegalPath]
    deletes it in either form. [skip] counts the continuation bytes of a
    rune already emitted. *)
Fixpoint lower_from (skip : nat) (s : string) : string :=
  match s with
  | EmptyString => EmptyString
  | String c r =>
      match skip with
      | S k => lower_from k r
      | O =>
          if String.prefix (String "196" (String "176" EmptyString)) s
          then String "i" (lower_from 1 r)
          else if String.prefix
                    (String "226" (String "132" (String "170" EmptyString))) s
          then String "k" (lower_from 2 r)
          else String (lower_byte c) (lower_from 0 r)
      end
  end.

Definition ToLower (s : string) : string := lower_from 0 s.

Definition filter_string (keep : ascii -> bool) (s : string) : string :=
  string_of_list_ascii (List.filter keep (list_ascii_of_string s)).

(** [strings.HasSuffix] and [strings.TrimSuffix] *)
Definition HasSuffix (s suffix : string) : bool :=
  String.prefix (String.rev suffix) (String.rev s).

Definition TrimSuffix (s suffix : string) : string :=
  if HasSuffix s suffix
  then String.substring 0 (String.length s - String.length suffix) s
  else s.

Fixpoint drop_while {A} (p : A -> bool) (l : list A) : list A :=
  match l with
  | [] => []
  | x :: r => if p x then drop_while p r else l
  end.

Fixpoint take_while {A} (p : A -> bool) (l : list A) : list A :=
  match l with
  | [] => []
  | x :: r => if p x then x :: take_while p r else []
  end.

Definition is_slash (c : ascii) : bool := Ascii.eqb c "/".

(** [path.Base]: the last element of the path, trailing slashes removed;
    ["."] for the empty path and ["/"] for a path of slashes only. *)
Definition Base (path : string) : string :=
  match path with
  | EmptyString => "."
  | _ =>
      let stripped := drop_while is_slash (List.rev (list_ascii_of_string path)) in
      let last := List.rev (take_while (fun c => negb (is_slash c)) stripped) in
      match last with
      | [] => "/"
      | _ => string_of_list_ascii last
      end
  end.

Definition hex_digit (d : Z) : ascii :=
  if d <? 10 then ascii_of (byte_of "0" + d) else ascii_of (byte_of "a" + (d - 10)).

(** [hex.EncodeToString] *)
Fixpoint EncodeToString (bs : list Z) : string :=
  match bs with
  | [] => EmptyString
  | b :: r => String (hex_digit (Z.shiftr b 4))
                (String (hex_digit (Z.land b 0xF)) (EncodeToString r))
  end.

End GoString.


(* ===================================================================== *)
(** ** net/url *)
(* ===================================================================== *)

(** What the program reads of a [url.URL]: the result of [Hostname()],
    the field [Path] and the result of [String()]. *)
Record URL := mkURL {
  Hostname : string;
  Path : string;
  String_ : string
}.

(* ===================================================================== *)
(** ** package types (go/types.go) *)
(* ===================================================================== *)

Module Types.

(** [type IssuerCrlMap map[string]map[string]bool] *)
Abbreviation IssuerCrlMap := (gmap string (gmap string bool)).

(** The inner loop of [Merge]: [for crl, _ := range crls { selfCrls[crl] = true }].
    The value stored under [crl] in [crls] is not read. *)
Definition mergeCrls (selfCrls crls : gmap string bool) : gmap string bool :=
  map_fold (fun crl _ acc => <[crl := true]> acc) selfCrls crls.

(** [func (self IssuerCrlMap) Merge(other IssuerCrlMap)]: [self] is updated
    in place, the result is its new value. Go ranges over a map in an
    unspecified order; [map_fold] takes one, and [Merge_lookup] below shows
    that the result does not depend on it. *)
Definition Merge (self other : IssuerCrlMap) : IssuerCrlMap :=
  map_fold
    (fun issuer crls self =>
       let selfCrls := match self !! issuer with
                       | Some selfCrls => selfCrls
                       | None => ∅
                       end in
       <[issuer := mergeCrls selfCrls crls]> self)
    self other.

(** The URL sets of a map: presence only, the booleans forgotten. *)
Definition urlSets (m : IssuerCrlMap) : gmap string (gset string) :=
  dom <$> m.

Record IssuerCrlUrls := mkIssuerCrlUrls {
  urls_Issuer : string;
  Urls : list URL
}.

Record IssuerCrlPaths := mkIssuerCrlPaths {
  paths_Issuer : string;
  CrlPaths : list string
}.

End Types.

(* ===================================================================== *)
(** ** package main (aggregate-crls): the filename of a CRL *)
(* ===================================================================== *)

Module Filename.
Import GoString.

(** [illegalPath = regexp.MustCompile(`[^[:alnum:]\~\-\./]`)]: does the
    expression match the byte? [[:alnum:]] is the ASCII class. A byte of
    0x80 and above only occurs in runes that the expression matches, and
    is matched here. *)
Definition illegalPath (c : ascii) : bool :=
  negb (is_upper c || is_lower c || is_digit c
        || Ascii.eqb c "~" || Ascii.eqb c "-" || Ascii.eqb c "." || Ascii.eqb c "/").

(** [illegalPath.ReplaceAllString] with the empty string. *)
Definition removeIllegal (s : string) : string :=
  filter_string (fun c => negb (illegalPath c)) s.

Definition makeFilenameFromUrl (crlUrl : URL) : string :=
  let filename := (Hostname crlUrl +:+ "-" +:+ Base (Path crlUrl))%string in
  let filename := ToLower filename in
  let filename := removeIllegal filename in
  let hash := Sha256.Sum256 (bytes_of_string (String_ crlUrl)) in
  let filename := TrimSuffix filename ".crl" in
  (filename +:+ "-" +:+ EncodeToString (firstn 8 hash) +:+ ".crl")%string.

(** The derivation in the words of the specification (4.1 and 6):
    [lower(host+basepath)], sanitised, the trailing [.crl] stripped, then
    [-], the first 8 bytes of the SHA-256 of the URL in hexadecimal, and
    [.crl]. [sep] is what stands between the host and the base path:
    nothing in the specification's words. *)
Definition derived_name (sep : string) (crlUrl : URL) : string :=
  let readable :=
    TrimSuffix (removeIllegal (ToLower (Hostname crlUrl +:+ sep +:+ Base (Path crlUrl)))) ".crl" in
  let digest := firstn 8 (Sha256.Sum256 (bytes_of_string (String_ crlUrl))) in
  (readable +:+ ("-" +:+ EncodeToString digest) +:+ ".crl")%string.

Definition spec_filename : URL -> string := derived_name EmptyString.

End Filename.

(* ===================================================================== *)
(** ** package main (aggregate-crls): the engine *)
(* ===================================================================== *)

Module Engine.
Import Types Filename.

(** *** Data *)

Abbreviation error := string.

(** [storage.Issuer], by its [ID()]; [storage.NewIssuerFromString] is the
    way back. *)
Abbreviation Issuer := string.

(** [storage.Serial]: the bytes [storage.NewSerialFromBytes] wraps. *)
Abbreviation Serial := (list Z).

Definition NewSerialFromBytes (b : list Z) : Serial := b.

(** [*x509.Certificate], by its encoding. *)
Abbreviation Certificate := (list Z).

(** [*pkix.CertificateList], as far as the program and the library calls
    on it look. *)
Record CertificateList := mkCertificateList {
  TBSCertList_Raw : list Z;
  TBSCertList_NextUpdate : Z;
  SignatureValue : list Z
}.

(** An entry of [TBSCertificateListWithRawSerials.RevokedCertificates]. *)
Record RevokedCertificateWithRawSerial := mkRevoked {
  SerialNumber_Bytes : list Z
}.

(** A file of the local disk: its bytes and its last-modified time, in
    nanoseconds. *)
Record File := mkFile {
  fileData : list Z;
  modTime : Z
}.

(** What [processCRL] wraps with [fmt.Errorf]; the names are the
    specification's (4.2). *)
Inductive CRLError :=
| ReadError (err : error)
| ParseError (err : error)
| SignatureError (err : error)
| DecodeError (err : error).

Inductive Severity := INFO | WARNING | ERROR | FATAL.

(** One constructor per logging statement of the workers and of their
    dispatchers. *)
Inductive Message :=
| MsgProcessing (aPath : string)
| MsgExpired (aPath : string)
| MsgNoSubject (issuer : Issuer) (err : error)
| MsgNoKnownCRLs (issuer : Issuer) (subject : string)
| MsgMkdir (err : error)
| MsgDownload (issuer : Issuer) (url tmpPath : string) (err : error)
| MsgNoCertificate (issuer : Issuer) (err : error)
| MsgNotValid (issuer : Issuer) (url tmpPath : string) (err : CRLError)
| MsgRename (issuer : Issuer) (tmpPath finalPath : string) (err : error)
| MsgNoLocalFile (url : string) (err : error)
| MsgOutOfDate (url : string) (age : Z)
| MsgFailedToProcess (crlPath : string) (err : CRLError)
| MsgSaving (issuer : Issuer) (serialCount : Z)
| MsgSaveFailed (issuer : Issuer) (err : error)
| MsgNotEnrolled (issuer : Issuer)
| MsgIgnoringURL (iUrl : string) (err : error)
| MsgListing
| MsgCompleted
| MsgFatal (err : error).

(** *** Slices *)

(** A Go slice: its elements and its capacity. *)
Record Slice (A : Type) := mkSlice {
  elems : list A;
  capacity : Z
}.
Arguments mkSlice {A} _ _.
Arguments elems {A} _.
Arguments capacity {A} _.

Definition len {A} (l : list A) : Z := Z.of_nat (length l).

(** [make([]T, 0, c)] *)
Definition make0 {A} (c : Z) : Slice A := mkSlice [] c.

(** [copy(dst, src)]: the first [min(len(dst), len(src))] elements of
    [dst] are overwritten; [dst] keeps its length and its capacity. *)
Definition copy {A} (dst : Slice A) (src : list A) : Slice A :=
  let n := Nat.min (length (elems dst)) (length src) in
  mkSlice (firstn n src ++ skipn n (elems dst)) (capacity dst).

(** [append(s, xs...)]. When the elements do not fit the capacity Go
    allocates a larger array; [grow] gives its capacity from the old
    capacity and the length needed. *)
Definition append {A} (grow : Z -> Z -> Z) (s : Slice A) (xs : list A) : Slice A :=
  let needed := len (elems s) + len xs in
  mkSlice (elems s ++ xs)
          (if needed <=? capacity s then capacity s else grow (capacity s) needed).

(** *** External collaborators *)

(** The functions of other packages that the program calls. They are
    parameters of the model: a theorem holds for whatever they compute. *)
Record Externals := mkExternals {
  (* flags *)
  crlpath : string;
  verbosity : Z;
  NumThreads : nat;
  (* rootprogram.MozIssuers *)
  IsIssuerInProgram : Issuer -> bool;
  GetSubjectForIssuer : Issuer -> error + string;
  GetCertificateForIssuer : Issuer -> error + Certificate;
  (* storage.CertDatabase *)
  GetIssuerAndDatesFromCache : error + list Issuer;
  CRLs : Issuer -> list string;
  (* x509, pkix and types.DecodeRawTBSCertList *)
  ParseCRL : list Z -> error + CertificateList;
  CheckCRLSignature : Certificate -> CertificateList -> option error;
  HasExpired : CertificateList -> Z -> bool;
  DecodeRawTBSCertList : list Z -> error + list RevokedCertificateWithRawSerial;
  (* net/url after strings.TrimSpace, path/filepath, os *)
  ParseURL : string -> error + URL;
  Join : list string -> string;
  MkdirAll : string -> option error;
  Rename : string -> string -> gmap string File -> option error * gmap string File;
  (* downloader.DownloadFileSync: the disk and the clock after the call *)
  DownloadFileSync : URL -> string -> gmap string File -> Z ->
                     option error * gmap string File * Z;
  (* storage.StorageBackend *)
  StoreKnownCertificateList : Issuer -> list Serial -> option error;
  (* the runtime: the capacity [append] grows to, and the worker that
     receives the n-th value sent on a channel *)
  growslice : Z -> Z -> Z;
  receiver : nat -> nat
}.

(** [allowableAgeOfLocalCRL, _ = time.ParseDuration("336h")], a
    [time.Duration]: nanoseconds. *)
Definition Hour : Z := 60 * 60 * 1000000000.
Definition allowableAgeOfLocalCRL : Z := 336 * Hour.

Definition maxDuration : Z := 2 ^ 63 - 1.
Definition minDuration : Z := - 2 ^ 63.

(** [t.Sub(u)]: a [time.Duration] is an [int64], the difference saturates. *)
Definition Sub (t u : Z) : Z :=
  if t - u >? maxDuration then maxDuration
  else if t - u <? minDuration then minDuration
  else t - u.

(** *** The state of a run *)

Record World := mkWorld {
  files : gmap string File;            (* the local disk *)
  clock : Z;                           (* time.Now(), in nanoseconds *)
  signals : list bool;                 (* what the coming polls of quitChan find *)
  enrolled : list Issuer;              (* the calls of issuers.Enroll, oldest first *)
  saved : gmap Issuer (list Serial);   (* saveStorage *)
  log : list (Severity * Message)      (* glog, oldest first *)
}.

(** The run of a piece of the program ends with a value, with the worker
    returning on a quit signal, or with the process exiting in
    [glog.Fatalf]. *)
Inductive Result (A : Type) :=
| Ok (a : A)
| Quit
| Fatal.
Arguments Ok {A} _.
Arguments Quit {A}.
Arguments Fatal {A}.

Definition M (A : Type) : Type := World -> Result A * World.

Definition ret {A} (a : A) : M A := fun w => (Ok a, w).

Definition bind {A B} (m : M A) (k : A -> M B) : M B :=
  fun w =>
    match m w with
    | (Ok a, w') => k a w'
    | (Quit, w') => (Quit, w')
    | (Fatal, w') => (Fatal, w')
    end.

Notation "'let*' x ':=' c 'in' k" := (bind c (fun x => k))
  (at level 10, x pattern, c at level 100, k at level 200).
Notation "c '>>' k" := (bind c (fun _ => k))
  (at level 100, k at level 200, right associativity).

Definition quit {A} : M A := fun w => (Quit, w).

Definition logf (sev : Severity) (msg : Message) : M unit :=
  fun w => (Ok tt, mkWorld (files w) (clock w) (signals w) (enrolled w) (saved w)
                           (log w ++ [(sev, msg)])).

(** [glog.Fatalf]: the message is logged and the process exits. *)
Definition fatalf {A} (msg : Message) : M A :=
  fun w => (Fatal, snd (logf FATAL msg w)).

(** [glog.V(1).Infof] *)
Definition logV1 (ext : Externals) (msg : Message) : M unit :=
  if 1 <=? verbosity ext then logf INFO msg else ret tt.

(** [select { case <-quitChan: ...; default: ... }] *)
Definition pollQuit : M bool :=
  fun w =>
    match signals w with
    | [] => (Ok false, w)
    | q :: rest => (Ok q, mkWorld (files w) (clock w) rest (enrolled w) (saved w) (log w))
    end.

Definition timeNow : M Z := fun w => (Ok (clock w), w).

(** [ioutil.ReadFile] *)
Definition ReadFile (aPath : string) : M (error + list Z) :=
  fun w =>
    match files w !! aPath with
    | Some f => (Ok (inr (fileData f)), w)
    | None => (Ok (inl "no such file or directory"%string), w)
    end.

(** Modelled from the spec: [rootprogram.MozIssuers.Enroll] is not among
    the sources; in section 3 the enrollment status is a boolean per issuer
    that the call turns to true. The calls are recorded, and an issuer is
    enrolled when a call names it. *)
Definition Enroll (issuer : Issuer) : M unit :=
  fun w => (Ok tt, mkWorld (files w) (clock w) (signals w) (enrolled w ++ [issuer])
                           (saved w) (log w)).

Definition isEnrolled (w : World) (issuer : Issuer) : bool :=
  existsb (String.eqb issuer) (enrolled w).

(** [ae.saveStorage.StoreKnownCertificateList]: the list is stored under
    the issuer, or the call fails and stores nothing. *)
Definition Store (ext : Externals) (issuer : Issuer) (serials : list Serial) : M (option error) :=
  fun w =>
    match StoreKnownCertificateList ext issuer serials with
    | Some err => (Ok (Some err), w)
    | None => (Ok None, mkWorld (files w) (clock w) (signals w) (enrolled w)
                                (<[issuer := serials]> (saved w)) (log w))
    end.

(** A [for ... range] loop whose body updates the loop's variables [s]. *)
Fixpoint forEach {S A} (body : S -> A -> M S) (s : S) (l : list A) : M S :=
  match l with
  | [] => ret s
  | a :: rest => let* s' := body s a in forEach body s' rest
  end.

(** *** The CRL validator and parser *)

Definition decodeSerials (revoked : list RevokedCertificateWithRawSerial)
    (serials : list Serial) : list Serial :=
  fold_left (fun serials ent => serials ++ [NewSerialFromBytes (SerialNumber_Bytes ent)])
            revoked serials.

(** [processCRL] returns a slice and an error, as in Go. The capacity of
    the slice ([1024*16] at first) is not kept: no caller looks at it. *)
Definition processCRL (ext : Externals) (aPath : string) (aIssuerCert : Certificate)
    : M (list Serial * option CRLError) :=
  let serials : list Serial := [] in
  logV1 ext (MsgProcessing aPath) >>
  let* read := ReadFile aPath in
  match read with
  | inl err => ret (serials, Some (ReadError err))
  | inr crlBytes =>
      match ParseCRL ext crlBytes with
      | inl err => ret (serials, Some (ParseError err))
      | inr crl =>
          match CheckCRLSignature ext aIssuerCert crl with
          | Some err => ret (serials, Some (SignatureError err))
          | None =>
              let* now := timeNow in
              (if HasExpired ext crl now
               then logf WARNING (MsgExpired aPath)
               else ret tt) >>
              match DecodeRawTBSCertList ext (TBSCertList_Raw crl) with
              | inl err => ret (serials, Some (DecodeError err))
              | inr revokedList => ret (decodeSerials revokedList serials, None)
              end
          end
      end
  end.

(** *** The aggregation stage *)

(** The variables of the loop over an issuer's paths. [serialCount] is a
    Go [int]; it counts elements of slices held in memory and stays far
    below [2^63], so it is not wrapped. *)
Record AggState := mkAggState {
  issuerEnrolled : bool;
  serials : Slice Serial;
  serialCount : Z
}.

(** The body of [for _, crlPath := range tuple.CrlPaths]. *)
Definition aggregatePath (ext : Externals) (cert : Certificate) (issuer : Issuer)
    (st : AggState) (crlPath : string) : M AggState :=
  let* q := pollQuit in
  if q : bool then quit else
  let* r := processCRL ext crlPath cert in
  match snd r with
  | Some err => logf ERROR (MsgFailedToProcess crlPath err) >> ret st
  | None =>
      let revokedSerials := fst r in
      let revokedCount := len revokedSerials in
      if revokedCount =? 0 then ret st else
      (if negb (issuerEnrolled st) then Enroll issuer else ret tt) >>
      let serials1 :=
        if capacity (serials st) <? revokedCount + serialCount st
        then
          let newSerials := make0 (serialCount st + revokedCount) in
          copy newSerials (elems (serials st))
        else serials st in
      let serials2 := append (growslice ext) serials1 revokedSerials in
      ret (mkAggState true serials2 (serialCount st + revokedCount))
  end.

(** [issuerEnrolled := false], [serialCount := 0] and
    [serials := make([]storage.Serial, 0, 128*1024)]. *)
Definition aggInit : AggState := mkAggState false (make0 (128 * 1024)) 0.

(** The body of [for tuple := range workChan]. *)
Definition aggregateIssuer (ext : Externals) (tuple : IssuerCrlPaths) : M unit :=
  let issuer := paths_Issuer tuple in
  match GetCertificateForIssuer ext issuer with
  | inl err => fatalf (MsgNoCertificate issuer err)
  | inr cert =>
      let* st := forEach (aggregatePath ext cert issuer) aggInit (CrlPaths tuple) in
      if issuerEnrolled st then
        logf INFO (MsgSaving issuer (serialCount st)) >>
        let* err := Store ext issuer (elems (serials st)) in
        match err with
        | Some err => fatalf (MsgSaveFailed issuer err)
        | None => ret tt
        end
      else logf INFO (MsgNotEnrolled issuer)
  end.

(** [aggregateCRLWorker], on the tuples it receives from [workChan]. *)
Definition aggregateCRLWorker (ext : Externals) (workChan : list IssuerCrlPaths) : M unit :=
  forEach (fun _ tuple => aggregateIssuer ext tuple) tt workChan.

(** *** The retrieval stage *)

(** Modelled from the spec: [downloader.GetSizeAndDateOfFile] is not among
    the sources; in section 4.4 the stage inspects the final path on disk:
    no file is an error, a file gives its size and its last-modified
    time. *)
Definition GetSizeAndDateOfFile (aPath : string) : M (error + Z * Z) :=
  fun w =>
    match files w !! aPath with
    | Some f => (Ok (inr (len (fileData f), modTime f)), w)
    | None => (Ok (inl "no such file or directory"%string), w)
    end.

Definition download (ext : Externals) (crlUrl : URL) (tmpPath : string) : M (option error) :=
  fun w =>
    match DownloadFileSync ext crlUrl tmpPath (files w) (clock w) with
    | (err, files', clock') =>
        (Ok err, mkWorld files' clock' (signals w) (enrolled w) (saved w) (log w))
    end.

Definition rename (ext : Externals) (oldpath newpath : string) : M (option error) :=
  fun w =>
    match Rename ext oldpath newpath (files w) with
    | (err, files') =>
        (Ok err, mkWorld files' (clock w) (signals w) (enrolled w) (saved w) (log w))
    end.

Definition tmpPathOf (ext : Externals) (issuer : Issuer) (crlUrl : URL) : string :=
  Join ext [crlpath ext; issuer; (makeFilenameFromUrl crlUrl +:+ ".tmp")%string].

Definition finalPathOf (ext : Externals) (issuer : Issuer) (crlUrl : URL) : string :=
  Join ext [crlpath ext; issuer; makeFilenameFromUrl crlUrl].

(** Lines 143 to 161: the download to the temporary path, the validation
    of the file and its move to the final path. *)
Definition downloadAndValidate (ext : Externals) (issuer : Issuer) (crlUrl : URL) : M unit :=
  let tmpPath := tmpPathOf ext issuer crlUrl in
  let finalPath := finalPathOf ext issuer crlUrl in
  let* err := download ext crlUrl tmpPath in
  match err with
  | Some err => logf WARNING (MsgDownload issuer (String_ crlUrl) tmpPath err)
  | None =>
      match GetCertificateForIssuer ext issuer with
      | inl err => fatalf (MsgNoCertificate issuer err)
      | inr cert =>
          let* r := processCRL ext tmpPath cert in
          match snd r with
          | Some err => logf WARNING (MsgNotValid issuer (String_ crlUrl) tmpPath err)
          | None =>
              let* err := rename ext tmpPath finalPath in
              match err with
              | Some err => logf ERROR (MsgRename issuer tmpPath finalPath err)
              | None => ret tt
              end
          end
      end
  end.

(** Lines 163 to 177: is the final path acceptable? *)
Definition acceptFinalPath (ext : Externals) (issuer : Issuer) (crlUrl : URL)
    (paths : list string) : M (list string) :=
  let finalPath := finalPathOf ext issuer crlUrl in
  let* stat := GetSizeAndDateOfFile finalPath in
  match stat with
  | inl err => logf ERROR (MsgNoLocalFile (String_ crlUrl) err) >> ret paths
  | inr (_, localDate) =>
      let* now := timeNow in
      let age := Sub now localDate in
      if age >? allowableAgeOfLocalCRL
      then logf ERROR (MsgOutOfDate (String_ crlUrl) age) >> ret paths
      else ret (paths ++ [finalPath])
  end.

(** The body of [for _, crlUrl := range tuple.Urls]. *)
Definition fetchUrl (ext : Externals) (issuer : Issuer) (paths : list string)
    (crlUrl : URL) : M (list string) :=
  let* q := pollQuit in
  if q : bool then quit else
  match MkdirAll ext (Join ext [crlpath ext; issuer]) with
  | Some err => logf WARNING (MsgMkdir err) >> ret paths
  | None =>
      downloadAndValidate ext issuer crlUrl >>
      acceptFinalPath ext issuer crlUrl paths
  end.

(** The body of [for tuple := range crlsChan]: the value sent on
    [resultChan]. *)
Definition fetchIssuer (ext : Externals) (tuple : IssuerCrlUrls) : M IssuerCrlPaths :=
  let* paths := forEach (fetchUrl ext (urls_Issuer tuple)) [] (Urls tuple) in
  ret (mkIssuerCrlPaths (urls_Issuer tuple) paths).

(** [crlFetchWorker], on the tuples it receives from [crlsChan]: what it
    sends on [resultChan]. *)
Definition crlFetchWorker (ext : Externals) (crlsChan : list IssuerCrlUrls)
    : M (list IssuerCrlPaths) :=
  forEach (fun resultChan tuple =>
             let* result := fetchIssuer ext tuple in
             ret (resultChan ++ [result]))
          [] crlsChan.

(** *** The discovery stage *)

(** The body of [for issuer := range issuerChan]. *)
Definition findCrlIssuer (ext : Externals) (issuerCrls : IssuerCrlMap) (issuer : Issuer)
    : M IssuerCrlMap :=
  let* q := pollQuit in
  if q : bool then quit else
  let crls := match issuerCrls !! issuer with
              | Some crls => crls
              | None => ∅
              end in
  let crlSet := CRLs ext issuer in
  (if len crlSet =? 0 then
     if IsIssuerInProgram ext issuer then
       match GetSubjectForIssuer ext issuer with
       | inl err => logf WARNING (MsgNoSubject issuer err)
       | inr issuerSubj => logf INFO (MsgNoKnownCRLs issuer issuerSubj)
       end
     else ret tt
   else ret tt) >>
  let crls := fold_left (fun crls url => <[url := true]> crls) crlSet crls in
  ret (<[issuer := crls]> issuerCrls).

(** [findCrlWorker], on the issuers it receives from [issuerChan]: the
    map it sends on [resultChan]. *)
Definition findCrlWorker (ext : Externals) (issuerChan : list Issuer) : M IssuerCrlMap :=
  forEach (findCrlIssuer ext) ∅ issuerChan.

(** *** The dispatchers *)

(** A stage starts [NumThreads] workers on one channel. [receiver] names
    the worker that receives the n-th value; a worker sees its values in
    the order of the channel. The workers of a pool share no variable; the
    model runs them one after the other. *)
Definition share {A} (ext : Externals) (t : nat) (chan : list A) : list A :=
  map snd
      (List.filter (fun p => Nat.eqb (Nat.modulo (receiver ext (fst p)) (NumThreads ext)) t)
                   (combine (seq 0 (length chan)) chan)).

Definition shares {A} (ext : Externals) (chan : list A) : list (list A) :=
  map (fun t => share ext t chan) (seq 0 (NumThreads ext)).

(** The pool: each worker on its share, the results in a list. A quit
    signal seen by a worker ends the stage without a result. *)
Definition pool {A B} (ext : Externals) (worker : list A -> M B) (chan : list A) : M (list B) :=
  forEach (fun results work => let* r := worker work in ret (results ++ [r]))
          [] (shares ext chan).

(** [identifyCrlsByIssuer], when no signal arrives. [issuerChan] has room
    for the whole list: the send never overflows. *)
Definition identifyCrlsByIssuer (ext : Externals) : M IssuerCrlMap :=
  logf INFO MsgListing >>
  match GetIssuerAndDatesFromCache ext with
  | inl err => fatalf (MsgFatal err)
  | inr issuerList =>
      let issuerChan := List.filter (IsIssuerInProgram ext) issuerList in
      let* resultChan := pool ext (findCrlWorker ext) issuerChan in
      ret (fold_left Merge resultChan ∅)
  end.

(** The inner loop of [downloadCRLs]: [for iUrl := range crlMap]. *)
Definition parseUrl (ext : Externals) (urls : list URL) (iUrl : string) : M (list URL) :=
  match ParseURL ext iUrl with
  | inl err => logf WARNING (MsgIgnoringURL iUrl err) >> ret urls
  | inr urlObj => ret (urls ++ [urlObj])
  end.

(** The outer loop of [downloadCRLs]: [for issuer, crlMap := range issuerToUrls]. *)
Definition dispatchIssuer (ext : Externals) (crlChan : list IssuerCrlUrls)
    (entry : string * gmap string bool) : M (list IssuerCrlUrls) :=
  let* urls := forEach (parseUrl ext) [] (map fst (map_to_list (snd entry))) in
  if 0 <? len urls
  then ret (crlChan ++ [mkIssuerCrlUrls (fst entry) urls])
  else ret crlChan.

Definition dispatch (ext : Externals) (issuerToUrls : IssuerCrlMap) : M (list IssuerCrlUrls) :=
  forEach (dispatchIssuer ext) [] (map_to_list issuerToUrls).

(** [downloadCRLs], when no signal arrives: the values of [resultChan]. *)
Definition downloadCRLs (ext : Externals) (issuerToUrls : IssuerCrlMap)
    : M (list IssuerCrlPaths) :=
  let* crlChan := dispatch ext issuerToUrls in
  let* results := pool ext (crlFetchWorker ext) crlChan in
  ret (concat results).

(** [aggregateCRLs], when no signal arrives. *)
Definition aggregateCRLs (ext : Externals) (crlPaths : list IssuerCrlPaths) : M unit :=
  pool ext (aggregateCRLWorker ext) crlPaths >>
  logf INFO MsgCompleted.

(** The three stages as [main] chains them. *)
Definition stages (ext : Externals) : M unit :=
  let* mergedCrls := identifyCrlsByIssuer ext in
  let* crlPaths := downloadCRLs ext mergedCrls in
  aggregateCRLs ext crlPaths.

End Engine.

(* ===================================================================== *)
(** ** The steps of the program as functions *)
(* ===================================================================== *)

Module Run.
Import Types Filename Engine.

(** The world after [calls] to [Enroll] and the logging of [lines]. *)
Definition after (w : World) (calls : list Issuer) (lines : list (Severity * Message)) : World :=
  mkWorld (files w) (clock w) (signals w) (enrolled w ++ calls) (saved w) (log w ++ lines).

(** The world after [serials] are stored under [issuer]. *)
Definition stored (w : World) (issuer : Issuer) (serials : list Serial) : World :=
  mkWorld (files w) (clock w) (signals w) (enrolled w) (<[issuer := serials]> (saved w)) (log w).

(** *** processCRL *)

(** The slice and the error [processCRL] returns: a function of the disk,
    and not of the clock. *)
Definition crlResult (ext : Externals) (disk : gmap string File) (aPath : string)
    (cert : Certificate) : list Serial * option CRLError :=
  match disk !! aPath with
  | None => ([], Some (ReadError "no such file or directory"%string))
  | Some f =>
      match ParseCRL ext (fileData f) with
      | inl err => ([], Some (ParseError err))
      | inr crl =>
          match CheckCRLSignature ext cert crl with
          | Some err => ([], Some (SignatureError err))
          | None =>
              match DecodeRawTBSCertList ext (TBSCertList_Raw crl) with
              | inl err => ([], Some (DecodeError err))
              | inr revokedList =>
                  (map (fun ent => NewSerialFromBytes (SerialNumber_Bytes ent)) revokedList, None)
              end
          end
      end
  end.

(** The warning of an expired CRL: logged when the signature has verified. *)
Definition expiryLog (ext : Externals) (disk : gmap string File) (now : Z) (aPath : string)
    (cert : Certificate) : list (Severity * Message) :=
  match disk !! aPath with
  | None => []
  | Some f =>
      match ParseCRL ext (fileData f) with
      | inl _ => []
      | inr crl =>
          match CheckCRLSignature ext cert crl with
          | Some _ => []
          | None => if HasExpired ext crl now then [(WARNING, MsgExpired aPath)] else []
          end
      end
  end.

Definition crlLog (ext : Externals) (disk : gmap string File) (now : Z) (aPath : string)
    (cert : Certificate) : list (Severity * Message) :=
  (if 1 <=? verbosity ext then [(INFO, MsgProcessing aPath)] else [])
  ++ expiryLog ext disk now aPath cert.

(** *** The loop of the aggregation stage *)

(** Does the result of [processCRL] pass the two tests of the loop: no
    error, and at least one serial? *)
Definition contributes (r : list Serial * option CRLError) : bool :=
  match snd r with
  | Some _ => false
  | None => negb (len (fst r) =? 0)
  end.

(** The same, asked of [processCRL] itself in the world [w]. *)
Definition yieldsSerials (ext : Externals) (cert : Certificate) (w : World) (crlPath : string)
    : bool :=
  match fst (processCRL ext crlPath cert w) with
  | Ok (revokedSerials, None) => negb (len revokedSerials =? 0)
  | _ => false
  end.

(** The value of [issuerEnrolled] once the first [n] paths are processed. *)
Definition enrolledAfter (ext : Externals) (cert : Certificate) (issuer : Issuer)
    (paths : list string) (w : World) (n : nat) : option bool :=
  match fst (forEach (aggregatePath ext cert issuer) aggInit (take n paths) w) with
  | Ok st => Some (issuerEnrolled st)
  | _ => None
  end.

(** Lines 266 to 270: the accumulator made ready for [revokedCount] more
    serials. *)
Definition regrow (st : AggState) (revokedCount : Z) : Slice Serial :=
  if capacity (serials st) <? revokedCount + serialCount st
  then copy (make0 (serialCount st + revokedCount)) (elems (serials st))
  else serials st.

(** The loop's variables after a path whose CRL gave [r]. *)
Definition aggStep (grow : Z -> Z -> Z) (st : AggState) (r : list Serial * option CRLError)
    : AggState :=
  if contributes r
  then mkAggState true (append grow (regrow st (len (fst r))) (fst r))
                  (serialCount st + len (fst r))
  else st.

Definition aggFold (ext : Externals) (disk : gmap string File) (cert : Certificate)
    (st : AggState) (paths : list string) : AggState :=
  fold_left (aggStep (growslice ext)) (map (fun p => crlResult ext disk p cert) paths) st.

(** What the loop logs for one path. *)
Definition pathLog (ext : Externals) (disk : gmap string File) (now : Z) (cert : Certificate)
    (crlPath : string) : list (Severity * Message) :=
  crlLog ext disk now crlPath cert
  ++ match snd (crlResult ext disk crlPath cert) with
     | Some err => [(ERROR, MsgFailedToProcess crlPath err)]
     | None => []
     end.

(** The call of [Enroll] between two states of the loop. *)
Definition enrollCall (issuer : Issuer) (before after : AggState) : list Issuer :=
  if issuerEnrolled after && negb (issuerEnrolled before) then [issuer] else [].

(** The serials of the CRLs that pass the two tests, file after file. *)
Definition validSerials (ext : Externals) (disk : gmap string File) (cert : Certificate)
    (paths : list string) : list Serial :=
  concat (map (fun p => if contributes (crlResult ext disk p cert)
                        then fst (crlResult ext disk p cert) else [])
              paths).

(** *** The discovery stage *)

(** [selfCrls, pres := self[issuer]; if !pres { selfCrls = make(map[string]bool) }] *)
Definition selfCrlsOf (self : IssuerCrlMap) (issuer : string) : gmap string bool :=
  match self !! issuer with
  | Some selfCrls => selfCrls
  | None => ∅
  end.

(** [for _, url := range crlSet { crls[url] = true }] *)
Definition addUrls (crlSet : list string) (crls : gmap string bool) : gmap string bool :=
  fold_left (fun crls url => <[url := true]> crls) crlSet crls.

(** The map of [findCrlWorker] after one more issuer. *)
Definition findStep (ext : Externals) (issuerCrls : IssuerCrlMap) (issuer : Issuer)
    : IssuerCrlMap :=
  <[issuer := addUrls (CRLs ext issuer) (selfCrlsOf issuerCrls issuer)]> issuerCrls.

Definition findMap (ext : Externals) (issuerChan : list Issuer) : IssuerCrlMap :=
  fold_left (findStep ext) issuerChan ∅.

(** What [findCrlWorker] logs for an issuer. *)
Definition noCrlLog (ext : Externals) (issuer : Issuer) : list (Severity * Message) :=
  if len (CRLs ext issuer) =? 0 then
    if IsIssuerInProgram ext issuer then
      match GetSubjectForIssuer ext issuer with
      | inl err => [(WARNING, MsgNoSubject issuer err)]
      | inr issuerSubj => [(INFO, MsgNoKnownCRLs issuer issuerSubj)]
      end
    else []
  else [].

(** The map has no URL for the issuer: no entry, or an empty set. *)
Definition noUrlFor (issuer : Issuer) (m : IssuerCrlMap) : Prop :=
  m !! issuer = None \/ m !! issuer = Some ∅.

(** *** Enrollment across the stages *)

(** The number of calls of [Enroll] for [issuer] so far. *)
Definition enrollCount (issuer : Issuer) (w : World) : nat :=
  count_occ string_dec (enrolled w) issuer.

(** [m] calls [Enroll] for [issuer] at most [k] times, and what it returns
    satisfies [Q]. *)
Definition enrollsAtMost {A} (issuer : Issuer) (k : nat) (Q : A -> Prop) (m : M A) : Prop :=
  forall w, (enrollCount issuer (snd (m w)) <= enrollCount issuer w + k)%nat
            /\ forall a, fst (m w) = Ok a -> Q a.

(** [m] does not call [Enroll] for [issuer]. *)
Abbreviation keeps issuer Q m := (enrollsAtMost issuer 0 Q m).

(** The tuples of an issuer, counted. *)
Definition isFor (issuer : Issuer) (tupleIssuer : Issuer) : nat :=
  if String.eqb tupleIssuer issuer then 1%nat else 0%nat.

Definition tuplesFor {T} (issuer : Issuer) (issuerOf : T -> Issuer) (chan : list T) : nat :=
  list_sum (map (fun tuple => isFor issuer (issuerOf tuple)) chan).

End Run.

(* ===================================================================== *)
(** ** A small world to run the program in *)
(* ===================================================================== *)

(** Collaborators simple enough to compute with. A CRL file is the byte
    [0x30], the byte of its signer, its next update in hours, and its
    revoked serials, one byte each; a certificate is the byte of its
    holder. *)
Module Demo.
Import Types Filename Engine.
Local Open Scope string_scope.

Definition parseCRL (bytes : list Z) : error + CertificateList :=
  match bytes with
  | 48 :: signer :: nextUpdate :: raw =>
      inr (mkCertificateList raw (nextUpdate * Hour) [signer])
  | _ => inl "asn1: structure error"
  end%Z.

Definition checkCRLSignature (cert : Certificate) (crl : CertificateList) : option error :=
  if bool_decide (SignatureValue crl = cert) then None
  else Some "crypto/rsa: verification error".

Definition hasExpired (crl : CertificateList) (now : Z) : bool :=
  (TBSCertList_NextUpdate crl <=? now)%Z.

(** The byte 255 stands for an entry the decoder rejects. *)
Definition decodeRaw (raw : list Z) : error + list RevokedCertificateWithRawSerial :=
  if existsb (Z.eqb 255) raw then inl "asn1: syntax error"
  else inr (map (fun b => mkRevoked [b]) raw).

Definition certificateOf (issuer : Issuer) : error + Certificate :=
  if String.eqb issuer "X" then inr [1%Z]
  else if String.eqb issuer "Y" then inr [2%Z]
  else if String.eqb issuer "Z" then inr [3%Z]
  else inl "unknown issuer".

Definition inProgram (issuer : Issuer) : bool :=
  match certificateOf issuer with
  | inr _ => true
  | inl _ => false
  end.

Definition urlA : string := "http://a.example/ca/X.crl".
Definition urlB : string := "http://b.example/X.CRL".
Definition urlY : string := "http://y.example/y.crl".

Definition crlsOf (issuer : Issuer) : list string :=
  if String.eqb issuer "X" then [urlA; urlB]
  else if String.eqb issuer "Y" then [urlY]
  else [].

(** [http://host/path] and nothing else. *)
Definition parseURL (s : string) : error + URL :=
  if String.prefix "http://" s then
    let rest := skipn 7 (list_ascii_of_string s) in
    let notSlash := fun c => negb (GoString.is_slash c) in
    inr (mkURL (string_of_list_ascii (GoString.take_while notSlash rest))
               (string_of_list_ascii (GoString.drop_while notSlash rest))
               s)
  else inl "unsupported protocol scheme".

Definition renameFile (oldpath newpath : string) (disk : gmap string File)
    : option error * gmap string File :=
  match disk !! oldpath with
  | Some f => (None, <[newpath := f]> (delete oldpath disk))
  | None => (Some "no such file or directory", disk)
  end.

(** The CRL that [urlA] serves: signed by X, serials 5, 6 and 7. No other
    URL answers. A download takes a second. *)
Definition crlA : list Z := [48; 1; 2000000; 5; 6; 7]%Z.

Definition downloadFile (crlUrl : URL) (tmpPath : string) (disk : gmap string File) (now : Z)
    : option error * gmap string File * Z :=
  if String.eqb (String_ crlUrl) urlA
  then (None, <[tmpPath := mkFile crlA now]> disk, now + 1000000000)%Z
  else (Some "connection refused", disk, now + 1000000000)%Z.

Definition ext : Externals :=
  {| crlpath := "/crls";
     verbosity := 0;
     NumThreads := 2;
     IsIssuerInProgram := inProgram;
     GetSubjectForIssuer := fun issuer => inr ("CN=" +:+ issuer);
     GetCertificateForIssuer := certificateOf;
     GetIssuerAndDatesFromCache := inr ["X"; "Y"; "Z"; "W"];
     CRLs := crlsOf;
     ParseCRL := parseCRL;
     CheckCRLSignature := checkCRLSignature;
     HasExpired := hasExpired;
     DecodeRawTBSCertList := decodeRaw;
     ParseURL := parseURL;
     Join := String.concat "/";
     MkdirAll := fun _ => None;
     Rename := renameFile;
     DownloadFileSync := downloadFile;
     StoreKnownCertificateList := fun _ _ => None;
     growslice := fun old needed => Z.max (2 * old) needed;
     receiver := fun n => n |}.

Definition today : Z := (1000000 * Hour)%Z.

(** An empty disk, no signal. *)
Definition emptyWorld : World := mkWorld ∅ today [] [] ∅ [].

Definition onDisk (disk : list (string * File)) : World :=
  mkWorld (list_to_map disk) today [] [] ∅ [].

(** The two scenarios of the specification's 8: the cache holds, for
    [urlB], a CRL of X with the serial 9 that is two days old; nothing is
    cached for Y. *)
Definition cachedB : string :=
  Eval vm_compute in finalPathOf ext "X" (mkURL "b.example" "/X.CRL" urlB).

Definition scenario : World :=
  onDisk [(cachedB, mkFile [48; 1; 2000000; 9]%Z (today - 48 * Hour)%Z)].

(** The cache holds, for [urlB], a CRL that will be 336 hours and [extra]
    nanoseconds old once the download of [urlB] has failed. *)
Definition agedCache (extra : Z) : World :=
  onDisk [(cachedB, mkFile [48; 1; 2000000; 9]%Z
                           (today + 1000000000 - 336 * Hour - extra)%Z)].

Definition crlUrlB : URL := mkURL "b.example" "/X.CRL" urlB.

(** A URL to derive a file name from. *)
Definition rootUrl : URL :=
  mkURL "crl.example.com" "/ca/Root.crl" "http://crl.example.com/ca/Root.crl".

(** A disk for the aggregation stage alone: CRLs of X with 3, 1 and 0
    serials, one signed by Y, one past its next update, one that is no CRL,
    and one whose list does not decode. *)
Definition aggDisk : World :=
  onDisk [ ("three.crl", mkFile [48; 1; 2000000; 5; 6; 7]%Z today);
           ("one.crl", mkFile [48; 1; 2000000; 9]%Z today);
           ("none.crl", mkFile [48; 1; 2000000]%Z today);
           ("forged.crl", mkFile [48; 2; 2000000; 66]%Z today);
           ("expired.crl", mkFile [48; 1; 10; 11; 12]%Z today);
           ("junk.crl", mkFile [1; 2; 3]%Z today);
           ("undecodable.crl", mkFile [48; 1; 2000000; 255]%Z today) ].

(** A CRL of X with [128*1024] serials, and one with a single serial. *)
Definition bigDisk : World :=
  onDisk [ ("big.crl", mkFile (48 :: 1 :: 2000000 :: repeat 7 (Z.to_nat (128 * 1024)))%Z today);
           ("small.crl", mkFile [48; 1; 2000000; 9]%Z today) ].

End Demo.

(* ===================================================================== *)
(** ** Further notions to state what the program does *)
(* ===================================================================== *)

Module Behaviour.
Import Types Filename Engine Run.

(** The boolean stored for a URL of an issuer, if any. *)
Definition urlEntry (m : IssuerCrlMap) (issuer url : string) : option bool :=
  match m !! issuer with
  | Some crls => crls !! url
  | None => None
  end.

(** The characters of a file name that [makeFilenameFromUrl] can produce:
    lower-case letters, digits and [~ - . /]. *)
Definition safeChar (c : ascii) : bool :=
  GoString.is_lower c || GoString.is_digit c
  || Ascii.eqb c "~" || Ascii.eqb c "-" || Ascii.eqb c "." || Ascii.eqb c "/".

(** The bytes of a string, as characters. *)
Definition chars (s : string) : list ascii := list_ascii_of_string s.

Definition isByte (b : Z) : Prop := 0 <= b < 256.

(** The value of a hexadecimal digit of [hex.EncodeToString]. *)
Definition unhex (c : ascii) : Z :=
  if GoString.byte_of c <? 97 then GoString.byte_of c - 48 else GoString.byte_of c - 87.

(** The error that [processCRL] returns, [None] for [nil]. *)
Definition returnedError (ext : Externals) (aPath : string) (cert : Certificate) (w : World)
    : option CRLError :=
  match fst (processCRL ext aPath cert w) with
  | Ok (_, err) => err
  | _ => None
  end.

(** [m] takes a world to one that stands in [R] to it, whatever the way it
    ends, and the value it returns satisfies [Q]. *)
Definition ensures {A} (R : World -> World -> Prop) (Q : A -> Prop) (m : M A) : Prop :=
  forall w, R w (snd (m w)) /\ forall a, fst (m w) = Ok a -> Q a.

(** The same for the runs of [m] that return. *)
Definition onReturn {A} (R : World -> World -> Prop) (m : M A) : Prop :=
  forall w a w', m w = (Ok a, w') -> R w w'.

(** No call of [Enroll] and none of [StoreKnownCertificateList]. *)
Definition sameRegistry (w w' : World) : Prop :=
  enrolled w' = enrolled w /\ saved w' = saved w.

(** The CRL files are as they were: the files that [ioutil.ReadFile] reads
    and that [DownloadFileSync] and [os.Rename] write. The lists that
    [StoreKnownCertificateList] writes are not among them: they are in
    [saved], whatever the storage backend keeps them in. *)
Definition sameCrlFiles (w w' : World) : Prop :=
  files w' = files w.

(** The issuers enrolled between [w] and [w'] have a list in the store of
    [w'], and the store has lost no issuer. *)
Definition accountedFor (w w' : World) : Prop :=
  (forall issuer, is_Some (saved w !! issuer) -> is_Some (saved w' !! issuer))
  /\ (forall issuer, In issuer (enrolled w') ->
                     In issuer (enrolled w) \/ is_Some (saved w' !! issuer)).

(** A world in which the second poll of [quitChan] finds the signal. *)
Definition cancelledAfterOne (w : World) : World :=
  mkWorld (files w) (clock w) [false; true] (enrolled w) (saved w) (log w).

(** The collaborators of [Demo.ext] on a disk that takes no directory. *)
Definition readOnly : Externals :=
  {| crlpath := crlpath Demo.ext;
     verbosity := verbosity Demo.ext;
     NumThreads := NumThreads Demo.ext;
     IsIssuerInProgram := IsIssuerInProgram Demo.ext;
     GetSubjectForIssuer := GetSubjectForIssuer Demo.ext;
     GetCertificateForIssuer := GetCertificateForIssuer Demo.ext;
     GetIssuerAndDatesFromCache := GetIssuerAndDatesFromCache Demo.ext;
     CRLs := CRLs Demo.ext;
     ParseCRL := ParseCRL Demo.ext;
     CheckCRLSignature := CheckCRLSignature Demo.ext;
     HasExpired := HasExpired Demo.ext;
     DecodeRawTBSCertList := DecodeRawTBSCertList Demo.ext;
     ParseURL := ParseURL Demo.ext;
     Join := Join Demo.ext;
     MkdirAll := fun _ => Some "read-only file system"%string;
     Rename := Rename Demo.ext;
     DownloadFileSync := DownloadFileSync Demo.ext;
     StoreKnownCertificateList := StoreKnownCertificateList Demo.ext;
     growslice := growslice Demo.ext;
     receiver := receiver Demo.ext |}.

(** The two URLs of X in [Demo.ext], parsed. *)
Definition crlUrlA : URL := mkURL "a.example" "/ca/X.crl" Demo.urlA.
Definition urlsOfX : IssuerCrlUrls := mkIssuerCrlUrls "X" [crlUrlA; Demo.crlUrlB].

(** The URLs among [keys] that [url.Parse] accepts, in the order of the keys. *)
Definition parsedUrls (ext : Externals) (keys : list string) : list URL :=
  flat_map (fun iUrl => match ParseURL ext iUrl with
                        | inr urlObj => [urlObj]
                        | inl _ => []
                        end) keys.

(** What [downloadCRLs] sends on [crlChan] for an entry of the map. *)
Definition tupleOf (ext : Externals) (entry : string * gmap string bool)
    : list IssuerCrlUrls :=
  let urls := parsedUrls ext (map fst (map_to_list (snd entry))) in
  if 0 <? len urls then [mkIssuerCrlUrls (fst entry) urls] else [].

(** What a run needs to enroll an issuer: the issuer is in the root
    program, the cache lists it, and one of its CRL URLs parses. *)
Definition canBeEnrolled (ext : Externals) (issuer : Issuer) : Prop :=
  IsIssuerInProgram ext issuer = true
  /\ (exists issuerList,
        GetIssuerAndDatesFromCache ext = inr issuerList /\ In issuer issuerList)
  /\ exists iUrl urlObj, In iUrl (CRLs ext issuer) /\ ParseURL ext iUrl = inr urlObj.

(** Every URL of the map is stored with [true]. *)
Definition allTrue (m : IssuerCrlMap) : Prop :=
  forall issuer url b, urlEntry m issuer url = Some b -> b = true.

(** A disk with one CRL of X, past its next update, with a revoked entry
    that the decoder rejects. *)
Definition staleDisk : World :=
  Demo.onDisk [ ("stale.crl"%string, mkFile [48; 1; 10; 255]%Z Demo.today) ].

End Behaviour.
(* ===================================================================== *)
(** ** IssuerCrlMap.Merge *)
(* ===================================================================== *)

Section MergeProperties.
Import Types Run.

Lemma mergeCrls_lookup (selfCrls crls : gmap string bool) (crl : string) :
  mergeCrls selfCrls crls !! crl =
  match crls !! crl with
  | Some _ => Some true
  | None => selfCrls !! crl
  end.
Proof.
  unfold mergeCrls.
  revert crl.
  apply (map_fold_weak_ind
           (fun (r : gmap string bool) (m : gmap string bool) =>
              forall crl, r !! crl = match m !! crl with
                                     | Some _ => Some true
                                     | None => selfCrls !! crl
                                     end)).
  - intros crl. by rewrite lookup_empty.
  - intros i x m r Hi IH crl.
    destruct (decide (i = crl)) as [->|Hne].
    + by rewrite !lookup_insert_eq.
    + rewrite !lookup_insert_ne by done. apply IH.
Qed.

(** The result of [Merge], entry by entry: it does not depend on the order
    in which the two loops visit the maps. *)
Lemma Merge_lookup (self other : IssuerCrlMap) (issuer : string) :
  Merge self other !! issuer =
  match other !! issuer with
  | Some crls => Some (mergeCrls (selfCrlsOf self issuer) crls)
  | None => self !! issuer
  end.
Proof.
  unfold Merge.
  revert issuer.
  apply (map_fold_weak_ind
           (fun (r : IssuerCrlMap) (m : IssuerCrlMap) =>
              forall issuer, r !! issuer =
                             match m !! issuer with
                             | Some crls => Some (mergeCrls (selfCrlsOf self issuer) crls)
                             | None => self !! issuer
                             end)).
  - intros issuer. by rewrite lookup_empty.
  - intros i x m r Hi IH issuer.
    destruct (decide (i = issuer)) as [->|Hne].
    + rewrite !lookup_insert_eq.
      specialize (IH issuer). rewrite Hi in IH.
      unfold selfCrlsOf. by rewrite IH.
    + rewrite !lookup_insert_ne by done. apply IH.
Qed.

Lemma dom_mergeCrls (selfCrls crls : gmap string bool) :
  dom (mergeCrls selfCrls crls) = dom crls ∪ dom selfCrls.
Proof.
  apply set_eq. intros crl.
  rewrite elem_of_union, !elem_of_dom, mergeCrls_lookup.
  destruct (crls !! crl) eqn:E.
  - split; [intros _; left; eauto | intros _; eauto].
  - split; [intros H; by right | intros [[? H]|H]; [done | done]].
Qed.

Lemma mergeCrls_twice (selfCrls crls : gmap string bool) :
  mergeCrls (mergeCrls selfCrls crls) crls = mergeCrls selfCrls crls.
Proof.
  apply map_eq. intros crl.
  rewrite !mergeCrls_lookup.
  by destruct (crls !! crl).
Qed.

Lemma urlSets_lookup (m : IssuerCrlMap) (issuer : string) :
  urlSets m !! issuer = dom <$> (m !! issuer).
Proof. unfold urlSets. by rewrite lookup_fmap. Qed.

(** C7: [Merge] is idempotent (merging [B] into [A] twice gives the map
    that merging it once gives), commutative on the issuer to URL-set
    contents (merging [B] into [A] and [A] into [B] give the same URL sets),
    and merging one URL twice for one issuer changes nothing. *)
Theorem Merge_idempotent_commutative (A B : IssuerCrlMap) :
  Merge (Merge A B) B = Merge A B
  /\ urlSets (Merge A B) = urlSets (Merge B A)
  /\ (forall (issuer crl : string) (v : bool),
        Merge (Merge A {[issuer := {[crl := v]}]}) {[issuer := {[crl := v]}]}
        = Merge A {[issuer := {[crl := v]}]}).
Proof.
  assert (Hidem : forall X Y : IssuerCrlMap, Merge (Merge X Y) Y = Merge X Y).
  { intros X Y. apply map_eq. intros issuer.
    rewrite !Merge_lookup.
    destruct (Y !! issuer) as [crls|] eqn:E; [|done].
    f_equal. unfold selfCrlsOf at 1. rewrite Merge_lookup, E.
    apply mergeCrls_twice. }
  split; [apply Hidem|]. split; [|intros; apply Hidem].
  apply map_eq. intros issuer.
  rewrite !urlSets_lookup, !Merge_lookup.
  unfold selfCrlsOf.
  destruct (A !! issuer) as [a|] eqn:EA, (B !! issuer) as [b|] eqn:EB; simpl; try done.
  - f_equal. rewrite !dom_mergeCrls. apply (comm_L (∪)).
  - f_equal. rewrite dom_mergeCrls, dom_empty_L. by rewrite (right_id_L ∅ (∪)).
  - f_equal. rewrite dom_mergeCrls, dom_empty_L. by rewrite (right_id_L ∅ (∪)).
Qed.

(** The booleans are not part of the contents: a [false] that a map holds
    is kept when the map is merged into, and replaced by [true] when the
    map is merged into another one. *)
Example Merge_booleans_may_differ :
  let A : IssuerCrlMap := {[ "issuer"%string := {[ "url"%string := false ]} ]} in
  Merge A ∅ !! "issuer"%string = Some {[ "url"%string := false ]}
  /\ Merge ∅ A !! "issuer"%string = Some {[ "url"%string := true ]}
  /\ urlSets (Merge A ∅) = urlSets (Merge ∅ A).
Proof. vm_compute. repeat split. Qed.

End MergeProperties.


(* ===================================================================== *)
(** ** makeFilenameFromUrl *)
(* ===================================================================== *)

Section FilenameProperties.
Import GoString Filename.

Lemma compress_length (h block : list Z) :
  length h = 8%nat -> length (Sha256.compress h block) = 8%nat.
Proof.
  intros H. unfold Sha256.compress.
  rewrite length_map, length_combine, H. reflexivity.
Qed.

Lemma Sum256_length (msg : list Z) : length (Sha256.Sum256 msg) = 32%nat.
Proof.
  unfold Sha256.Sum256.
  assert (H : length (fold_left Sha256.compress
                        (Sha256.chunks 64 (length (Sha256.pad msg)) (Sha256.pad msg))
                        Sha256.H0) = 8%nat).
  { generalize (Sha256.chunks 64 (length (Sha256.pad msg)) (Sha256.pad msg)).
    assert (H0 : length Sha256.H0 = 8%nat) by reflexivity.
    revert H0. generalize Sha256.H0.
    intros h Hh blocks. revert h Hh.
    induction blocks as [|b blocks IH]; intros h Hh; [done|].
    simpl. apply IH. by apply compress_length. }
  destruct (fold_left _ _ _) as [|a [|b [|c [|d [|e [|f [|g [|i [|j t]]]]]]]]];
    try discriminate H.
  reflexivity.
Qed.

Lemma EncodeToString_length (bs : list Z) :
  String.length (EncodeToString bs) = (2 * length bs)%nat.
Proof. induction bs as [|b bs IH]; simpl; [done|]. rewrite IH. lia. Qed.

(** Two digests of FIPS 180-4's examples. *)
Example Sum256_abc :
  EncodeToString (Sha256.Sum256 (bytes_of_string "abc"))
  = "ba7816bf8f01cfea414140de5dae2223b00361a396177a9cb410ff61f20015ad"%string.
Proof. vm_compute. reflexivity. Qed.

Example Sum256_empty :
  EncodeToString (Sha256.Sum256 [])
  = "e3b0c44298fc1c149afbf4c8996fb92427ae41e4649b934ca495991b7852b855"%string.
Proof. vm_compute. reflexivity. Qed.

(** Upper case, a character to remove, U+212A and a path that ends in a
    slash. *)
Example makeFilenameFromUrl_sanitises :
  makeFilenameFromUrl
    (mkURL (String "226" (String "132" (String "170" "EY.Example_CA.org")))
           "/Certs/Sub CA.CRL/"
           "http://example.org/")
  = "key.exampleca.org-subca-781bc04ec9bd049c.crl"%string.
Proof. vm_compute. reflexivity. Qed.

(** The two names of [Demo.rootUrl]: the program's, and the one the
    specification's words give. *)
Example rootUrl_names :
  makeFilenameFromUrl Demo.rootUrl = "crl.example.com-root-e4be83e6deb5b5c0.crl"%string
  /\ spec_filename Demo.rootUrl = "crl.example.comroot-e4be83e6deb5b5c0.crl"%string.
Proof. split; vm_compute; reflexivity. Qed.

(** C6 as the specification words it fails: the program puts [-] between
    the host and the base path. *)
Lemma makeFilenameFromUrl_is_not_spec_filename :
  makeFilenameFromUrl Demo.rootUrl <> spec_filename Demo.rootUrl.
Proof. vm_compute. discriminate. Qed.

(** C6, amended: the name is the lower-cased host, [-] and base path,
    with the illegal characters and a trailing [.crl] removed, then [-],
    the 16 hexadecimal digits of the first 8 bytes of the SHA-256 of the
    URL, and [.crl]. *)
Theorem makeFilenameFromUrl_derivation (crlUrl : URL) :
  makeFilenameFromUrl crlUrl = derived_name "-" crlUrl
  /\ exists digits : string,
       digits = EncodeToString (firstn 8 (Sha256.Sum256 (bytes_of_string (String_ crlUrl))))
       /\ String.length digits = 16%nat
       /\ makeFilenameFromUrl crlUrl
          = (TrimSuffix (removeIllegal
                           (ToLower (Hostname crlUrl +:+ "-" +:+ Base (Path crlUrl))))
                        ".crl"
             +:+ "-" +:+ digits +:+ ".crl")%string.
Proof.
  split.
  - reflexivity.
  - eexists. split; [reflexivity|]. split; [|reflexivity].
    rewrite EncodeToString_length, length_firstn, Sum256_length. reflexivity.
Qed.

End FilenameProperties.
(* ===================================================================== *)
(** ** What a step of the program does to the world *)
(* ===================================================================== *)

Section RunLemmas.
Import Types Filename Engine Run.

Lemma after_nil w : after w [] [] = w.
Proof. destruct w. unfold after. simpl. by rewrite !app_nil_r. Qed.

Lemma after_after w c1 l1 c2 l2 :
  after (after w c1 l1) c2 l2 = after w (c1 ++ c2) (l1 ++ l2).
Proof. unfold after. simpl. by rewrite !app_assoc. Qed.

Lemma logf_run sev msg w : logf sev msg w = (Ok tt, after w [] [(sev, msg)]).
Proof. unfold logf, after. by rewrite app_nil_r. Qed.

Lemma Enroll_run issuer w : Enroll issuer w = (Ok tt, after w [issuer] []).
Proof. unfold Enroll, after. by rewrite app_nil_r. Qed.

Lemma pollQuit_quiet w : signals w = [] -> pollQuit w = (Ok false, w).
Proof. intros H. unfold pollQuit. by rewrite H. Qed.

Lemma decodeSerials_app revoked serials :
  decodeSerials revoked serials =
  serials ++ map (fun ent => NewSerialFromBytes (SerialNumber_Bytes ent)) revoked.
Proof.
  unfold decodeSerials. revert serials.
  induction revoked as [|ent revoked IH]; intros serials; simpl.
  - by rewrite app_nil_r.
  - rewrite IH. by rewrite <- app_assoc.
Qed.

Lemma processCRL_run ext aPath cert w :
  processCRL ext aPath cert w =
  (Ok (crlResult ext (files w) aPath cert),
   after w [] (crlLog ext (files w) (clock w) aPath cert)).
Proof.
  unfold processCRL, crlResult, crlLog, expiryLog, logV1, bind, ReadFile, timeNow, ret.
  destruct (1 <=? verbosity ext); rewrite ?logf_run; simpl;
    destruct (files w !! aPath) as [f|]; simpl; rewrite ?app_nil_r, ?after_nil; try done;
    destruct (ParseCRL ext (fileData f)) as [err|crl]; simpl; rewrite ?app_nil_r, ?after_nil; try done;
    destruct (CheckCRLSignature ext cert crl) as [err|]; simpl; rewrite ?app_nil_r, ?after_nil; try done;
    destruct (HasExpired ext crl (clock w)); rewrite ?logf_run, ?after_after; simpl;
    destruct (DecodeRawTBSCertList ext (TBSCertList_Raw crl)) as [err|revoked];
    rewrite ?decodeSerials_app, ?app_nil_r, ?after_nil; simpl; done.
Qed.

(** *** The loop of aggregateCRLWorker *)

Lemma aggregatePath_run ext cert issuer st crlPath w :
  signals w = [] ->
  let r := crlResult ext (files w) crlPath cert in
  aggregatePath ext cert issuer st crlPath w =
  (Ok (aggStep (growslice ext) st r),
   after w (enrollCall issuer st (aggStep (growslice ext) st r))
           (pathLog ext (files w) (clock w) cert crlPath)).
Proof.
  intros Hq r.
  unfold aggregatePath, bind. rewrite (pollQuit_quiet _ Hq), processCRL_run.
  fold r. unfold aggStep, contributes, pathLog, enrollCall, regrow. fold r.
  destruct (snd r) as [err|] eqn:Eerr.
  - rewrite logf_run, after_after. unfold ret. rewrite andb_negb_r. done.
  - destruct (len (fst r) =? 0) eqn:Elen; simpl.
    + unfold ret. rewrite andb_negb_r, app_nil_r. done.
    + destruct (issuerEnrolled st); simpl; unfold ret;
        rewrite ?Enroll_run, ?after_after, ?app_nil_r; done.
Qed.

Lemma aggStep_enrolled grow st r :
  issuerEnrolled (aggStep grow st r) = issuerEnrolled st || contributes r.
Proof.
  unfold aggStep. destruct (contributes r); simpl.
  - by rewrite orb_true_r.
  - by rewrite orb_false_r.
Qed.

Lemma aggFold_enrolled ext disk cert st paths :
  issuerEnrolled (aggFold ext disk cert st paths) =
  issuerEnrolled st || existsb (fun p => contributes (crlResult ext disk p cert)) paths.
Proof.
  unfold aggFold. revert st.
  induction paths as [|p paths IH]; intros st; simpl.
  - by rewrite orb_false_r.
  - rewrite IH, aggStep_enrolled. by rewrite orb_assoc.
Qed.

Lemma enrollCall_trans issuer st1 st2 st3 :
  (issuerEnrolled st1 = true -> issuerEnrolled st2 = true) ->
  (issuerEnrolled st2 = true -> issuerEnrolled st3 = true) ->
  enrollCall issuer st1 st2 ++ enrollCall issuer st2 st3 = enrollCall issuer st1 st3.
Proof.
  unfold enrollCall.
  destruct (issuerEnrolled st1), (issuerEnrolled st2), (issuerEnrolled st3);
    simpl; intros H12 H23; try done.
  - by specialize (H12 eq_refl).
  - by specialize (H23 eq_refl).
Qed.

Lemma aggregateLoop_run ext cert issuer paths : forall st w,
  signals w = [] ->
  forEach (aggregatePath ext cert issuer) st paths w =
  (Ok (aggFold ext (files w) cert st paths),
   after w (enrollCall issuer st (aggFold ext (files w) cert st paths))
           (flat_map (pathLog ext (files w) (clock w) cert) paths)).
Proof.
  induction paths as [|p paths IH]; intros st w Hq.
  - simpl. unfold ret, aggFold, enrollCall. simpl.
    rewrite andb_negb_r. by rewrite after_nil.
  - cbn [forEach]. unfold bind. rewrite aggregatePath_run by done. cbv zeta.
    rewrite IH by done. cbn [files clock after].
    rewrite after_after.
    change (aggFold ext (files w) cert st (p :: paths))
      with (aggFold ext (files w) cert
              (aggStep (growslice ext) st (crlResult ext (files w) p cert)) paths).
    rewrite enrollCall_trans; [done| |].
    + rewrite aggStep_enrolled. intros ->. done.
    + rewrite aggFold_enrolled. intros ->. done.
Qed.

Lemma aggStep_error grow st r err : snd r = Some err -> aggStep grow st r = st.
Proof. intros H. unfold aggStep, contributes. by rewrite H. Qed.

Lemma aggFold_app ext disk cert st l1 l2 :
  aggFold ext disk cert st (l1 ++ l2) = aggFold ext disk cert (aggFold ext disk cert st l1) l2.
Proof. unfold aggFold. by rewrite map_app, fold_left_app. Qed.

(** [aggregateIssuer] when the certificate of the issuer is known and no
    signal arrives. *)
Lemma aggregateIssuer_run ext tuple cert w :
  signals w = [] ->
  GetCertificateForIssuer ext (paths_Issuer tuple) = inr cert ->
  let issuer := paths_Issuer tuple in
  let st := aggFold ext (files w) cert aggInit (CrlPaths tuple) in
  let lines := flat_map (pathLog ext (files w) (clock w) cert) (CrlPaths tuple) in
  aggregateIssuer ext tuple w =
  if issuerEnrolled st then
    match StoreKnownCertificateList ext issuer (elems (serials st)) with
    | Some err =>
        (Fatal, after w [issuer] (lines ++ [(INFO, MsgSaving issuer (serialCount st));
                                            (FATAL, MsgSaveFailed issuer err)]))
    | None =>
        (Ok tt, stored (after w [issuer] (lines ++ [(INFO, MsgSaving issuer (serialCount st))]))
                       issuer (elems (serials st)))
    end
  else (Ok tt, after w [] (lines ++ [(INFO, MsgNotEnrolled issuer)])).
Proof.
  intros Hq Hcert issuer st lines.
  unfold aggregateIssuer. rewrite Hcert. unfold bind.
  rewrite aggregateLoop_run by done. fold issuer st lines.
  unfold enrollCall. change (issuerEnrolled aggInit) with false.
  rewrite andb_true_r.
  destruct (issuerEnrolled st) eqn:Een.
  - rewrite logf_run, after_after. unfold Store. simpl.
    destruct (StoreKnownCertificateList ext issuer (elems (serials st))) as [err|] eqn:Est.
    + unfold fatalf. rewrite logf_run, after_after. simpl.
      by rewrite <- app_assoc.
    + done.
  - rewrite logf_run, after_after. done.
Qed.

End RunLemmas.

(* ===================================================================== *)
(** ** processCRL and the aggregation stage *)
(* ===================================================================== *)

Section AggregationProperties.
Import Types Filename Engine Run.

Lemma existsb_pointwise {A} (f g : A -> bool) (l : list A) :
  (forall x, f x = g x) -> existsb f l = existsb g l.
Proof. intros H. induction l as [|x l IH]; simpl; [done|]. by rewrite H, IH. Qed.

Lemma yieldsSerials_contributes ext cert w crlPath :
  yieldsSerials ext cert w crlPath = contributes (crlResult ext (files w) crlPath cert).
Proof.
  unfold yieldsSerials, contributes. rewrite processCRL_run. simpl.
  by destruct (crlResult ext (files w) crlPath cert) as [l [e|]].
Qed.

(** C10: when [processCRL] returns an error, the slice it returns with it
    is empty. *)
Theorem processCRL_error_returns_no_serials ext aPath cert w revokedSerials err :
  fst (processCRL ext aPath cert w) = Ok (revokedSerials, Some err) ->
  revokedSerials = [].
Proof.
  rewrite processCRL_run. cbn [fst]. unfold crlResult.
  destruct (files w !! aPath) as [f|]; [|congruence].
  destruct (ParseCRL ext (fileData f)) as [e|crl]; [congruence|].
  destruct (CheckCRLSignature ext cert crl) as [e|]; [congruence|].
  destruct (DecodeRawTBSCertList ext (TBSCertList_Raw crl)) as [e|revoked]; congruence.
Qed.

Lemma processCRL_error_returns_no_serials_witness :
  fst (processCRL Demo.ext "forged.crl" [1] Demo.aggDisk)
  = Ok ([], Some (SignatureError "crypto/rsa: verification error"))
  /\ ([] : list Serial) = [].
Proof.
  split; [vm_compute; reflexivity|].
  apply (processCRL_error_returns_no_serials Demo.ext "forged.crl" [1] Demo.aggDisk []
           (SignatureError "crypto/rsa: verification error")).
  vm_compute; reflexivity.
Defined.

(** C1: a CRL whose signature does not verify against the issuer's
    certificate makes [processCRL] return the signature error; the loop of
    [aggregateCRLWorker] leaves its variables, the enrollment and the store
    as they are for that path; what the worker returns, enrolls and stores
    for the issuer is what it does with the path taken off the list; and
    the loop skips in the same way every path for which [processCRL]
    returns an error. *)
Theorem unverified_crl_is_never_aggregated ext issuer cert aPath w f crl err :
  files w !! aPath = Some f ->
  ParseCRL ext (fileData f) = inr crl ->
  CheckCRLSignature ext cert crl = Some err ->
  GetCertificateForIssuer ext issuer = inr cert ->
  signals w = [] ->
  fst (processCRL ext aPath cert w) = Ok ([], Some (SignatureError err))
  /\ (forall st,
        fst (aggregatePath ext cert issuer st aPath w) = Ok st
        /\ enrolled (snd (aggregatePath ext cert issuer st aPath w)) = enrolled w
        /\ saved (snd (aggregatePath ext cert issuer st aPath w)) = saved w)
  /\ (forall before later,
        let listed := aggregateIssuer ext (mkIssuerCrlPaths issuer (before ++ aPath :: later)) w in
        let unlisted := aggregateIssuer ext (mkIssuerCrlPaths issuer (before ++ later)) w in
        fst listed = fst unlisted
        /\ enrolled (snd listed) = enrolled (snd unlisted)
        /\ saved (snd listed) = saved (snd unlisted))
  /\ (forall crlPath st revokedSerials failure,
        fst (processCRL ext crlPath cert w) = Ok (revokedSerials, Some failure) ->
        fst (aggregatePath ext cert issuer st crlPath w) = Ok st
        /\ enrolled (snd (aggregatePath ext cert issuer st crlPath w)) = enrolled w
        /\ saved (snd (aggregatePath ext cert issuer st crlPath w)) = saved w).
Proof.
  intros Hf Hparse Hsig Hcert Hq.
  assert (Hres : crlResult ext (files w) aPath cert = ([], Some (SignatureError err))).
  { unfold crlResult. by rewrite Hf, Hparse, Hsig. }
  assert (Hskip : forall crlPath st failure,
            snd (crlResult ext (files w) crlPath cert) = Some failure ->
            fst (aggregatePath ext cert issuer st crlPath w) = Ok st
            /\ enrolled (snd (aggregatePath ext cert issuer st crlPath w)) = enrolled w
            /\ saved (snd (aggregatePath ext cert issuer st crlPath w)) = saved w).
  { intros crlPath st failure Hfail.
    rewrite aggregatePath_run by done. cbv zeta. cbn [fst snd].
    rewrite (aggStep_error _ _ _ failure) by done.
    unfold enrollCall. rewrite andb_negb_r. cbn [after enrolled saved].
    by rewrite app_nil_r. }
  split; [|split; [|split]].
  - rewrite processCRL_run. cbn [fst]. by rewrite Hres.
  - intros st. apply (Hskip aPath st (SignatureError err)). by rewrite Hres.
  - intros before later listed unlisted. subst listed unlisted.
    rewrite !(aggregateIssuer_run ext _ cert) by done. cbv zeta. cbn [paths_Issuer CrlPaths].
    assert (Hfold : aggFold ext (files w) cert aggInit (before ++ aPath :: later)
                    = aggFold ext (files w) cert aggInit (before ++ later)).
    { rewrite !aggFold_app.
      generalize (aggFold ext (files w) cert aggInit before). intros st0.
      unfold aggFold. cbn [map fold_left].
      rewrite (aggStep_error _ _ _ (SignatureError err)) by (by rewrite Hres). done. }
    rewrite Hfold.
    destruct (issuerEnrolled (aggFold ext (files w) cert aggInit (before ++ later))).
    + destruct (StoreKnownCertificateList ext issuer
                  (elems (serials (aggFold ext (files w) cert aggInit (before ++ later)))));
        done.
    + done.
  - intros crlPath st revokedSerials failure Hrun.
    rewrite processCRL_run in Hrun. cbn [fst] in Hrun.
    apply (Hskip crlPath st failure). injection Hrun as Hrun. by rewrite Hrun.
Qed.

Lemma unverified_crl_is_never_aggregated_witness :
  fst (processCRL Demo.ext "forged.crl" [1] Demo.aggDisk)
  = Ok ([], Some (SignatureError "crypto/rsa: verification error"))
  /\ saved (snd (aggregateIssuer Demo.ext
                   (mkIssuerCrlPaths "X" (["three.crl"] ++ "forged.crl" :: ["one.crl"]))
                   Demo.aggDisk))
     = saved (snd (aggregateIssuer Demo.ext
                     (mkIssuerCrlPaths "X" (["three.crl"] ++ ["one.crl"])) Demo.aggDisk)).
Proof.
  destruct (unverified_crl_is_never_aggregated Demo.ext "X" [1] "forged.crl" Demo.aggDisk
              (mkFile [48; 2; 2000000; 66] Demo.today)
              (mkCertificateList [66] (2000000 * Hour) [2])
              "crypto/rsa: verification error")
    as (Hreturn & _ & Hlist & _); try (vm_compute; reflexivity).
  split; [exact Hreturn|].
  exact (proj2 (proj2 (Hlist ["three.crl"%string] ["one.crl"%string]))).
Defined.

(** Whatever the signals, a step of the loop returns on the signal and
    leaves the enrollment alone, or does what it does without a signal. *)
Lemma aggregatePath_any_signal ext cert issuer st crlPath w :
  (fst (aggregatePath ext cert issuer st crlPath w) = Quit
   /\ enrolled (snd (aggregatePath ext cert issuer st crlPath w)) = enrolled w)
  \/ (exists st',
        fst (aggregatePath ext cert issuer st crlPath w) = Ok st'
        /\ (issuerEnrolled st = true -> issuerEnrolled st' = true)
        /\ enrolled (snd (aggregatePath ext cert issuer st crlPath w))
           = enrolled w ++ enrollCall issuer st st').
Proof.
  unfold aggregatePath, bind, pollQuit.
  destruct (signals w) as [|[|] rest]; [right|by left|right].
  all: rewrite processCRL_run; cbn [files clock].
  all: exists (aggStep (growslice ext) st (crlResult ext (files w) crlPath cert)).
  all: unfold aggStep, contributes, enrollCall, regrow.
  all: destruct (crlResult ext (files w) crlPath cert) as [l [e|]]; cbn [fst snd].
  all: try (rewrite logf_run; cbn; rewrite andb_negb_r, ?app_nil_r; by repeat split).
  all: destruct (len l =? 0); cbn;
    [rewrite andb_negb_r, ?app_nil_r; by repeat split|].
  all: destruct (issuerEnrolled st); cbn; rewrite ?app_nil_r; by repeat split.
Qed.

(** Whatever the signals, the loop over the paths of an issuer calls
    [Enroll] at most once, and not at all when the flag is set. *)
Lemma aggregateLoop_enrolls_at_most_once ext cert issuer paths : forall st w,
  exists calls,
    enrolled (snd (forEach (aggregatePath ext cert issuer) st paths w)) = enrolled w ++ calls
    /\ (calls = [] \/ (calls = [issuer] /\ issuerEnrolled st = false)).
Proof.
  induction paths as [|p paths IH]; intros st w.
  - exists []. cbn. rewrite app_nil_r. by split; [|left].
  - cbn [forEach]. unfold bind.
    destruct (aggregatePath_any_signal ext cert issuer st p w)
      as [[Hq He] | (st' & Hok & Hmono & He)].
    + destruct (aggregatePath ext cert issuer st p w) as [r w']. cbn [fst snd] in *.
      subst r. exists []. cbn. rewrite app_nil_r. by split; [|left].
    + destruct (aggregatePath ext cert issuer st p w) as [r w']. cbn [fst snd] in *.
      subst r. destruct (IH st' w') as (calls & Hcalls & Hcase).
      exists (enrollCall issuer st st' ++ calls).
      rewrite Hcalls, He, <- app_assoc. split; [done|].
      unfold enrollCall in *.
      destruct (issuerEnrolled st) eqn:Est, (issuerEnrolled st') eqn:Est'; cbn.
      * destruct Hcase as [->|[_ [=]]]. by left.
      * by specialize (Hmono eq_refl).
      * destruct Hcase as [->|[_ [=]]]. by right.
      * destruct Hcase as [->|[-> _]]; [by left|by right].
Qed.

(** C4: when all the paths of an issuer are processed, the accumulated
    list is stored under the issuer if the issuer was enrolled on the way,
    and the store is left as it was if not; a store that fails ends the
    process. *)
Theorem persisted_iff_enrolled ext tuple cert w :
  signals w = [] ->
  GetCertificateForIssuer ext (paths_Issuer tuple) = inr cert ->
  let issuer := paths_Issuer tuple in
  exists st w1,
    forEach (aggregatePath ext cert issuer) aggInit (CrlPaths tuple) w = (Ok st, w1)
    /\ enrolled (snd (aggregateIssuer ext tuple w))
       = enrolled w ++ (if issuerEnrolled st then [issuer] else [])
    /\ (issuerEnrolled st = true ->
        match StoreKnownCertificateList ext issuer (elems (serials st)) with
        | None =>
            fst (aggregateIssuer ext tuple w) = Ok tt
            /\ saved (snd (aggregateIssuer ext tuple w))
               = <[issuer := elems (serials st)]> (saved w)
        | Some _ =>
            fst (aggregateIssuer ext tuple w) = Fatal
            /\ saved (snd (aggregateIssuer ext tuple w)) = saved w
        end)
    /\ (issuerEnrolled st = false ->
        fst (aggregateIssuer ext tuple w) = Ok tt
        /\ saved (snd (aggregateIssuer ext tuple w)) = saved w
        /\ In (INFO, MsgNotEnrolled issuer) (log (snd (aggregateIssuer ext tuple w)))).
Proof.
  intros Hq Hcert issuer.
  eexists _, _. split; [apply aggregateLoop_run; done|].
  rewrite (aggregateIssuer_run ext tuple cert) by done. cbv zeta. fold issuer.
  destruct (issuerEnrolled (aggFold ext (files w) cert aggInit (CrlPaths tuple))) eqn:Een.
  - destruct (StoreKnownCertificateList ext issuer
                (elems (serials (aggFold ext (files w) cert aggInit (CrlPaths tuple)))));
      (split; [done|split; [done|intros [=]]]).
  - split; [cbn; by rewrite app_nil_r|]. split; [intros [=]|].
    intros _. split; [done|]. split; [done|].
    cbn [snd after log]. apply in_or_app. right. apply in_or_app. right. by left.
Qed.

Lemma persisted_iff_enrolled_witness :
  saved (snd (aggregateIssuer Demo.ext (mkIssuerCrlPaths "X" ["three.crl"; "one.crl"])
                Demo.aggDisk))
  = {[ "X"%string := [[5]; [6]; [7]; [9]] ]}
  /\ saved (snd (aggregateIssuer Demo.ext (mkIssuerCrlPaths "Y" ["three.crl"; "none.crl"])
                   Demo.aggDisk))
     = ∅.
Proof.
  split.
  - destruct (persisted_iff_enrolled Demo.ext (mkIssuerCrlPaths "X" ["three.crl"; "one.crl"])
                [1] Demo.aggDisk eq_refl eq_refl) as (st & w1 & Hloop & _ & Hyes & _).
    vm_compute in Hloop. injection Hloop as <- _.
    destruct (Hyes eq_refl) as [_ Hsaved]. rewrite Hsaved. reflexivity.
  - destruct (persisted_iff_enrolled Demo.ext (mkIssuerCrlPaths "Y" ["three.crl"; "none.crl"])
                [2] Demo.aggDisk eq_refl eq_refl) as (st & w1 & Hloop & _ & _ & Hno).
    vm_compute in Hloop. injection Hloop as <- _.
    destruct (Hno eq_refl) as (_ & Hsaved & _). rewrite Hsaved. reflexivity.
Defined.

(** C9 as the specification words it fails: the CRL of [stale.crl] parses,
    its signature verifies against the certificate of X and its next update
    is past, and the decoder rejects its revoked list. [processCRL] returns
    the decode error with no serial, and the loop of [aggregateCRLWorker]
    leaves its variables as they are: the CRL contributes nothing. *)
Lemma verified_crl_may_not_decode :
  let w := Behaviour.staleDisk in
  exists f crl err,
    files w !! "stale.crl"%string = Some f
    /\ ParseCRL Demo.ext (fileData f) = inr crl
    /\ CheckCRLSignature Demo.ext [1] crl = None
    /\ HasExpired Demo.ext crl (clock w) = true
    /\ fst (processCRL Demo.ext "stale.crl" [1] w) = Ok ([], Some (DecodeError err))
    /\ forall st, fst (aggregatePath Demo.ext [1] "X" st "stale.crl" w) = Ok st.
Proof.
  intros w.
  exists (mkFile [48; 1; 10; 255] Demo.today), (mkCertificateList [255] (10 * Hour) [1]),
         "asn1: syntax error"%string.
  split; [reflexivity|]. split; [reflexivity|]. split; [reflexivity|].
  split; [vm_compute; reflexivity|]. split; [vm_compute; reflexivity|].
  intros st. rewrite aggregatePath_run by reflexivity. cbv zeta. cbn [fst].
  rewrite (aggStep_error _ _ _ (DecodeError "asn1: syntax error"));
    [reflexivity|vm_compute; reflexivity].
Qed.

(** C9, amended: a CRL that parses, verifies and whose revoked list decodes
    is returned with its serials and no error whatever the clock says; a
    next update in the past adds a warning to the log and nothing else; and
    the loop of [aggregateCRLWorker] appends the serials to the
    accumulator. *)
Theorem expired_crl_still_contributes ext cert issuer aPath w f crl revokedList :
  files w !! aPath = Some f ->
  ParseCRL ext (fileData f) = inr crl ->
  CheckCRLSignature ext cert crl = None ->
  DecodeRawTBSCertList ext (TBSCertList_Raw crl) = inr revokedList ->
  signals w = [] ->
  let decoded := map (fun ent => NewSerialFromBytes (SerialNumber_Bytes ent)) revokedList in
  fst (processCRL ext aPath cert w) = Ok (decoded, None)
  /\ snd (processCRL ext aPath cert w)
     = after w [] ((if 1 <=? verbosity ext then [(INFO, MsgProcessing aPath)] else [])
                   ++ (if HasExpired ext crl (clock w)
                       then [(WARNING, MsgExpired aPath)] else []))
  /\ (decoded <> [] ->
      forall st, exists st',
        fst (aggregatePath ext cert issuer st aPath w) = Ok st'
        /\ issuerEnrolled st' = true
        /\ serialCount st' = serialCount st + len decoded
        /\ exists earlier, elems (serials st') = earlier ++ decoded).
Proof.
  intros Hf Hparse Hsig Hdec Hq decoded.
  assert (Hres : crlResult ext (files w) aPath cert = (decoded, None)).
  { unfold crlResult. by rewrite Hf, Hparse, Hsig, Hdec. }
  split; [|split].
  - rewrite processCRL_run. cbn [fst]. by rewrite Hres.
  - rewrite processCRL_run. cbn [snd]. unfold crlLog, expiryLog.
    by rewrite Hf, Hparse, Hsig.
  - intros Hne st. eexists. rewrite aggregatePath_run by done. cbv zeta. cbn [fst].
    split; [reflexivity|]. rewrite Hres. unfold aggStep, contributes. cbn [fst snd].
    assert (Hlen : (len decoded =? 0) = false).
    { apply Z.eqb_neq. unfold len. destruct decoded; [done|]. cbn [length]. lia. }
    rewrite Hlen. cbn [negb issuerEnrolled serialCount serials append elems].
    split; [done|]. split; [done|]. eexists. reflexivity.
Qed.

Lemma expired_crl_still_contributes_witness :
  Demo.hasExpired (mkCertificateList [11; 12] (10 * Hour) [1]) (clock Demo.aggDisk) = true
  /\ fst (processCRL Demo.ext "expired.crl" [1] Demo.aggDisk) = Ok ([[11]; [12]], None)
  /\ log (snd (processCRL Demo.ext "expired.crl" [1] Demo.aggDisk))
     = [(WARNING, MsgExpired "expired.crl")].
Proof.
  destruct (expired_crl_still_contributes Demo.ext [1] "X" "expired.crl" Demo.aggDisk
              (mkFile [48; 1; 10; 11; 12] Demo.today)
              (mkCertificateList [11; 12] (10 * Hour) [1])
              [mkRevoked [11]; mkRevoked [12]])
    as (Hreturn & Hworld & _); try (vm_compute; reflexivity).
  split; [vm_compute; reflexivity|]. split; [exact Hreturn|].
  rewrite Hworld. vm_compute. reflexivity.
Defined.

(** *** The accumulator *)

Lemma len_app {A} (l1 l2 : list A) : len (l1 ++ l2) = len l1 + len l2.
Proof. unfold len. rewrite length_app. lia. Qed.

Lemma len_nonneg {A} (l : list A) : 0 <= len l.
Proof. unfold len. lia. Qed.

(** As long as the serials fit the capacity of the accumulator, nothing is
    reallocated and the accumulator holds the serials of every valid CRL. *)
Lemma aggFold_within_capacity ext disk cert paths : forall st,
  serialCount st = len (elems (serials st)) ->
  serialCount st + len (validSerials ext disk cert paths) <= capacity (serials st) ->
  let st' := aggFold ext disk cert st paths in
  elems (serials st') = elems (serials st) ++ validSerials ext disk cert paths
  /\ capacity (serials st') = capacity (serials st)
  /\ serialCount st' = len (elems (serials st')).
Proof.
  induction paths as [|p paths IH]; intros st Hcount Hfit.
  - cbn. by rewrite app_nil_r.
  - unfold validSerials in Hfit. cbn [map concat] in Hfit.
    fold (validSerials ext disk cert paths) in Hfit.
    rewrite len_app in Hfit.
    change (aggFold ext disk cert st (p :: paths))
      with (aggFold ext disk cert (aggStep (growslice ext) st (crlResult ext disk p cert)) paths).
    unfold validSerials. cbn [map concat]. fold (validSerials ext disk cert paths).
    pose proof (len_nonneg (validSerials ext disk cert paths)) as Hpos.
    unfold aggStep in *.
    destruct (contributes (crlResult ext disk p cert)).
    + set (r := fst (crlResult ext disk p cert)) in *.
      assert (Hkeep : regrow st (len r) = serials st).
      { unfold regrow. destruct (capacity (serials st) <? len r + serialCount st) eqn:E; [|done].
        apply Z.ltb_lt in E. lia. }
      rewrite Hkeep.
      assert (Hcap : capacity (append (growslice ext) (serials st) r) = capacity (serials st)).
      { unfold append. cbn [capacity].
        destruct (len (elems (serials st)) + len r <=? capacity (serials st)) eqn:E; [done|].
        apply Z.leb_gt in E. lia. }
      destruct (IH (mkAggState true (append (growslice ext) (serials st) r)
                      (serialCount st + len r))) as (He & Hc & Hn).
      * cbn [serialCount serials append elems]. rewrite len_app. lia.
      * cbn [serialCount serials]. rewrite Hcap. lia.
      * cbn [serials] in He, Hc.
        split; [rewrite He; cbn [append elems]; by rewrite <- app_assoc|].
        split; [by rewrite Hc, Hcap|exact Hn].
    + apply IH; [done|]. cbn [app] in Hfit. done.
Qed.

(** The part of C2 that holds: an issuer whose valid CRLs hold no more than
    [128*1024] serials has all of them stored, file after file. *)
Lemma aggregate_stores_concatenation ext tuple cert w :
  signals w = [] ->
  GetCertificateForIssuer ext (paths_Issuer tuple) = inr cert ->
  StoreKnownCertificateList ext (paths_Issuer tuple)
    (validSerials ext (files w) cert (CrlPaths tuple)) = None ->
  validSerials ext (files w) cert (CrlPaths tuple) <> [] ->
  len (validSerials ext (files w) cert (CrlPaths tuple)) <= 128 * 1024 ->
  saved (snd (aggregateIssuer ext tuple w))
  = <[paths_Issuer tuple := validSerials ext (files w) cert (CrlPaths tuple)]> (saved w).
Proof.
  intros Hq Hcert Hstore Hne Hfit.
  rewrite (aggregateIssuer_run ext tuple cert) by done. cbv zeta.
  destruct (aggFold_within_capacity ext (files w) cert (CrlPaths tuple) aggInit)
    as (He & _ & _); [done| cbn; lia |].
  change (elems (serials aggInit)) with (@nil Serial) in He. cbn [app] in He.
  rewrite He, Hstore.
  rewrite aggFold_enrolled. cbn [aggInit issuerEnrolled orb].
  destruct (existsb _ _) eqn:Eex; [done|].
  exfalso. apply Hne. unfold validSerials.
  clear -Eex. induction (CrlPaths tuple) as [|p l IH]; [done|].
  cbn in Eex. apply orb_false_iff in Eex as [Ep El].
  cbn [map concat]. rewrite Ep. cbn [app]. by apply IH.
Qed.

(** The scenario of the specification's 8: a file with 3 serials and one
    with 1 serial, and 4 serials are stored. *)
Example three_and_one_make_four :
  length <$> saved (snd (aggregateIssuer Demo.ext
                           (mkIssuerCrlPaths "X" ["three.crl"; "one.crl"]) Demo.aggDisk))
             !! "X"%string
  = Some 4%nat.
Proof.
  rewrite (aggregate_stores_concatenation Demo.ext _ [1]) by (vm_compute; congruence).
  vm_compute. reflexivity.
Qed.

(** C2, where the code departs from it: the accumulator has room for
    [128*1024] serials; a first CRL fills it, a second one brings one serial
    more, and the reallocation of lines 266 to 270 copies nothing ([copy]
    into a slice of length 0). The worker logs 131073 serials and stores
    the last one alone. *)
Theorem regrow_forgets_earlier_serials :
  let tuple := mkIssuerCrlPaths "X" ["big.crl"; "small.crl"] in
  let w' := snd (aggregateIssuer Demo.ext tuple Demo.bigDisk) in
  len (validSerials Demo.ext (files Demo.bigDisk) [1] (CrlPaths tuple)) = 128 * 1024 + 1
  /\ log w' = [(INFO, MsgSaving "X" (128 * 1024 + 1))]
  /\ saved w' !! "X"%string = Some [[9]].
Proof.
  cbv zeta.
  rewrite (aggregateIssuer_run Demo.ext _ [1]) by reflexivity.
  vm_compute. repeat split.
Qed.

End AggregationProperties.

(* ===================================================================== *)
(** ** The retrieval stage: which final paths are kept *)
(* ===================================================================== *)

Section RetrievalProperties.
Import Types Filename Engine Run.

(** The saturation of [Sub] does not show in the comparison with the
    tolerance. *)
Lemma Sub_exceeds (now localDate : Z) :
  (Sub now localDate >? allowableAgeOfLocalCRL) = (now - localDate >? allowableAgeOfLocalCRL).
Proof.
  assert (Hmax : maxDuration = 9223372036854775807) by reflexivity.
  assert (Hmin : minDuration = -9223372036854775808) by reflexivity.
  assert (Hage : allowableAgeOfLocalCRL = 1209600000000000) by reflexivity.
  unfold Sub.
  destruct (now - localDate >? maxDuration) eqn:E1;
    [|destruct (now - localDate <? minDuration) eqn:E2]; [| |done].
  - apply Z.gtb_lt in E1. rewrite Hmax, Hage in *.
    transitivity true; [done|]. symmetry. apply Z.gtb_lt. lia.
  - apply Z.ltb_lt in E2. rewrite Hmin, Hage in *.
    transitivity false; [done|]. symmetry. rewrite Z.gtb_ltb. apply Z.ltb_ge. lia.
Qed.

Lemma acceptFinalPath_run ext issuer crlUrl paths w :
  acceptFinalPath ext issuer crlUrl paths w =
  match files w !! finalPathOf ext issuer crlUrl with
  | None =>
      (Ok paths, after w [] [(ERROR, MsgNoLocalFile (String_ crlUrl)
                                       "no such file or directory"%string)])
  | Some f =>
      if clock w - modTime f >? allowableAgeOfLocalCRL
      then (Ok paths, after w [] [(ERROR, MsgOutOfDate (String_ crlUrl)
                                            (Sub (clock w) (modTime f)))])
      else (Ok (paths ++ [finalPathOf ext issuer crlUrl]), w)
  end.
Proof.
  unfold acceptFinalPath, bind, GetSizeAndDateOfFile, timeNow.
  destruct (files w !! finalPathOf ext issuer crlUrl) as [f|].
  - rewrite Sub_exceeds.
    destruct (clock w - modTime f >? allowableAgeOfLocalCRL); [|done].
    by rewrite logf_run.
  - by rewrite logf_run.
Qed.

Lemma app_one_neq {A} (l : list A) (x : A) : l ++ [x] <> l.
Proof.
  intros H. apply (f_equal length) in H. rewrite length_app in H. simpl in H. lia.
Qed.

(** C5: once the download, the validation and the move are done, the final
    path is added to the issuer's paths exactly when a file is there whose
    age, the time since it was last modified, is at most 336 hours; in
    particular a file of exactly 336 hours is kept. *)
Theorem final_path_kept_iff_fresh ext issuer crlUrl paths w w1 :
  signals w = [] ->
  MkdirAll ext (Join ext [crlpath ext; issuer]) = None ->
  downloadAndValidate ext issuer crlUrl w = (Ok tt, w1) ->
  let finalPath := finalPathOf ext issuer crlUrl in
  exists paths',
    fst (fetchUrl ext issuer paths crlUrl w) = Ok paths'
    /\ (paths' = paths \/ paths' = paths ++ [finalPath])
    /\ (paths' = paths ++ [finalPath] <->
        exists f, files w1 !! finalPath = Some f
                  /\ clock w1 - modTime f <= 336 * Hour)
    /\ (forall f, files w1 !! finalPath = Some f ->
                  clock w1 - modTime f = 336 * Hour ->
                  paths' = paths ++ [finalPath]).
Proof.
  intros Hq Hmk Hdl finalPath.
  unfold fetchUrl, bind. rewrite (pollQuit_quiet _ Hq), Hmk, Hdl, acceptFinalPath_run.
  fold finalPath. change (336 * Hour) with allowableAgeOfLocalCRL.
  destruct (files w1 !! finalPath) as [f|] eqn:Ef.
  - destruct (clock w1 - modTime f >? allowableAgeOfLocalCRL) eqn:Eage.
    + apply Z.gtb_lt in Eage. exists paths. cbn [fst].
      split; [done|]. split; [by left|]. split.
      * split.
        -- intros H. symmetry in H. by apply app_one_neq in H.
        -- intros (f' & [= <-] & Hle). lia.
      * intros f' [= <-] Heq. lia.
    + rewrite Z.gtb_ltb in Eage. apply Z.ltb_ge in Eage. exists (paths ++ [finalPath]). cbn [fst].
      split; [done|]. split; [by right|]. split; [|done].
      split; [|done]. intros _. by exists f.
  - exists paths. cbn [fst]. split; [done|]. split; [by left|]. split.
    + split.
      * intros H. symmetry in H. by apply app_one_neq in H.
      * by intros (f' & [=] & _).
    + by intros f' [=].
Qed.

Lemma final_path_kept_iff_fresh_witness :
  fst (fetchUrl Demo.ext "X" [] Demo.crlUrlB (Demo.agedCache 0)) = Ok [Demo.cachedB].
Proof.
  destruct (final_path_kept_iff_fresh Demo.ext "X" Demo.crlUrlB [] (Demo.agedCache 0)
              (snd (downloadAndValidate Demo.ext "X" Demo.crlUrlB (Demo.agedCache 0)))
              eq_refl eq_refl)
    as (paths' & Hret & _ & _ & Hedge).
  { vm_compute. reflexivity. }
  rewrite Hret. f_equal.
  apply (Hedge (mkFile [48; 1; 2000000; 9] (Demo.today + 1000000000 - 336 * Hour - 0)));
    vm_compute; reflexivity.
Defined.

(** One nanosecond more and the cached file is left out. *)
Example final_path_too_old :
  fst (fetchUrl Demo.ext "X" [] Demo.crlUrlB (Demo.agedCache 1)) = Ok [].
Proof. vm_compute. reflexivity. Qed.

End RetrievalProperties.

(* ===================================================================== *)
(** ** The discovery stage, and who can be enrolled *)
(* ===================================================================== *)

Section DiscoveryProperties.
Import Types Filename Engine Run.

(** *** The worker, when no signal arrives *)

Lemma findCrlIssuer_run ext issuerCrls issuer w :
  signals w = [] ->
  findCrlIssuer ext issuerCrls issuer w =
  (Ok (findStep ext issuerCrls issuer), after w [] (noCrlLog ext issuer)).
Proof.
  intros Hq. unfold findCrlIssuer, bind. rewrite (pollQuit_quiet _ Hq).
  unfold noCrlLog, findStep, selfCrlsOf, addUrls, ret.
  destruct (len (CRLs ext issuer) =? 0); [|by rewrite after_nil].
  destruct (IsIssuerInProgram ext issuer); [|by rewrite after_nil].
  destruct (GetSubjectForIssuer ext issuer); by rewrite logf_run.
Qed.

Lemma findCrlWorker_run ext issuerChan : forall m w,
  signals w = [] ->
  forEach (findCrlIssuer ext) m issuerChan w =
  (Ok (fold_left (findStep ext) issuerChan m),
   after w [] (flat_map (noCrlLog ext) issuerChan)).
Proof.
  induction issuerChan as [|issuer chan IH]; intros m w Hq.
  - simpl. unfold ret. by rewrite after_nil.
  - cbn [forEach]. unfold bind. rewrite findCrlIssuer_run by done.
    rewrite IH by done. by rewrite after_after.
Qed.

(** An issuer without URLs keeps the set it has in the map, the empty one
    if it had none. *)
Lemma findStep_no_urls ext m issuer :
  CRLs ext issuer = [] -> findStep ext m issuer = <[issuer := selfCrlsOf m issuer]> m.
Proof. intros H. unfold findStep. by rewrite H. Qed.

Lemma findStep_noUrlFor ext m issuer other :
  CRLs ext issuer = [] -> noUrlFor issuer m -> noUrlFor issuer (findStep ext m other).
Proof.
  intros Hno Hm. unfold noUrlFor, findStep.
  destruct (decide (other = issuer)) as [->|Hne].
  - right. rewrite lookup_insert_eq, Hno. unfold selfCrlsOf.
    by destruct Hm as [-> | ->].
  - by rewrite lookup_insert_ne.
Qed.

Lemma findStep_listed ext m issuer other :
  m !! issuer = Some ∅ -> CRLs ext issuer = [] -> findStep ext m other !! issuer = Some ∅.
Proof.
  intros Hm Hno. unfold findStep.
  destruct (decide (other = issuer)) as [->|Hne].
  - rewrite lookup_insert_eq, Hno. unfold selfCrlsOf. by rewrite Hm.
  - by rewrite lookup_insert_ne.
Qed.

(** The worker lists every issuer it receives: one without URLs with the
    empty set. *)
Lemma findMap_lists_issuer ext issuerChan issuer :
  CRLs ext issuer = [] -> In issuer issuerChan ->
  findMap ext issuerChan !! issuer = Some ∅.
Proof.
  intros Hno. unfold findMap.
  assert (Hkeep : forall chan m, m !! issuer = Some ∅ ->
                    fold_left (findStep ext) chan m !! issuer = Some ∅).
  { induction chan as [|other chan IH]; intros m Hm; [done|].
    simpl. apply IH. by apply findStep_listed. }
  assert (Hgen : forall chan m, noUrlFor issuer m -> In issuer chan ->
                   fold_left (findStep ext) chan m !! issuer = Some ∅).
  { induction chan as [|other chan IH]; intros m Hm Hin; [done|].
    simpl. destruct Hin as [->|Hin].
    - apply Hkeep. rewrite findStep_no_urls by done.
      rewrite lookup_insert_eq. unfold selfCrlsOf. by destruct Hm as [-> | ->].
    - apply IH; [|done]. by apply findStep_noUrlFor. }
  intros Hin. apply Hgen; [by left|done].
Qed.

(** *** The stage, when no signal arrives *)

Lemma pool_run {A B} ext (worker : list A -> M B) (result : list A -> B)
    (lines : list A -> list (Severity * Message)) (chan : list A) w :
  (forall work w', signals w' = [] ->
                   worker work w' = (Ok (result work), after w' [] (lines work))) ->
  signals w = [] ->
  pool ext worker chan w =
  (Ok (map result (shares ext chan)), after w [] (flat_map lines (shares ext chan))).
Proof.
  intros Hworker Hq. unfold pool.
  assert (Hgen : forall works results w',
            signals w' = [] ->
            forEach (fun results work => let* r := worker work in ret (results ++ [r]))
                    results works w'
            = (Ok (results ++ map result works), after w' [] (flat_map lines works))).
  { induction works as [|work works IH]; intros results w' Hq'.
    - cbn. unfold ret. by rewrite app_nil_r, after_nil.
    - cbn [forEach]. unfold bind. rewrite Hworker by done. unfold ret.
      rewrite IH by done. rewrite after_after. cbn [map flat_map app].
      by rewrite <- app_assoc. }
  by rewrite Hgen.
Qed.

Lemma identifyCrlsByIssuer_run ext issuerList w :
  signals w = [] ->
  GetIssuerAndDatesFromCache ext = inr issuerList ->
  fst (identifyCrlsByIssuer ext w) =
  Ok (fold_left Merge
        (map (findMap ext) (shares ext (List.filter (IsIssuerInProgram ext) issuerList))) ∅).
Proof.
  intros Hq Hlist. unfold identifyCrlsByIssuer, bind. rewrite logf_run, Hlist.
  rewrite (pool_run ext (findCrlWorker ext) (findMap ext) (flat_map (noCrlLog ext))).
  - done.
  - intros work w' Hq'. unfold findCrlWorker. by rewrite findCrlWorker_run.
  - done.
Qed.

Lemma in_combine_seq {A} (l : list A) (x : A) : forall start,
  In x l -> exists i, In (i, x) (combine (seq start (length l)) l).
Proof.
  induction l as [|y l IH]; intros start Hin; [done|].
  destruct Hin as [->|Hin].
  - exists start. by left.
  - destruct (IH (S start) Hin) as [i Hi]. exists i. by right.
Qed.

(** With a worker in the pool, every value of the channel is received. *)
Lemma share_receives {A} ext (chan : list A) (x : A) :
  (0 < NumThreads ext)%nat -> In x chan ->
  exists work, In work (shares ext chan) /\ In x work.
Proof.
  intros Hn Hin. destruct (in_combine_seq chan x 0%nat Hin) as [i Hi].
  exists (share ext (Nat.modulo (receiver ext i) (NumThreads ext)) chan). split.
  - unfold shares. apply in_map_iff.
    exists (Nat.modulo (receiver ext i) (NumThreads ext)). split; [done|].
    apply in_seq. split; [lia|]. cbn. apply Nat.mod_upper_bound. lia.
  - unfold share. apply in_map_iff. exists (i, x). split; [done|].
    apply filter_In. split; [done|]. cbn. apply Nat.eqb_refl.
Qed.

Lemma Merge_noUrlFor issuer (self other : IssuerCrlMap) :
  noUrlFor issuer self -> noUrlFor issuer other -> noUrlFor issuer (Merge self other).
Proof.
  unfold noUrlFor. intros Hself Hother. rewrite Merge_lookup.
  destruct Hother as [-> | ->]; [done|].
  right. f_equal. unfold selfCrlsOf.
  destruct Hself as [-> | ->]; apply map_eq; intros crl;
    by rewrite mergeCrls_lookup, lookup_empty.
Qed.

Lemma Merge_lists_issuer issuer (results : list IssuerCrlMap) : forall m : IssuerCrlMap,
  Forall (noUrlFor issuer) results ->
  noUrlFor issuer m ->
  (m !! issuer = Some ∅ \/ exists r, In r results /\ r !! issuer = Some ∅) ->
  fold_left Merge results m !! issuer = Some ∅.
Proof.
  induction results as [|r results IH]; intros m Hall Hm Hsome.
  - cbn. destruct Hsome as [H|(r & [] & _)]. done.
  - inversion Hall as [|? ? Hr Hrest]; subst. cbn [fold_left].
    apply IH; [done|by apply Merge_noUrlFor|].
    destruct Hsome as [H|(r' & [<-|Hin] & Hr')].
    + left. destruct (Merge_noUrlFor issuer m r Hm Hr) as [Hnone|Hok]; [|done].
      rewrite Merge_lookup in Hnone. destruct (r !! issuer); congruence.
    + left. destruct (Merge_noUrlFor issuer m r Hm Hr) as [Hnone|Hok]; [|done].
      rewrite Merge_lookup, Hr' in Hnone. congruence.
    + right. by exists r'.
Qed.

Lemma findMap_noUrlFor ext issuer issuerChan :
  CRLs ext issuer = [] -> noUrlFor issuer (findMap ext issuerChan).
Proof.
  intros Hno. unfold findMap.
  assert (H : forall chan m, noUrlFor issuer m ->
                noUrlFor issuer (fold_left (findStep ext) chan m)).
  { induction chan as [|other chan IH]; intros m Hm; [done|].
    cbn. apply IH. by apply findStep_noUrlFor. }
  apply H. by left.
Qed.

(** The stage lists the issuers of the root program that the cache knows:
    one without URLs with the empty set. *)
Lemma identifyCrlsByIssuer_lists_issuer ext issuer issuerList w :
  CRLs ext issuer = [] ->
  signals w = [] ->
  GetIssuerAndDatesFromCache ext = inr issuerList ->
  In issuer issuerList ->
  IsIssuerInProgram ext issuer = true ->
  (0 < NumThreads ext)%nat ->
  exists m : IssuerCrlMap,
    fst (identifyCrlsByIssuer ext w) = Ok m /\ m !! issuer = Some ∅.
Proof.
  intros Hno Hq Hlist Hin Hprog Hn.
  rewrite (identifyCrlsByIssuer_run ext issuerList) by done.
  eexists. split; [reflexivity|].
  apply Merge_lists_issuer.
  - apply Forall_forall. intros r Hr.
    apply list_elem_of_In, in_map_iff in Hr as (work & <- & _).
    by apply findMap_noUrlFor.
  - by left.
  - right.
    destruct (share_receives ext (List.filter (IsIssuerInProgram ext) issuerList) issuer)
      as (work & Hwork & Hissuer); [done| |].
    { apply filter_In. by split. }
    exists (findMap ext work). split; [by apply in_map|].
    by apply findMap_lists_issuer.
Qed.

(** *** Rules for [keeps] *)

Lemma enrollsAtMost_ret {A} issuer (Q : A -> Prop) (a : A) : Q a -> keeps issuer Q (ret a).
Proof. intros Ha w. split; [unfold ret; cbn [snd]; lia|]. by intros a' [= <-]. Qed.

Lemma enrollsAtMost_bind {A B} issuer k1 k2 (Q1 : A -> Prop) (Q2 : B -> Prop)
    (m : M A) (f : A -> M B) :
  enrollsAtMost issuer k1 Q1 m ->
  (forall a, Q1 a -> enrollsAtMost issuer k2 Q2 (f a)) ->
  enrollsAtMost issuer (k1 + k2) Q2 (bind m f).
Proof.
  intros Hm Hf w. unfold bind.
  destruct (Hm w) as [Hw' Ha].
  destruct (m w) as [[a| |] w']; cbn [fst snd] in *.
  - destruct (Hf a (Ha a eq_refl) w') as [Hw'' Hb].
    split; [lia|done].
  - split; [lia|]. by intros b.
  - split; [lia|]. by intros b.
Qed.

Lemma enrollsAtMost_weaken {A} issuer k k' (Q Q' : A -> Prop) (m : M A) :
  enrollsAtMost issuer k Q m -> (k <= k')%nat -> (forall a, Q a -> Q' a) ->
  enrollsAtMost issuer k' Q' m.
Proof.
  intros Hm Hk HQ w. destruct (Hm w) as [Hw' Ha].
  split; [lia|]. intros a Hr. by apply HQ, Ha.
Qed.

Lemma enrollsAtMost_forEach {S A} issuer (cost : A -> nat) (Q : S -> Prop)
    (body : S -> A -> M S) (l : list A) :
  (forall s a, Q s -> In a l -> enrollsAtMost issuer (cost a) Q (body s a)) ->
  forall s, Q s -> enrollsAtMost issuer (list_sum (map cost l)) Q (forEach body s l).
Proof.
  induction l as [|a l IH]; intros Hbody s Hs.
  - by apply enrollsAtMost_ret.
  - cbn [forEach map list_sum fold_right].
    apply (enrollsAtMost_bind issuer (cost a) _ Q).
    + apply Hbody; [done|by left].
    + intros s' Hs'. apply IH; [|done].
      intros s0 a0 Hs0 Hin. apply Hbody; [done|by right].
Qed.

Lemma keeps_ret {A} issuer (Q : A -> Prop) (a : A) : Q a -> keeps issuer Q (ret a).
Proof. apply enrollsAtMost_ret. Qed.

Lemma keeps_bind {A B} issuer (Q1 : A -> Prop) (Q2 : B -> Prop) (m : M A) (f : A -> M B) :
  keeps issuer Q1 m ->
  (forall a, Q1 a -> keeps issuer Q2 (f a)) ->
  keeps issuer Q2 (bind m f).
Proof. apply (enrollsAtMost_bind issuer 0 0). Qed.

Lemma keeps_weaken {A} issuer (Q Q' : A -> Prop) (m : M A) :
  keeps issuer Q m -> (forall a, Q a -> Q' a) -> keeps issuer Q' m.
Proof. intros Hm HQ. by apply (enrollsAtMost_weaken issuer 0 0 Q). Qed.

(** A step that calls [Enroll] for nobody. *)
Lemma keeps_silent {A} issuer (m : M A) :
  (forall w, enrolled (snd (m w)) = enrolled w) -> keeps issuer (fun _ => True) m.
Proof. intros Hm w. split; [|done]. unfold enrollCount. rewrite Hm. lia. Qed.

Lemma list_sum_zero {A} (l : list A) : list_sum (map (fun _ => 0%nat) l) = 0%nat.
Proof. induction l as [|a l IH]; [reflexivity|exact IH]. Qed.

Lemma keeps_forEach {S A} issuer (Q : S -> Prop) (body : S -> A -> M S) (l : list A) :
  (forall s a, Q s -> In a l -> keeps issuer Q (body s a)) ->
  forall s, Q s -> keeps issuer Q (forEach body s l).
Proof.
  intros Hbody s Hs.
  apply (enrollsAtMost_weaken issuer (list_sum (map (fun _ => 0%nat) l)) 0 Q); [|by rewrite list_sum_zero|done].
  by apply enrollsAtMost_forEach.
Qed.

Lemma keeps_unenrolled {A} issuer (Q : A -> Prop) (m : M A) w :
  keeps issuer Q m -> ~ In issuer (enrolled w) -> ~ In issuer (enrolled (snd (m w))).
Proof.
  intros Hm Hw. destruct (Hm w) as [Hcount _]. unfold enrollCount in Hcount.
  apply (count_occ_not_In string_dec) in Hw.
  apply (count_occ_not_In string_dec). lia.
Qed.

Lemma keeps_logf issuer sev msg : keeps issuer (fun _ => True) (logf sev msg).
Proof. by apply keeps_silent. Qed.

Lemma keeps_quit {A} issuer (Q : A -> Prop) : keeps issuer Q quit.
Proof. intros w. split; [|by intros a]. unfold quit. cbn [snd]. lia. Qed.

Lemma keeps_fatalf {A} issuer (Q : A -> Prop) msg : keeps issuer Q (fatalf msg).
Proof.
  intros w. split; [|by intros a].
  unfold enrollCount, fatalf, logf. cbn [snd enrolled]. lia.
Qed.

Lemma keeps_pollQuit issuer : keeps issuer (fun _ => True) pollQuit.
Proof. apply keeps_silent. intros w. unfold pollQuit. by destruct (signals w). Qed.

Lemma keeps_Enroll issuer other :
  other <> issuer -> keeps issuer (fun _ => True) (Enroll other).
Proof.
  intros Hne w. split; [|done]. unfold enrollCount. cbn [Enroll snd enrolled].
  rewrite count_occ_app. cbn. destruct (string_dec other issuer); [done|lia].
Qed.

Lemma keeps_Store issuer ext other serials :
  keeps issuer (fun _ => True) (Store ext other serials).
Proof.
  apply keeps_silent. intros w. unfold Store.
  by destruct (StoreKnownCertificateList ext other serials).
Qed.

Lemma keeps_processCRL issuer ext aPath cert :
  keeps issuer (fun _ => True) (processCRL ext aPath cert).
Proof.
  apply keeps_silent. intros w. rewrite processCRL_run. cbn. by rewrite app_nil_r.
Qed.

(** *** The aggregation stage enrolls the issuers of its tuples only *)

Lemma keeps_aggregatePath issuer ext cert other st crlPath :
  other <> issuer ->
  keeps issuer (fun _ => True) (aggregatePath ext cert other st crlPath).
Proof.
  intros Hne. unfold aggregatePath.
  apply (keeps_bind issuer (fun _ => True)); [apply keeps_pollQuit|].
  intros [|] _; [apply keeps_quit|].
  apply (keeps_bind issuer (fun _ => True)); [apply keeps_processCRL|].
  intros r _. destruct (snd r).
  - apply (keeps_bind issuer (fun _ => True)); [apply keeps_logf|].
    intros _ _. by apply keeps_ret.
  - destruct (len (fst r) =? 0); [by apply keeps_ret|].
    apply (keeps_bind issuer (fun _ => True)).
    + destruct (negb (issuerEnrolled st)); [by apply keeps_Enroll|by apply keeps_ret].
    + intros _ _. by apply keeps_ret.
Qed.

Lemma keeps_aggregateIssuer issuer ext tuple :
  paths_Issuer tuple <> issuer ->
  keeps issuer (fun _ => True) (aggregateIssuer ext tuple).
Proof.
  intros Hne. unfold aggregateIssuer.
  destruct (GetCertificateForIssuer ext (paths_Issuer tuple)) as [err|cert];
    [apply keeps_fatalf|].
  apply (keeps_bind issuer (fun _ => True)).
  - apply keeps_forEach; [|done]. intros st p _ _. by apply keeps_aggregatePath.
  - intros st _. destruct (issuerEnrolled st); [|apply keeps_logf].
    apply (keeps_bind issuer (fun _ => True)); [apply keeps_logf|].
    intros _ _. apply (keeps_bind issuer (fun _ => True)); [apply keeps_Store|].
    intros [err|] _; [apply keeps_fatalf|by apply keeps_ret].
Qed.

Lemma keeps_aggregateCRLWorker issuer ext workChan :
  (forall tuple, In tuple workChan -> paths_Issuer tuple <> issuer) ->
  keeps issuer (fun _ => True) (aggregateCRLWorker ext workChan).
Proof.
  intros Hne. unfold aggregateCRLWorker.
  apply keeps_forEach; [|done].
  intros [] tuple _ Hin.
  apply (keeps_weaken issuer (fun _ => True)); [|done].
  apply keeps_aggregateIssuer. by apply Hne.
Qed.

(** *** Pools *)

Lemma share_In {A} ext t (chan : list A) (x : A) : In x (share ext t chan) -> In x chan.
Proof.
  unfold share. rewrite in_map_iff. intros ([i y] & <- & Hin).
  apply filter_In in Hin as [Hin _]. by apply in_combine_r in Hin.
Qed.

Lemma keeps_pool {A B} issuer ext (P : B -> Prop) (worker : list A -> M B) (chan : list A) :
  (forall work, (forall x, In x work -> In x chan) -> keeps issuer P (worker work)) ->
  keeps issuer (Forall P) (pool ext worker chan).
Proof.
  intros Hworker. unfold pool.
  apply keeps_forEach; [|by constructor].
  intros results work Hres Hin.
  apply (keeps_bind issuer P).
  - apply Hworker. unfold shares in Hin. apply in_map_iff in Hin as (t & <- & _).
    intros x. apply share_In.
  - intros r Hr. apply keeps_ret. apply Forall_app. split; [done|]. by constructor.
Qed.

(** *** The retrieval stage enrolls nobody and keeps the issuers *)

Lemma keeps_download issuer ext crlUrl tmpPath :
  keeps issuer (fun _ => True) (download ext crlUrl tmpPath).
Proof.
  apply keeps_silent. intros w. unfold download.
  by destruct (DownloadFileSync ext crlUrl tmpPath (files w) (clock w)) as [[err disk] now].
Qed.

Lemma keeps_rename issuer ext oldpath newpath :
  keeps issuer (fun _ => True) (rename ext oldpath newpath).
Proof.
  apply keeps_silent. intros w. unfold rename.
  by destruct (Rename ext oldpath newpath (files w)) as [err disk].
Qed.

Lemma keeps_downloadAndValidate issuer ext other crlUrl :
  keeps issuer (fun _ => True) (downloadAndValidate ext other crlUrl).
Proof.
  unfold downloadAndValidate.
  apply (keeps_bind issuer (fun _ => True)); [apply keeps_download|].
  intros [err|] _; [apply keeps_logf|].
  destruct (GetCertificateForIssuer ext other) as [err|cert]; [apply keeps_fatalf|].
  apply (keeps_bind issuer (fun _ => True)); [apply keeps_processCRL|].
  intros r _. destruct (snd r); [apply keeps_logf|].
  apply (keeps_bind issuer (fun _ => True)); [apply keeps_rename|].
  intros [err|] _; [apply keeps_logf|by apply keeps_ret].
Qed.

Lemma keeps_acceptFinalPath issuer ext other crlUrl paths :
  keeps issuer (fun _ => True) (acceptFinalPath ext other crlUrl paths).
Proof.
  apply keeps_silent. intros w. rewrite acceptFinalPath_run.
  destruct (files w !! finalPathOf ext other crlUrl) as [f|].
  - destruct (clock w - modTime f >? allowableAgeOfLocalCRL); [|done].
    cbn. by rewrite app_nil_r.
  - cbn. by rewrite app_nil_r.
Qed.

Lemma keeps_fetchUrl issuer ext other paths crlUrl :
  keeps issuer (fun _ => True) (fetchUrl ext other paths crlUrl).
Proof.
  unfold fetchUrl.
  apply (keeps_bind issuer (fun _ => True)); [apply keeps_pollQuit|].
  intros [|] _; [apply keeps_quit|].
  destruct (MkdirAll ext _).
  - apply (keeps_bind issuer (fun _ => True)); [apply keeps_logf|].
    intros _ _. by apply keeps_ret.
  - apply (keeps_bind issuer (fun _ => True)); [apply keeps_downloadAndValidate|].
    intros _ _. apply keeps_acceptFinalPath.
Qed.

(** What [crlFetchWorker] sends for a tuple names the issuer of the tuple. *)
Lemma keeps_fetchIssuer issuer ext tuple :
  keeps issuer (fun result => paths_Issuer result = urls_Issuer tuple) (fetchIssuer ext tuple).
Proof.
  unfold fetchIssuer.
  apply (keeps_bind issuer (fun _ => True)).
  - apply keeps_forEach; [|done]. intros paths crlUrl _ _. apply keeps_fetchUrl.
  - intros paths _. by apply keeps_ret.
Qed.

Lemma keeps_crlFetchWorker issuer ext crlsChan :
  (forall tuple, In tuple crlsChan -> urls_Issuer tuple <> issuer) ->
  keeps issuer (Forall (fun result => paths_Issuer result <> issuer))
        (crlFetchWorker ext crlsChan).
Proof.
  intros Hne. unfold crlFetchWorker.
  apply keeps_forEach; [|by constructor].
  intros resultChan tuple Hres Hin.
  apply (keeps_bind issuer (fun result => paths_Issuer result = urls_Issuer tuple));
    [apply keeps_fetchIssuer|].
  intros result Hresult. apply keeps_ret.
  apply Forall_app. split; [done|]. constructor; [|done].
  rewrite Hresult. by apply Hne.
Qed.

(** *** The discovery stage *)

Lemma keeps_findCrlIssuer issuer ext m other :
  CRLs ext issuer = [] -> noUrlFor issuer m ->
  keeps issuer (noUrlFor issuer) (findCrlIssuer ext m other).
Proof.
  intros Hno Hm. unfold findCrlIssuer.
  apply (keeps_bind issuer (fun _ => True)); [apply keeps_pollQuit|].
  intros [|] _; [apply keeps_quit|].
  apply (keeps_bind issuer (fun _ => True)).
  - destruct (len (CRLs ext other) =? 0); [|by apply keeps_ret].
    destruct (IsIssuerInProgram ext other); [|by apply keeps_ret].
    destruct (GetSubjectForIssuer ext other); apply keeps_logf.
  - intros _ _. apply keeps_ret. by apply (findStep_noUrlFor ext m issuer other).
Qed.

Lemma keeps_findCrlWorker issuer ext issuerChan :
  CRLs ext issuer = [] ->
  keeps issuer (noUrlFor issuer) (findCrlWorker ext issuerChan).
Proof.
  intros Hno. unfold findCrlWorker.
  apply keeps_forEach; [|by left].
  intros m other Hm _. by apply keeps_findCrlIssuer.
Qed.

Lemma keeps_identifyCrlsByIssuer issuer ext :
  CRLs ext issuer = [] ->
  keeps issuer (noUrlFor issuer) (identifyCrlsByIssuer ext).
Proof.
  intros Hno. unfold identifyCrlsByIssuer.
  apply (keeps_bind issuer (fun _ => True)); [apply keeps_logf|].
  intros _ _. destruct (GetIssuerAndDatesFromCache ext) as [err|issuerList];
    [apply keeps_fatalf|].
  apply (keeps_bind issuer (Forall (noUrlFor issuer))).
  - apply keeps_pool. intros work _. by apply keeps_findCrlWorker.
  - intros resultChan Hres. apply keeps_ret.
    assert (Hfold : forall results m,
              Forall (noUrlFor issuer) results -> noUrlFor issuer m ->
              noUrlFor issuer (fold_left Merge results m)).
    { induction results as [|r results IH]; intros m Hall Hm; [done|].
      simpl. inversion Hall; subst. apply IH; [done|]. by apply Merge_noUrlFor. }
    apply Hfold; [done|by left].
Qed.

(** *** The dispatch of downloadCRLs *)

Lemma keeps_parseUrl issuer ext urls iUrl :
  keeps issuer (fun _ => True) (parseUrl ext urls iUrl).
Proof.
  unfold parseUrl. destruct (ParseURL ext iUrl) as [err|urlObj]; [|by apply keeps_ret].
  apply (keeps_bind issuer (fun _ => True)); [apply keeps_logf|].
  intros _ _. by apply keeps_ret.
Qed.

(** An entry without URLs sends nothing on [crlChan]. *)
Lemma dispatchIssuer_no_urls ext crlChan issuer w :
  dispatchIssuer ext crlChan (issuer, ∅) w = (Ok crlChan, w).
Proof. unfold dispatchIssuer. cbn [snd]. by rewrite map_to_list_empty. Qed.

Lemma keeps_dispatchIssuer issuer ext crlChan entry :
  (fst entry = issuer -> snd entry = ∅) ->
  Forall (fun tuple => urls_Issuer tuple <> issuer) crlChan ->
  keeps issuer (Forall (fun tuple => urls_Issuer tuple <> issuer))
        (dispatchIssuer ext crlChan entry).
Proof.
  intros Hentry Hchan. destruct entry as [other crlMap]. cbn [fst snd] in Hentry.
  destruct (decide (other = issuer)) as [->|Hne].
  - rewrite (Hentry eq_refl). intros w. rewrite dispatchIssuer_no_urls.
    split; [cbn [snd]; lia|]. by intros a [= <-].
  - unfold dispatchIssuer. cbn [fst snd].
    apply (keeps_bind issuer (fun _ => True)).
    + apply keeps_forEach; [|done]. intros urls iUrl _ _. apply keeps_parseUrl.
    + intros urls _. destruct (0 <? len urls); apply keeps_ret; [|done].
      apply Forall_app. split; [done|]. by constructor.
Qed.

Lemma keeps_dispatch issuer ext (issuerToUrls : IssuerCrlMap) :
  noUrlFor issuer issuerToUrls ->
  keeps issuer (Forall (fun tuple => urls_Issuer tuple <> issuer)) (dispatch ext issuerToUrls).
Proof.
  intros Hm. unfold dispatch.
  apply keeps_forEach; [|by constructor].
  intros crlChan [other crlMap] Hchan Hin.
  apply keeps_dispatchIssuer; [|done].
  cbn [fst snd]. intros ->.
  apply list_elem_of_In, elem_of_map_to_list in Hin.
  destruct Hm as [Hm|Hm]; rewrite Hm in Hin; congruence.
Qed.

Lemma Forall_concat {A} (P : A -> Prop) (ls : list (list A)) :
  Forall (Forall P) ls -> Forall P (concat ls).
Proof.
  induction 1 as [|l ls Hl Hls IH]; simpl; [by constructor|].
  apply Forall_app. by split.
Qed.

Lemma keeps_downloadCRLs issuer ext (issuerToUrls : IssuerCrlMap) :
  noUrlFor issuer issuerToUrls ->
  keeps issuer (Forall (fun result => paths_Issuer result <> issuer))
        (downloadCRLs ext issuerToUrls).
Proof.
  intros Hm. unfold downloadCRLs.
  apply (keeps_bind issuer (Forall (fun tuple => urls_Issuer tuple <> issuer)));
    [by apply keeps_dispatch|].
  intros crlChan Hchan.
  apply (keeps_bind issuer (Forall (Forall (fun result => paths_Issuer result <> issuer)))).
  - apply keeps_pool. intros work Hwork. apply keeps_crlFetchWorker.
    intros tuple Hin. rewrite Forall_forall in Hchan. apply Hchan.
    apply list_elem_of_In. by apply Hwork.
  - intros results Hres. apply keeps_ret. by apply Forall_concat.
Qed.

Lemma keeps_aggregateCRLs issuer ext crlPaths :
  Forall (fun tuple => paths_Issuer tuple <> issuer) crlPaths ->
  keeps issuer (fun _ => True) (aggregateCRLs ext crlPaths).
Proof.
  intros Hne. unfold aggregateCRLs.
  apply (keeps_bind issuer (Forall (fun _ => True))); [|intros _ _; apply keeps_logf].
  apply keeps_pool. intros work Hwork. apply keeps_aggregateCRLWorker.
  intros tuple Hin. rewrite Forall_forall in Hne. apply Hne.
  apply list_elem_of_In. by apply Hwork.
Qed.

(** An issuer without CRL URLs is not enrolled by a run, signals or not. *)
Lemma keeps_stages issuer ext :
  CRLs ext issuer = [] -> keeps issuer (fun _ => True) (stages ext).
Proof.
  intros Hno. unfold stages.
  apply (keeps_bind issuer (noUrlFor issuer)); [by apply keeps_identifyCrlsByIssuer|].
  intros mergedCrls Hm.
  apply (keeps_bind issuer (Forall (fun result => paths_Issuer result <> issuer)));
    [by apply keeps_downloadCRLs|].
  intros crlPaths Hpaths. by apply keeps_aggregateCRLs.
Qed.

(** *** One tuple per issuer, one call of Enroll per issuer *)

Lemma enrollsAtMost_aggregateIssuer issuer ext tuple :
  enrollsAtMost issuer (isFor issuer (paths_Issuer tuple)) (fun _ => True)
                (aggregateIssuer ext tuple).
Proof.
  unfold isFor. destruct (String.eqb_spec (paths_Issuer tuple) issuer) as [Heq|Hne];
    [|by apply keeps_aggregateIssuer].
  unfold aggregateIssuer. rewrite Heq.
  destruct (GetCertificateForIssuer ext issuer) as [err|cert].
  { apply (enrollsAtMost_weaken issuer 0 1 (fun _ => True)); [apply keeps_fatalf|lia|done]. }
  apply (enrollsAtMost_bind issuer 1 0 (fun _ => True)).
  - intros w. split; [|done].
    destruct (aggregateLoop_enrolls_at_most_once ext cert issuer (CrlPaths tuple) aggInit w)
      as (calls & Hcalls & Hcase).
    unfold enrollCount. rewrite Hcalls, count_occ_app.
    destruct Hcase as [->|[-> _]]; cbn; [lia|].
    destruct (string_dec issuer issuer); [lia|done].
  - intros st _. destruct (issuerEnrolled st); [|apply keeps_logf].
    apply (keeps_bind issuer (fun _ => True)); [apply keeps_logf|].
    intros _ _. apply (keeps_bind issuer (fun _ => True)); [apply keeps_Store|].
    intros [err|] _; [apply keeps_fatalf|by apply keeps_ret].
Qed.

Lemma enrollsAtMost_aggregateCRLWorker issuer ext workChan :
  enrollsAtMost issuer (tuplesFor issuer paths_Issuer workChan) (fun _ => True)
                (aggregateCRLWorker ext workChan).
Proof.
  unfold aggregateCRLWorker, tuplesFor.
  apply (enrollsAtMost_forEach issuer (fun tuple => isFor issuer (paths_Issuer tuple))
           (fun _ => True)); [|done].
  intros [] tuple _ _. apply enrollsAtMost_aggregateIssuer.
Qed.

(** A value of the channel goes to one worker at most: the shares cost no
    more than the channel. *)
Lemma list_sum_filter {A} (f : A -> bool) (cost : A -> nat) (l : list A) :
  list_sum (map cost (List.filter f l))
  = list_sum (map (fun x => if f x then cost x else 0%nat) l).
Proof.
  unfold list_sum. induction l as [|x l IH]; [done|].
  cbn. destruct (f x); cbn; by rewrite IH.
Qed.

Lemma list_sum_plus {A} (f g : A -> nat) (l : list A) :
  list_sum (map (fun x => (f x + g x)%nat) l)
  = (list_sum (map f l) + list_sum (map g l))%nat.
Proof. unfold list_sum. induction l as [|x l IH]; [done|]. cbn. rewrite IH. lia. Qed.

Lemma list_sum_one_hit (x c : nat) : forall n start,
  (list_sum (map (fun t => if Nat.eqb x t then c else 0%nat) (seq start n)) <= c)%nat
  /\ ((x < start)%nat ->
      list_sum (map (fun t => if Nat.eqb x t then c else 0%nat) (seq start n)) = 0%nat).
Proof.
  unfold list_sum.
  induction n as [|n IH]; intros start; [cbn; lia|].
  cbn [seq map fold_right]. destruct (IH (S start)) as [Hle Hzero].
  destruct (Nat.eqb_spec x start) as [->|Hne].
  - rewrite Hzero by lia. lia.
  - split; [cbn; exact Hle|]. intros Hlt. cbn. apply Hzero. lia.
Qed.

Lemma map_snd_combine_seq {A} (l : list A) : forall start,
  map snd (combine (seq start (length l)) l) = l.
Proof. induction l as [|x l IH]; intros start; [done|]. cbn. by rewrite IH. Qed.

Lemma shares_cost {A} ext (cost : A -> nat) (chan : list A) :
  (list_sum (map (fun work => list_sum (map cost work)) (shares ext chan))
   <= list_sum (map cost chan))%nat.
Proof.
  unfold shares, share. rewrite map_map.
  replace (map cost chan)
    with (map cost (map snd (combine (seq 0 (length chan)) chan)))
    by (by rewrite map_snd_combine_seq).
  generalize (combine (seq 0 (length chan)) chan) as indexed.
  generalize (NumThreads ext) as n. intros n indexed.
  induction indexed as [|[i x] indexed IH].
  - cbn. by rewrite list_sum_zero.
  - cbn [List.filter map fst snd list_sum fold_right].
    transitivity (list_sum (map (fun t => if Nat.eqb (Nat.modulo (receiver ext i) n) t
                                          then cost x else 0%nat) (seq 0 n))
                  + list_sum (map (fun t => list_sum (map cost (map snd
                       (List.filter (fun p => Nat.eqb (Nat.modulo (receiver ext p.1) n) t)
                                    indexed)))) (seq 0 n)))%nat.
    + rewrite <- list_sum_plus. apply Nat.eq_le_incl. f_equal.
      apply map_ext. intros t.
      by destruct (Nat.eqb (Nat.modulo (receiver ext i) n) t).
    + pose proof (proj1 (list_sum_one_hit (Nat.modulo (receiver ext i) n) (cost x) n 0%nat)).
      unfold list_sum in *. lia.
Qed.

Lemma enrollsAtMost_pool {A B} issuer ext (cost : A -> nat) (worker : list A -> M B)
    (chan : list A) :
  (forall work, enrollsAtMost issuer (list_sum (map cost work)) (fun _ => True) (worker work)) ->
  enrollsAtMost issuer (list_sum (map cost chan)) (fun _ => True) (pool ext worker chan).
Proof.
  intros Hworker. unfold pool.
  apply (enrollsAtMost_weaken issuer
           (list_sum (map (fun work => list_sum (map cost work)) (shares ext chan)))
           _ (fun _ => True)); [|apply shares_cost|done].
  apply (enrollsAtMost_forEach issuer (fun work => list_sum (map cost work)) (fun _ => True));
    [|done].
  intros results work _ _.
  apply (enrollsAtMost_weaken issuer (list_sum (map cost work) + 0) _ (fun _ => True));
    [|lia|done].
  apply (enrollsAtMost_bind issuer _ 0 (fun _ => True)); [apply Hworker|].
  intros r _. by apply keeps_ret.
Qed.

Lemma enrollsAtMost_aggregateCRLs issuer ext crlPaths :
  enrollsAtMost issuer (tuplesFor issuer paths_Issuer crlPaths) (fun _ => True)
                (aggregateCRLs ext crlPaths).
Proof.
  unfold aggregateCRLs, tuplesFor.
  apply (enrollsAtMost_weaken issuer
           (list_sum (map (fun tuple => isFor issuer (paths_Issuer tuple)) crlPaths) + 0)
           _ (fun _ => True)); [|lia|done].
  apply (enrollsAtMost_bind issuer _ 0 (fun _ => True)); [|intros _ _; apply keeps_logf].
  apply enrollsAtMost_pool. intros work. apply enrollsAtMost_aggregateCRLWorker.
Qed.

(** The first two stages call [Enroll] for nobody. *)
Lemma keeps_identifyCrlsByIssuer_any issuer ext :
  keeps issuer (fun _ => True) (identifyCrlsByIssuer ext).
Proof.
  unfold identifyCrlsByIssuer.
  apply (keeps_bind issuer (fun _ => True)); [apply keeps_logf|].
  intros _ _. destruct (GetIssuerAndDatesFromCache ext) as [err|issuerList];
    [apply keeps_fatalf|].
  apply (keeps_bind issuer (fun _ => True)); [|intros; by apply keeps_ret].
  unfold pool. apply keeps_forEach; [|done].
  intros results work _ _.
  apply (keeps_bind issuer (fun _ => True)); [|intros; by apply keeps_ret].
  unfold findCrlWorker. apply keeps_forEach; [|done].
  intros m other _ _. unfold findCrlIssuer.
  apply (keeps_bind issuer (fun _ => True)); [apply keeps_pollQuit|].
  intros [|] _; [apply keeps_quit|].
  apply (keeps_bind issuer (fun _ => True)); [|intros; by apply keeps_ret].
  destruct (len (CRLs ext other) =? 0); [|by apply keeps_ret].
  destruct (IsIssuerInProgram ext other); [|by apply keeps_ret].
  destruct (GetSubjectForIssuer ext other); apply keeps_logf.
Qed.

Lemma keeps_downloadCRLs_any issuer ext (issuerToUrls : IssuerCrlMap) :
  keeps issuer (fun _ => True) (downloadCRLs ext issuerToUrls).
Proof.
  unfold downloadCRLs.
  apply (keeps_bind issuer (fun _ => True)).
  - unfold dispatch. apply keeps_forEach; [|done].
    intros crlChan entry _ _. unfold dispatchIssuer.
    apply (keeps_bind issuer (fun _ => True)).
    + apply keeps_forEach; [|done]. intros urls iUrl _ _. apply keeps_parseUrl.
    + intros urls _. destruct (0 <? len urls); by apply keeps_ret.
  - intros crlChan _.
    apply (keeps_bind issuer (fun _ => True)); [|intros; by apply keeps_ret].
    unfold pool. apply keeps_forEach; [|done].
    intros results work _ _.
    apply (keeps_bind issuer (fun _ => True)); [|intros; by apply keeps_ret].
    unfold crlFetchWorker. apply keeps_forEach; [|done].
    intros resultChan tuple _ _.
    apply (keeps_bind issuer (fun _ => True)); [|intros; by apply keeps_ret].
    apply (keeps_weaken issuer (fun result => paths_Issuer result = urls_Issuer tuple));
      [apply keeps_fetchIssuer|done].
Qed.

(** [downloadCRLs] sends one tuple per issuer at most. *)
Lemma tuplesFor_app {T} issuer (issuerOf : T -> Issuer) (l1 l2 : list T) :
  tuplesFor issuer issuerOf (l1 ++ l2)
  = (tuplesFor issuer issuerOf l1 + tuplesFor issuer issuerOf l2)%nat.
Proof. unfold tuplesFor. by rewrite map_app, list_sum_app. Qed.

Lemma dispatchIssuer_sends ext crlChan entry w crlChan' :
  fst (dispatchIssuer ext crlChan entry w) = Ok crlChan' ->
  crlChan' = crlChan \/ exists urls, crlChan' = crlChan ++ [mkIssuerCrlUrls (fst entry) urls].
Proof.
  unfold dispatchIssuer, bind.
  destruct (forEach (parseUrl ext) [] (map fst (map_to_list (snd entry))) w)
    as [[urls| |] w1]; cbn [fst]; try discriminate.
  destruct (0 <? len urls); unfold ret; cbn [fst]; intros [= <-]; [right|by left].
  by exists urls.
Qed.

Lemma dispatch_entries issuer ext entries : forall crlChan w crlChan',
  fst (forEach (dispatchIssuer ext) crlChan entries w) = Ok crlChan' ->
  (tuplesFor issuer urls_Issuer crlChan'
   <= tuplesFor issuer urls_Issuer crlChan
      + list_sum (map (isFor issuer) (map fst entries)))%nat.
Proof.
  induction entries as [|entry entries IH]; intros crlChan w crlChan'.
  - cbn. intros [= <-]. lia.
  - cbn [forEach]. unfold bind.
    destruct (dispatchIssuer ext crlChan entry w) as [r w1] eqn:E.
    pose proof (dispatchIssuer_sends ext crlChan entry w) as Hsend. rewrite E in Hsend.
    destruct r as [c1| |]; cbn [fst] in *; try discriminate.
    intros Hrest. apply IH in Hrest.
    cbn [map list_sum fold_right]. unfold list_sum in *.
    destruct (Hsend c1 eq_refl) as [->|[urls ->]]; [lia|].
    rewrite tuplesFor_app in Hrest. unfold tuplesFor at 3 in Hrest.
    cbn in Hrest. lia.
Qed.

Lemma isFor_absent issuer (keys : list Issuer) :
  ~ In issuer keys -> list_sum (map (isFor issuer) keys) = 0%nat.
Proof.
  unfold list_sum. induction keys as [|k keys IH]; intros Hnot; [done|].
  cbn. unfold isFor at 1.
  destruct (String.eqb_spec k issuer) as [->|Hne].
  - exfalso. apply Hnot. by left.
  - apply IH. intros Hin. apply Hnot. by right.
Qed.

Lemma isFor_NoDup issuer (keys : list Issuer) :
  NoDup keys -> (list_sum (map (isFor issuer) keys) <= 1)%nat.
Proof.
  induction 1 as [|k keys Hnot Hnodup IH]; [cbn; lia|].
  cbn [map list_sum fold_right]. unfold isFor at 1.
  destruct (String.eqb_spec k issuer) as [->|Hne].
  - rewrite list_elem_of_In in Hnot.
    pose proof (isFor_absent issuer keys Hnot) as Hzero.
    unfold list_sum in *. lia.
  - unfold list_sum in *. lia.
Qed.

Lemma dispatch_one_tuple_per_issuer issuer ext (issuerToUrls : IssuerCrlMap) w crlChan :
  fst (dispatch ext issuerToUrls w) = Ok crlChan ->
  (tuplesFor issuer urls_Issuer crlChan <= 1)%nat.
Proof.
  intros Hrun. apply (dispatch_entries issuer) in Hrun.
  pose proof (isFor_NoDup issuer (map fst (map_to_list issuerToUrls))
                (NoDup_fst_map_to_list issuerToUrls)) as Hkeys.
  cbn in Hrun. lia.
Qed.

(** What the retrieval stage sends names the issuers it received, in
    order. *)
Lemma crlFetchWorker_issuers ext crlsChan : forall resultChan w results,
  fst (forEach (fun resultChan tuple =>
                  let* result := fetchIssuer ext tuple in ret (resultChan ++ [result]))
               resultChan crlsChan w) = Ok results ->
  map paths_Issuer results = map paths_Issuer resultChan ++ map urls_Issuer crlsChan.
Proof.
  induction crlsChan as [|tuple chan IH]; intros resultChan w results.
  - cbn. intros [= <-]. by rewrite app_nil_r.
  - cbn [forEach]. unfold bind at 1. unfold bind at 1.
    pose proof (proj2 (keeps_fetchIssuer ""%string ext tuple w)) as Hissuer.
    destruct (fetchIssuer ext tuple w) as [[result| |] w1]; cbn [fst] in *; try discriminate.
    unfold ret at 1. intros Hrest. apply IH in Hrest.
    rewrite Hrest, map_app. cbn [map]. rewrite (Hissuer result eq_refl).
    by rewrite <- app_assoc.
Qed.

Lemma fetch_pool_issuers ext works : forall acc w results,
  fst (forEach (fun results work =>
                  let* r := crlFetchWorker ext work in ret (results ++ [r]))
               acc works w) = Ok results ->
  map paths_Issuer (concat results)
  = map paths_Issuer (concat acc) ++ map urls_Issuer (concat works).
Proof.
  induction works as [|work works IH]; intros acc w results.
  - cbn. intros [= <-]. by rewrite app_nil_r.
  - cbn [forEach]. unfold bind at 1. unfold bind at 1.
    pose proof (crlFetchWorker_issuers ext work [] w) as Hwork.
    unfold crlFetchWorker.
    destruct (forEach _ [] work w) as [[r| |] w1]; cbn [fst] in *; try discriminate.
    unfold ret at 1. intros Hrest. apply IH in Hrest.
    rewrite Hrest, concat_app, map_app. cbn [concat]. rewrite app_nil_r.
    rewrite (Hwork r eq_refl). cbn [map app concat]. rewrite map_app.
    by rewrite <- app_assoc.
Qed.

Lemma tuplesFor_map {T} issuer (issuerOf : T -> Issuer) (l : list T) :
  tuplesFor issuer issuerOf l = list_sum (map (isFor issuer) (map issuerOf l)).
Proof. unfold tuplesFor. by rewrite map_map. Qed.

Lemma tuplesFor_concat {T} issuer (issuerOf : T -> Issuer) (ls : list (list T)) :
  tuplesFor issuer issuerOf (concat ls)
  = list_sum (map (fun l => list_sum (map (fun t => isFor issuer (issuerOf t)) l)) ls).
Proof.
  induction ls as [|l ls IH]; [done|].
  cbn [concat map]. rewrite tuplesFor_app, IH. done.
Qed.

Lemma downloadCRLs_one_tuple_per_issuer issuer ext (issuerToUrls : IssuerCrlMap) w crlPaths :
  fst (downloadCRLs ext issuerToUrls w) = Ok crlPaths ->
  (tuplesFor issuer paths_Issuer crlPaths <= 1)%nat.
Proof.
  unfold downloadCRLs, bind.
  pose proof (dispatch_one_tuple_per_issuer issuer ext issuerToUrls w) as Hone.
  destruct (dispatch ext issuerToUrls w) as [[crlChan| |] w1]; cbn [fst] in *;
    try discriminate.
  specialize (Hone crlChan eq_refl).
  pose proof (fetch_pool_issuers ext (shares ext crlChan) [] w1) as Hpool.
  unfold pool.
  destruct (forEach _ [] (shares ext crlChan) w1) as [[results| |] w2]; cbn [fst] in *;
    try discriminate.
  unfold ret. cbn [fst]. intros [= <-].
  rewrite tuplesFor_map, (Hpool results eq_refl). cbn [concat map app].
  rewrite <- tuplesFor_map, tuplesFor_concat.
  pose proof (shares_cost ext (fun t => isFor issuer (urls_Issuer t)) crlChan) as Hshares.
  unfold tuplesFor in Hone. lia.
Qed.

(** A run calls [Enroll] once at most for an issuer, signals or not. *)
Lemma stages_enroll_an_issuer_once issuer ext w :
  (enrollCount issuer (snd (stages ext w)) <= enrollCount issuer w + 1)%nat.
Proof.
  assert (H : enrollsAtMost issuer 1 (fun _ => True) (stages ext)); [|apply H].
  unfold stages.
  apply (enrollsAtMost_bind issuer 0 1 (fun _ => True));
    [apply keeps_identifyCrlsByIssuer_any|].
  intros mergedCrls _.
  apply (enrollsAtMost_bind issuer 0 1
           (fun crlPaths => (tuplesFor issuer paths_Issuer crlPaths <= 1)%nat)).
  - intros w'. split; [apply keeps_downloadCRLs_any|].
    intros crlPaths. apply downloadCRLs_one_tuple_per_issuer.
  - intros crlPaths Hone.
    apply (enrollsAtMost_weaken issuer (tuplesFor issuer paths_Issuer crlPaths) 1
             (fun _ => True)); [apply enrollsAtMost_aggregateCRLs|done|done].
Qed.

(** C8 as the specification words it fails: the issuer Z has no CRL URL,
    and the discovery stage lists it, with an empty set. *)
Lemma issuer_without_crls_is_in_discovery_output :
  CRLs Demo.ext "Z" = []
  /\ exists m : IssuerCrlMap,
       fst (identifyCrlsByIssuer Demo.ext Demo.emptyWorld) = Ok m
       /\ m !! "Z"%string = Some ∅.
Proof. split; [reflexivity|]. eexists. split; vm_compute; reflexivity. Qed.

(** C8, amended: for an issuer whose metadata has no CRL URL, the worker of
    the discovery stage logs a line (an issuer of the root program) and
    does not fail; the worker, and the stage, list the issuer in their map,
    with an empty set; the map the stage returns never has a URL for the
    issuer; [downloadCRLs] sends no tuple for such an issuer; and a run
    does not enroll it, signals or not. *)
Theorem issuer_without_crls_is_never_enrolled ext issuer :
  CRLs ext issuer = [] ->
  (forall m w,
     signals w = [] ->
     fst (findCrlIssuer ext m issuer w) = Ok (<[issuer := selfCrlsOf m issuer]> m)
     /\ (IsIssuerInProgram ext issuer = true ->
         exists sev msg,
           log (snd (findCrlIssuer ext m issuer w)) = log w ++ [(sev, msg)]
           /\ (sev = INFO \/ sev = WARNING)))
  /\ (forall issuerChan w,
        signals w = [] -> In issuer issuerChan ->
        exists m : IssuerCrlMap,
          fst (findCrlWorker ext issuerChan w) = Ok m /\ m !! issuer = Some ∅)
  /\ (forall issuerList w,
        signals w = [] ->
        GetIssuerAndDatesFromCache ext = inr issuerList ->
        In issuer issuerList ->
        IsIssuerInProgram ext issuer = true ->
        (0 < NumThreads ext)%nat ->
        exists m : IssuerCrlMap,
          fst (identifyCrlsByIssuer ext w) = Ok m /\ m !! issuer = Some ∅)
  /\ (forall w m, fst (identifyCrlsByIssuer ext w) = Ok m -> noUrlFor issuer m)
  /\ (forall (m : IssuerCrlMap) w crlChan,
        noUrlFor issuer m ->
        fst (dispatch ext m w) = Ok crlChan ->
        forall tuple, In tuple crlChan -> urls_Issuer tuple <> issuer)
  /\ (forall w, ~ In issuer (enrolled w) -> ~ In issuer (enrolled (snd (stages ext w)))).
Proof.
  intros Hno. repeat split.
  - rewrite findCrlIssuer_run by done. cbn [fst]. by rewrite findStep_no_urls.
  - intros Hprog. rewrite findCrlIssuer_run by done. cbn [snd after log].
    unfold noCrlLog. rewrite Hno, Hprog. cbn.
    destruct (GetSubjectForIssuer ext issuer); eexists _, _; split; eauto.
  - intros issuerChan w Hq Hin. unfold findCrlWorker.
    rewrite findCrlWorker_run by done. cbn [fst]. eexists. split; [reflexivity|].
    by apply findMap_lists_issuer.
  - intros issuerList w Hq Hlist Hin Hprog Hn.
    by apply (identifyCrlsByIssuer_lists_issuer ext issuer issuerList).
  - intros w m Hm. by apply (keeps_identifyCrlsByIssuer issuer ext Hno w).
  - intros m w crlChan Hm Hrun tuple Hin.
    destruct (keeps_dispatch issuer ext m Hm w) as [_ Hret].
    specialize (Hret crlChan Hrun). rewrite Forall_forall in Hret.
    apply Hret. by apply list_elem_of_In.
  - intros w. apply (keeps_unenrolled issuer (fun _ => True)). by apply keeps_stages.
Qed.

Lemma issuer_without_crls_is_never_enrolled_witness :
  CRLs Demo.ext "Z" = []
  /\ enrolled (snd (stages Demo.ext Demo.scenario)) = ["X"%string]
  /\ ~ In "Z"%string (enrolled (snd (stages Demo.ext Demo.scenario))).
Proof.
  split; [reflexivity|]. split; [vm_compute; reflexivity|].
  destruct (issuer_without_crls_is_never_enrolled Demo.ext "Z" eq_refl)
    as (_ & _ & _ & _ & _ & Hrun).
  apply Hrun. intros [].
Defined.

End DiscoveryProperties.


(* ===================================================================== *)
(** ** Enrollment *)
(* ===================================================================== *)

Section EnrollmentProperties.
Import Types Filename Engine Run.

(** C3: while the paths of an issuer are processed, [issuerEnrolled] is
    true exactly from the first CRL on that validates with at least one
    serial; [Enroll] is called once, at that CRL, and not at all when there
    is none; the flag, once true, is true after every later path, whether
    its CRL validates or not; and a whole run, signals or not, calls
    [Enroll] at most once for the issuer. *)
Theorem enrollment_is_set_once ext cert issuer paths w :
  signals w = [] ->
  (forall n : nat,
     enrolledAfter ext cert issuer paths w n
     = Some (existsb (yieldsSerials ext cert w) (take n paths))
     /\ enrolled (snd (forEach (aggregatePath ext cert issuer) aggInit (take n paths) w))
        = enrolled w ++ (if existsb (yieldsSerials ext cert w) (take n paths)
                         then [issuer] else [])
     /\ (forall m : nat,
           (n <= m)%nat ->
           enrolledAfter ext cert issuer paths w n = Some true ->
           enrolledAfter ext cert issuer paths w m = Some true))
  /\ (forall w0 : World,
        (enrollCount issuer (snd (stages ext w0)) <= enrollCount issuer w0 + 1)%nat).
Proof.
  intros Hq.
  assert (Hafter : forall n, enrolledAfter ext cert issuer paths w n
                             = Some (existsb (yieldsSerials ext cert w) (take n paths))).
  { intros n. unfold enrolledAfter. rewrite aggregateLoop_run by done. cbn [fst].
    rewrite aggFold_enrolled. cbn [issuerEnrolled aggInit orb].
    f_equal. apply existsb_pointwise. intros p. by rewrite yieldsSerials_contributes. }
  split; [|intros w0; apply stages_enroll_an_issuer_once].
  intros n. split; [apply Hafter|]. split.
  - rewrite aggregateLoop_run by done. cbn [snd after enrolled].
    f_equal. unfold enrollCall. rewrite aggFold_enrolled.
    cbn [issuerEnrolled aggInit orb negb]. rewrite andb_true_r.
    erewrite existsb_pointwise; [reflexivity|].
    intros p. by rewrite yieldsSerials_contributes.
  - intros m Hnm. rewrite !Hafter. intros [= Hn]. f_equal.
    apply existsb_exists in Hn as (p & Hin & Hp).
    apply existsb_exists. exists p. split; [|done].
    apply list_elem_of_In. apply list_elem_of_In in Hin.
    apply list_elem_of_lookup in Hin as [i Hi].
    apply list_elem_of_lookup. exists i.
    apply lookup_take_Some in Hi as [Hi Hlt].
    apply lookup_take_Some. split; [done|lia].
Qed.

Lemma enrollment_is_set_once_witness :
  let paths := ["none.crl"; "forged.crl"; "three.crl"; "junk.crl"; "one.crl"]%string in
  enrolledAfter Demo.ext [1] "X" paths Demo.aggDisk 2 = Some false
  /\ enrolledAfter Demo.ext [1] "X" paths Demo.aggDisk 4 = Some true
  /\ enrolled (snd (forEach (aggregatePath Demo.ext [1] "X") aggInit paths Demo.aggDisk))
     = ["X"%string]
  /\ (enrollCount "X" (snd (stages Demo.ext Demo.scenario)) <= 1)%nat.
Proof.
  intros paths.
  destruct (enrollment_is_set_once Demo.ext [1] "X" paths Demo.aggDisk eq_refl)
    as [H Hrun].
  split; [|split; [|split]].
  - destruct (H 2%nat) as (H2 & _). rewrite H2. vm_compute. reflexivity.
  - destruct (H 4%nat) as (H4 & _). rewrite H4. vm_compute. reflexivity.
  - destruct (H 5%nat) as (_ & H5 & _). exact H5.
  - exact (Hrun Demo.scenario).
Defined.

End EnrollmentProperties.

(* ===================================================================== *)
(** ** The scenarios of the specification *)
(* ===================================================================== *)

Section Scenarios.
Import Types Filename Engine Run.

(** X has two URLs: [urlA] downloads and validates with 3 serials; [urlB]
    fails to download, and a valid file cached two days ago holds 1 serial.
    Y has one URL that fails to download and no cached file. Z has no URL.
    X is enrolled and 4 serials are stored for it; Y and Z are not enrolled
    and nothing is stored for them. *)
Example end_to_end :
  let w := snd (stages Demo.ext Demo.scenario) in
  fst (stages Demo.ext Demo.scenario) = Ok tt
  /\ isEnrolled w "X" = true
  /\ isEnrolled w "Y" = false
  /\ isEnrolled w "Z" = false
  /\ saved w = {[ "X"%string := [[5]; [6]; [7]; [9]] ]}
  /\ In (INFO, MsgSaving "X" 4) (log w)
  /\ In (INFO, MsgNotEnrolled "Y") (log w).
Proof. vm_compute. repeat split; auto 10. Qed.

(** A quit signal at the first poll: the run is abandoned, nobody is
    enrolled and nothing is stored. *)
Example cancelled_run :
  let w0 := mkWorld (files Demo.scenario) Demo.today [true] [] ∅ [] in
  fst (stages Demo.ext w0) = Quit
  /\ enrolled (snd (stages Demo.ext w0)) = []
  /\ saved (snd (stages Demo.ext w0)) = ∅.
Proof. vm_compute. repeat split. Qed.

End Scenarios.

(* ===================================================================== *)
(** ** More on IssuerCrlMap.Merge *)
(* ===================================================================== *)

Section MoreMerge.
Import Types Run Behaviour.

Lemma urlSets_Merge (A B : IssuerCrlMap) (issuer : string) :
  urlSets (Merge A B) !! issuer =
  match urlSets A !! issuer, urlSets B !! issuer with
  | Some a, Some b => Some (a ∪ b)
  | Some a, None => Some a
  | None, Some b => Some b
  | None, None => None
  end.
Proof.
  rewrite !urlSets_lookup, Merge_lookup. unfold selfCrlsOf.
  destruct (A !! issuer) as [a|], (B !! issuer) as [b|]; cbn; try done.
  - f_equal. rewrite dom_mergeCrls. apply (comm_L (∪)).
  - f_equal. rewrite dom_mergeCrls, dom_empty_L. by rewrite (right_id_L ∅ (∪)).
Qed.

(** X1: [Merge] is the union, issuer by issuer: the issuers of the result are
    those of either map, and the URLs of an issuer are those that either
    map has for it. Nothing is removed. *)
Theorem Merge_is_union (A B : IssuerCrlMap) :
  dom (Merge A B) = dom A ∪ dom B
  /\ (forall issuer url,
        is_Some (urlEntry (Merge A B) issuer url)
        <-> is_Some (urlEntry A issuer url) \/ is_Some (urlEntry B issuer url)).
Proof.
  split.
  - apply set_eq. intros issuer.
    rewrite elem_of_union, !elem_of_dom, Merge_lookup.
    destruct (B !! issuer) as [b|] eqn:EB.
    + split; [intros _; right; eauto|intros _; eauto].
    + split; [by left|intros [H|[? H]]; [done|done]].
  - intros issuer url. unfold urlEntry. rewrite Merge_lookup. unfold selfCrlsOf.
    destruct (B !! issuer) as [b|] eqn:EB.
    + rewrite mergeCrls_lookup.
      destruct (b !! url) as [v|] eqn:Eu.
      * split; [intros _; right; eauto|intros _; eauto].
      * destruct (A !! issuer) as [a|]; [|rewrite lookup_empty];
          (split; [by left|intros [H|[? H]]; [done|done]]).
    + split; [by left|intros [H|[? H]]; [done|done]].
Qed.

(** X2: The booleans of the result: a URL that [other] has is stored as
    [true], whatever either map stored for it; a URL that [other] does not
    have keeps the boolean that [self] stored. *)
Theorem Merge_marks_true (self other : IssuerCrlMap) (issuer url : string) :
  urlEntry (Merge self other) issuer url =
  match urlEntry other issuer url with
  | Some _ => Some true
  | None => urlEntry self issuer url
  end.
Proof.
  unfold urlEntry. rewrite Merge_lookup. unfold selfCrlsOf.
  destruct (other !! issuer) as [b|] eqn:EB; [|done].
  rewrite mergeCrls_lookup.
  destruct (b !! url); [done|].
  destruct (self !! issuer); [done|by rewrite lookup_empty].
Qed.

Lemma urlSets_Merge_congruence (A A' B : IssuerCrlMap) :
  urlSets A = urlSets A' -> urlSets (Merge A B) = urlSets (Merge A' B).
Proof.
  intros H. apply map_eq. intros issuer. rewrite !urlSets_Merge. by rewrite H.
Qed.

Lemma urlSets_Merge_swap (A B C : IssuerCrlMap) :
  urlSets (Merge (Merge A B) C) = urlSets (Merge (Merge A C) B).
Proof.
  apply map_eq. intros issuer. rewrite !urlSets_Merge.
  destruct (urlSets A !! issuer), (urlSets B !! issuer), (urlSets C !! issuer);
    try done; f_equal; apply set_eq; intros x; rewrite !elem_of_union; tauto.
Qed.

Lemma urlSets_fold_congruence (results : list IssuerCrlMap) : forall A A' : IssuerCrlMap,
  urlSets A = urlSets A' ->
  urlSets (fold_left Merge results A) = urlSets (fold_left Merge results A').
Proof.
  induction results as [|r results IH]; intros A A' H; [done|].
  cbn. apply IH. by apply urlSets_Merge_congruence.
Qed.

(** X3: The maps of the workers can be merged in any order: the URL sets of
    the result are the same. *)
Theorem Merge_order_is_irrelevant (results results' : list IssuerCrlMap) (A : IssuerCrlMap) :
  Permutation results results' ->
  urlSets (fold_left Merge results A) = urlSets (fold_left Merge results' A).
Proof.
  intros Hperm. revert A.
  induction Hperm as [|r l l' Hperm IH|r1 r2 l|l1 l2 l3 H12 IH12 H23 IH23]; intros A.
  - done.
  - cbn. apply IH.
  - cbn. apply urlSets_fold_congruence, urlSets_Merge_swap.
  - by rewrite IH12.
Qed.

Lemma Merge_order_is_irrelevant_witness :
  let r1 : IssuerCrlMap := {[ "X"%string := {[ "a"%string := true ]} ]} in
  let r2 : IssuerCrlMap := {[ "X"%string := {[ "b"%string := true ]};
                              "Y"%string := {[ "c"%string := true ]} ]} in
  urlSets (fold_left Merge [r1; r2] ∅) = urlSets (fold_left Merge [r2; r1] ∅).
Proof.
  intros r1 r2. apply (Merge_order_is_irrelevant [r1; r2] [r2; r1] ∅).
  apply perm_swap.
Defined.

End MoreMerge.

(* ===================================================================== *)
(** ** More on makeFilenameFromUrl *)
(* ===================================================================== *)

Section MoreFilename.
Import GoString Filename Behaviour.

Lemma chars_append (a b : string) : chars (a +:+ b) = chars a ++ chars b.
Proof. unfold chars. induction a as [|c a IH]; [done|]. simpl. by rewrite IH. Qed.

Lemma chars_length (s : string) : length (chars s) = String.length s.
Proof. unfold chars. induction s as [|c s IH]; [done|]. simpl. by rewrite IH. Qed.

Lemma chars_inj (a b : string) : chars a = chars b -> a = b.
Proof.
  unfold chars. intros H.
  rewrite <- (string_of_list_ascii_of_string a), <- (string_of_list_ascii_of_string b).
  by rewrite H.
Qed.

Lemma lower_byte_not_upper (c : ascii) : is_upper (lower_byte c) = false.
Proof. destruct c as [[] [] [] [] [] [] [] []]; reflexivity. Qed.

Lemma lower_from_not_upper (s : string) : forall skip,
  Forall (fun c => is_upper c = false) (chars (lower_from skip s)).
Proof.
  unfold chars. induction s as [|c s IH]; intros skip; [by constructor|].
  cbn [lower_from]. destruct skip as [|skip]; [|apply IH].
  destruct (String.prefix _ (String c s)).
  - constructor; [reflexivity|apply IH].
  - destruct (String.prefix _ (String c s)).
    + constructor; [reflexivity|apply IH].
    + constructor; [apply lower_byte_not_upper|apply IH].
Qed.

Lemma substring_prefix_Forall (P : ascii -> Prop) (s : string) : forall n,
  Forall P (chars s) -> Forall P (chars (String.substring 0 n s)).
Proof.
  unfold chars. induction s as [|c s IH]; intros n H.
  - destruct n; constructor.
  - destruct n as [|n]; [constructor|].
    cbn. inversion H; subst. constructor; [done|]. by apply IH.
Qed.

Lemma TrimSuffix_Forall (P : ascii -> Prop) (s suffix : string) :
  Forall P (chars s) -> Forall P (chars (TrimSuffix s suffix)).
Proof.
  intros H. unfold TrimSuffix. destruct (HasSuffix s suffix); [|done].
  by apply substring_prefix_Forall.
Qed.

Lemma legal_lower_is_safe (c : ascii) :
  illegalPath c = false -> is_upper c = false -> safeChar c = true.
Proof.
  unfold illegalPath, safeChar. intros Hlegal Hupper.
  apply negb_false_iff in Hlegal. rewrite Hupper in Hlegal. exact Hlegal.
Qed.

Lemma removeIllegal_safe (s : string) :
  Forall (fun c => is_upper c = false) (chars s) ->
  Forall (fun c => safeChar c = true) (chars (removeIllegal s)).
Proof.
  unfold removeIllegal, filter_string, chars.
  rewrite list_ascii_of_string_of_list_ascii.
  induction 1 as [|c l Hc Hl IH]; [constructor|].
  cbn. destruct (illegalPath c) eqn:E; cbn; [done|].
  constructor; [by apply legal_lower_is_safe|done].
Qed.

Lemma hex_digit_cases (d : Z) :
  0 <= d < 16 ->
  In d [0; 1; 2; 3; 4; 5; 6; 7; 8; 9; 10; 11; 12; 13; 14; 15].
Proof. intros H. cbn. lia. Qed.

Lemma hex_digit_safe (d : Z) : 0 <= d < 16 -> safeChar (hex_digit d) = true.
Proof.
  intros H. apply hex_digit_cases in H. cbn in H.
  repeat (destruct H as [<-|H]; [reflexivity|]). done.
Qed.

Lemma byte_nibbles (b : Z) :
  isByte b -> 0 <= Z.shiftr b 4 < 16 /\ 0 <= Z.land b 0xF < 16.
Proof.
  unfold isByte. intros H.
  rewrite Z.shiftr_div_pow2 by lia.
  change 0xF with (Z.ones 4). rewrite Z.land_ones by lia.
  change (2 ^ 4) with 16. split.
  - split; [apply Z.div_pos; lia|apply Z.div_lt_upper_bound; lia].
  - apply Z.mod_pos_bound. lia.
Qed.

Lemma EncodeToString_safe (bs : list Z) :
  Forall isByte bs -> Forall (fun c => safeChar c = true) (chars (EncodeToString bs)).
Proof.
  unfold chars. induction 1 as [|b bs Hb Hbs IH]; [constructor|].
  cbn. destruct (byte_nibbles b Hb) as [Hhi Hlo].
  constructor; [by apply hex_digit_safe|].
  constructor; [by apply hex_digit_safe|done].
Qed.

Lemma be_bytes_isByte (n : nat) (x : Z) : Forall isByte (Sha256.be_bytes n x).
Proof.
  induction n as [|n IH]; [constructor|].
  cbn [Sha256.be_bytes]. constructor; [|done].
  unfold isByte. change 0xFF with (Z.ones 8). rewrite Z.land_ones by lia.
  apply Z.mod_pos_bound. lia.
Qed.

Lemma Sum256_isByte (msg : list Z) : Forall isByte (Sha256.Sum256 msg).
Proof.
  unfold Sha256.Sum256.
  generalize (fold_left Sha256.compress
                (Sha256.chunks 64 (length (Sha256.pad msg)) (Sha256.pad msg)) Sha256.H0).
  intros h. induction h as [|x h IH]; [constructor|].
  cbn [flat_map]. apply Forall_app. split; [apply be_bytes_isByte|done].
Qed.

(** X4: The name of the cache file is made of lower-case letters, digits and
    the characters [~ - . /], whatever the host and the path of the URL
    hold. *)
Theorem makeFilenameFromUrl_safe_characters (crlUrl : URL) :
  Forall (fun c => safeChar c = true) (chars (makeFilenameFromUrl crlUrl)).
Proof.
  unfold makeFilenameFromUrl. rewrite !chars_append.
  repeat apply Forall_app_2.
  - apply TrimSuffix_Forall, removeIllegal_safe. apply lower_from_not_upper.
  - by repeat constructor.
  - apply EncodeToString_safe. apply Forall_take. apply Sum256_isByte.
  - by repeat constructor.
Qed.

(** *** Two URLs with one name *)

Lemma unhex_hex_digit (d : Z) : 0 <= d < 16 -> unhex (hex_digit d) = d.
Proof.
  intros H. apply hex_digit_cases in H. cbn in H.
  repeat (destruct H as [<-|H]; [reflexivity|]). done.
Qed.

Lemma byte_of_nibbles (b : Z) : isByte b -> b = 16 * Z.shiftr b 4 + Z.land b 0xF.
Proof.
  unfold isByte. intros H.
  rewrite Z.shiftr_div_pow2 by lia.
  change 0xF with (Z.ones 4). rewrite Z.land_ones by lia.
  change (2 ^ 4) with 16. apply Z.div_mod. lia.
Qed.

Lemma EncodeToString_inj (bs1 : list Z) : forall bs2,
  Forall isByte bs1 -> Forall isByte bs2 ->
  EncodeToString bs1 = EncodeToString bs2 -> bs1 = bs2.
Proof.
  induction bs1 as [|b1 bs1 IH]; intros [|b2 bs2] H1 H2 Heq; try done.
  inversion H1 as [|? ? Hb1 Hbs1]; inversion H2 as [|? ? Hb2 Hbs2]; subst.
  cbn in Heq. injection Heq as Hhi Hlo Hrest.
  destruct (byte_nibbles b1 Hb1) as [Hhi1 Hlo1].
  destruct (byte_nibbles b2 Hb2) as [Hhi2 Hlo2].
  apply (f_equal unhex) in Hhi, Hlo.
  rewrite !unhex_hex_digit in Hhi, Hlo by done.
  f_equal; [|by apply IH].
  rewrite (byte_of_nibbles b1 Hb1), (byte_of_nibbles b2 Hb2). lia.
Qed.

(** X5: Two URLs get the same file name only if the first 8 bytes of the
    SHA-256 of their full strings agree, and the readable parts of the
    name as well. *)
Theorem makeFilenameFromUrl_collision (u1 u2 : URL) :
  makeFilenameFromUrl u1 = makeFilenameFromUrl u2 ->
  firstn 8 (Sha256.Sum256 (bytes_of_string (String_ u1)))
  = firstn 8 (Sha256.Sum256 (bytes_of_string (String_ u2)))
  /\ TrimSuffix (removeIllegal (ToLower (Hostname u1 +:+ "-" +:+ Base (Path u1)))) ".crl"
     = TrimSuffix (removeIllegal (ToLower (Hostname u2 +:+ "-" +:+ Base (Path u2)))) ".crl".
Proof.
  unfold makeFilenameFromUrl.
  set (r1 := TrimSuffix _ _). set (r2 := TrimSuffix _ _).
  intros Heq. apply (f_equal chars) in Heq. rewrite !chars_append in Heq.
  assert (Hd : forall u, length (chars (EncodeToString
                 (firstn 8 (Sha256.Sum256 (bytes_of_string (String_ u)))))) = 16%nat).
  { intros u. rewrite chars_length.
    rewrite EncodeToString_length, length_firstn, Sum256_length. reflexivity. }
  apply app_inj_2 in Heq as [Hr Htail].
  - split; [|by apply chars_inj].
    cbn [chars list_ascii_of_string app] in Htail. injection Htail as Htail.
    apply app_inv_tail in Htail. apply chars_inj in Htail.
    apply EncodeToString_inj in Htail; [done| |];
      apply Forall_take, Sum256_isByte.
  - rewrite !length_app. rewrite (Hd u1), (Hd u2). reflexivity.
Qed.

Lemma makeFilenameFromUrl_collision_witness :
  let u1 := mkURL "CRL.Example.com" "/ca/root.crl" "http://crl.example.com/ca/root.crl" in
  let u2 := mkURL "crl.example.com" "/CA/Root.CRL" "http://crl.example.com/ca/root.crl" in
  firstn 8 (Sha256.Sum256 (bytes_of_string (String_ u1)))
  = firstn 8 (Sha256.Sum256 (bytes_of_string (String_ u2))).
Proof.
  intros u1 u2.
  apply (makeFilenameFromUrl_collision u1 u2). vm_compute. reflexivity.
Defined.

End MoreFilename.

(* ===================================================================== *)
(** ** More on processCRL *)
(* ===================================================================== *)

Section MoreProcessCRL.
Import Types Filename Engine Run Behaviour.

(** X6: [processCRL] always returns to its caller, and of the world it changes
    the log alone, by at most two lines, none of them an error: the disk,
    the clock, the enrollment and the store are as before. *)
Theorem processCRL_changes_the_log_only ext aPath cert w :
  exists r lines,
    processCRL ext aPath cert w
    = (Ok r, mkWorld (files w) (clock w) (signals w) (enrolled w) (saved w) (log w ++ lines))
    /\ (length lines <= 2)%nat
    /\ Forall (fun line => fst line = INFO \/ fst line = WARNING) lines.
Proof.
  rewrite processCRL_run.
  exists (crlResult ext (files w) aPath cert), (crlLog ext (files w) (clock w) aPath cert).
  split.
  - unfold after. by rewrite app_nil_r.
  - assert (Hexp : (length (expiryLog ext (files w) (clock w) aPath cert) <= 1)%nat
                   /\ Forall (fun line => fst line = INFO \/ fst line = WARNING)
                        (expiryLog ext (files w) (clock w) aPath cert)).
    { unfold expiryLog.
      destruct (files w !! aPath) as [f|]; [|by split; [cbn; lia|constructor]].
      destruct (ParseCRL ext (fileData f)) as [e|crl]; [by split; [cbn; lia|constructor]|].
      destruct (CheckCRLSignature ext cert crl) as [e|]; [by split; [cbn; lia|constructor]|].
      destruct (HasExpired ext crl (clock w)); (split; [cbn; lia|]).
      - constructor; [by right|constructor].
      - constructor. }
    destruct Hexp as [Hlen Hall]. unfold crlLog. rewrite length_app. split.
    + destruct (1 <=? verbosity ext); cbn; lia.
    + apply Forall_app_2; [|done].
      destruct (1 <=? verbosity ext); [|constructor].
      constructor; [by left|constructor].
Qed.

(** X7: [processCRL] returns a nil error exactly when the file is there, parses,
    verifies against the certificate and its list decodes; the serials are
    then those of the list, in its order. *)
Theorem processCRL_succeeds_iff_verified ext aPath cert w (revokedSerials : list Serial) :
  fst (processCRL ext aPath cert w) = Ok (revokedSerials, None)
  <-> exists f crl revokedList,
        files w !! aPath = Some f
        /\ ParseCRL ext (fileData f) = inr crl
        /\ CheckCRLSignature ext cert crl = None
        /\ DecodeRawTBSCertList ext (TBSCertList_Raw crl) = inr revokedList
        /\ revokedSerials
           = map (fun ent => NewSerialFromBytes (SerialNumber_Bytes ent)) revokedList.
Proof.
  rewrite processCRL_run. cbn [fst]. unfold crlResult. split.
  - destruct (files w !! aPath) as [f|] eqn:Efile; [|done].
    destruct (ParseCRL ext (fileData f)) as [e|crl] eqn:Eparse; [done|].
    destruct (CheckCRLSignature ext cert crl) as [e|] eqn:Esig; [done|].
    destruct (DecodeRawTBSCertList ext (TBSCertList_Raw crl)) as [e|revoked] eqn:Edec;
      [done|].
    intros [= <-]. exists f, crl, revoked. repeat split; auto.
  - intros (f & crl & revoked & -> & -> & -> & -> & ->). done.
Qed.

(** X8: The error names the first step that fails, in the order: read, parse,
    verify, decode. A signature that does not verify is reported before the
    list is decoded. *)
Theorem processCRL_reports_first_failure ext aPath cert w :
  ((exists e, returnedError ext aPath cert w = Some (ReadError e))
   <-> files w !! aPath = None)
  /\ (forall f,
        files w !! aPath = Some f ->
        ((exists e, returnedError ext aPath cert w = Some (ParseError e))
         <-> exists e, ParseCRL ext (fileData f) = inl e)
        /\ (forall crl,
              ParseCRL ext (fileData f) = inr crl ->
              (forall e, returnedError ext aPath cert w = Some (SignatureError e)
                         <-> CheckCRLSignature ext cert crl = Some e)
              /\ (forall e, returnedError ext aPath cert w = Some (DecodeError e)
                            <-> CheckCRLSignature ext cert crl = None
                                /\ DecodeRawTBSCertList ext (TBSCertList_Raw crl) = inl e))).
Proof.
  unfold returnedError. rewrite processCRL_run. cbn [fst]. unfold crlResult.
  split.
  - destruct (files w !! aPath) as [f|].
    + split; [|done]. intros [e He].
      destruct (ParseCRL ext (fileData f)) as [?|crl]; [done|].
      destruct (CheckCRLSignature ext cert crl); [done|].
      by destruct (DecodeRawTBSCertList ext (TBSCertList_Raw crl)).
    + split; [done|]. intros _. eauto.
  - intros f ->. split.
    + destruct (ParseCRL ext (fileData f)) as [e|crl].
      * split; eauto.
      * split; [|by intros [e He]]. intros [e He].
        destruct (CheckCRLSignature ext cert crl); [done|].
        by destruct (DecodeRawTBSCertList ext (TBSCertList_Raw crl)).
    + intros crl ->. split; intros e.
      * destruct (CheckCRLSignature ext cert crl) as [e'|].
        -- split; congruence.
        -- split; [|done].
           by destruct (DecodeRawTBSCertList ext (TBSCertList_Raw crl)).
      * destruct (CheckCRLSignature ext cert crl) as [e'|].
        -- split; [done|by intros [? _]].
        -- destruct (DecodeRawTBSCertList ext (TBSCertList_Raw crl)) as [e'|revoked].
           ++ split; [intros [= <-]; done|intros [_ [= <-]]; done].
           ++ split; [done|by intros [_ ?]].
Qed.

End MoreProcessCRL.

(* ===================================================================== *)
(** ** What a stage leaves alone *)
(* ===================================================================== *)

Section Frames.
Import Types Filename Engine Run Behaviour.

(** *** Rules for [ensures], for a relation that composes *)

Section Rules.
Variable R : World -> World -> Prop.
Hypothesis R_refl : forall w, R w w.
Hypothesis R_trans : forall w1 w2 w3, R w1 w2 -> R w2 w3 -> R w1 w3.

Lemma ensures_ret {A} (Q : A -> Prop) (a : A) : Q a -> ensures R Q (ret a).
Proof. intros Ha w. split; [apply R_refl|]. by intros a' [= <-]. Qed.

Lemma ensures_bind {A B} (Q1 : A -> Prop) (Q2 : B -> Prop) (m : M A) (f : A -> M B) :
  ensures R Q1 m -> (forall a, Q1 a -> ensures R Q2 (f a)) -> ensures R Q2 (bind m f).
Proof.
  intros Hm Hf w. unfold bind. destruct (Hm w) as [Hw Ha].
  destruct (m w) as [[a| |] w1]; cbn [fst snd] in *.
  - destruct (Hf a (Ha a eq_refl) w1) as [Hw1 Hb]. split; [|done].
    by apply (R_trans w w1).
  - by split.
  - by split.
Qed.

Lemma ensures_weaken {A} (Q Q' : A -> Prop) (m : M A) :
  ensures R Q m -> (forall a, Q a -> Q' a) -> ensures R Q' m.
Proof.
  intros Hm HQ w. destruct (Hm w) as [Hw Ha]. split; [done|].
  intros a Hr. by apply HQ, Ha.
Qed.

Lemma ensures_then {A B} (Q : B -> Prop) (m : M A) (f : A -> M B) :
  ensures R (fun _ => True) m -> (forall a, ensures R Q (f a)) -> ensures R Q (bind m f).
Proof. intros Hm Hf. apply (ensures_bind (fun _ => True)); [done|]. intros a _. apply Hf. Qed.

Lemma ensures_forEach {S A} (Q : S -> Prop) (body : S -> A -> M S) (l : list A) :
  (forall s a, Q s -> ensures R Q (body s a)) ->
  forall s, Q s -> ensures R Q (forEach body s l).
Proof.
  intros Hbody. induction l as [|a l IH]; intros s Hs.
  - by apply ensures_ret.
  - cbn [forEach]. apply (ensures_bind Q); [by apply Hbody|]. intros s' Hs'. by apply IH.
Qed.

Lemma ensures_pool {A B} ext (P : B -> Prop) (worker : list A -> M B) (chan : list A) :
  (forall work, ensures R P (worker work)) ->
  ensures R (Forall P) (pool ext worker chan).
Proof.
  intros Hworker. unfold pool. apply ensures_forEach; [|constructor].
  intros results work Hresults. apply (ensures_bind P); [apply Hworker|].
  intros r Hr. apply ensures_ret. apply Forall_app_2; [done|]. by constructor.
Qed.

Lemma ensures_quit {A} (Q : A -> Prop) : ensures R Q quit.
Proof. intros w. split; [apply R_refl|]. by intros a. Qed.

Lemma ensures_timeNow : ensures R (fun _ => True) timeNow.
Proof. intros w. split; [apply R_refl|done]. Qed.

Lemma ensures_ReadFile aPath : ensures R (fun _ => True) (ReadFile aPath).
Proof.
  intros w. split; [|done]. unfold ReadFile.
  destruct (files w !! aPath); apply R_refl.
Qed.

Lemma ensures_GetSizeAndDateOfFile aPath :
  ensures R (fun _ => True) (GetSizeAndDateOfFile aPath).
Proof.
  intros w. split; [|done]. unfold GetSizeAndDateOfFile.
  destruct (files w !! aPath); apply R_refl.
Qed.

(** *** The code that logs and polls the quit channel *)

Hypothesis R_logf : forall sev msg w, R w (snd (logf sev msg w)).
Hypothesis R_pollQuit : forall w, R w (snd (pollQuit w)).

Lemma ensures_logf sev msg : ensures R (fun _ => True) (logf sev msg).
Proof. intros w. split; [apply R_logf|done]. Qed.

Lemma ensures_fatalf {A} (Q : A -> Prop) msg : ensures R Q (fatalf msg).
Proof. intros w. split; [apply R_logf|]. by intros a. Qed.

Lemma ensures_pollQuit : ensures R (fun _ => True) pollQuit.
Proof. intros w. split; [apply R_pollQuit|done]. Qed.

Ltac frame_with tac :=
  repeat first
    [ progress intros
    | progress cbv beta zeta
    | tac
    | apply ensures_then
    | apply ensures_ret; exact I
    | apply ensures_logf
    | apply ensures_fatalf
    | apply ensures_quit
    | apply ensures_pollQuit
    | apply ensures_timeNow
    | apply ensures_ReadFile
    | apply ensures_GetSizeAndDateOfFile
    | match goal with
      | |- ensures _ _ (match ?x with _ => _ end) => destruct x
      end ].

Ltac frame := frame_with fail.

Lemma ensures_processCRL ext aPath cert :
  ensures R (fun _ => True) (processCRL ext aPath cert).
Proof. unfold processCRL, logV1. frame. Qed.

Lemma ensures_findCrlIssuer ext m issuer :
  ensures R (fun _ => True) (findCrlIssuer ext m issuer).
Proof. unfold findCrlIssuer. frame. Qed.

Lemma ensures_findCrlWorker ext issuerChan :
  ensures R (fun _ => True) (findCrlWorker ext issuerChan).
Proof.
  unfold findCrlWorker. apply ensures_forEach; [|done].
  intros m issuer _. apply ensures_findCrlIssuer.
Qed.

Lemma ensures_identifyCrlsByIssuer ext :
  ensures R (fun _ => True) (identifyCrlsByIssuer ext).
Proof.
  unfold identifyCrlsByIssuer.
  frame_with ltac:(eapply ensures_weaken;
                   [apply ensures_pool; intros; apply ensures_findCrlWorker|done]).
Qed.

Lemma ensures_parseUrl ext urls iUrl : ensures R (fun _ => True) (parseUrl ext urls iUrl).
Proof. unfold parseUrl. frame. Qed.

Lemma ensures_dispatch ext (issuerToUrls : IssuerCrlMap) :
  ensures R (fun _ => True) (dispatch ext issuerToUrls).
Proof.
  unfold dispatch. apply ensures_forEach; [|done].
  intros crlChan entry _. unfold dispatchIssuer.
  frame_with ltac:(apply ensures_forEach; [intros; apply ensures_parseUrl|done]).
Qed.

(** *** The retrieval stage, which also writes the disk *)

Section Retrieval.
Hypothesis R_download : forall ext crlUrl tmpPath w, R w (snd (download ext crlUrl tmpPath w)).
Hypothesis R_rename : forall ext oldpath newpath w, R w (snd (rename ext oldpath newpath w)).

Lemma ensures_download ext crlUrl tmpPath :
  ensures R (fun _ => True) (download ext crlUrl tmpPath).
Proof. intros w. split; [apply R_download|done]. Qed.

Lemma ensures_rename ext oldpath newpath :
  ensures R (fun _ => True) (rename ext oldpath newpath).
Proof. intros w. split; [apply R_rename|done]. Qed.

Lemma ensures_fetchUrl ext issuer paths crlUrl :
  ensures R (fun _ => True) (fetchUrl ext issuer paths crlUrl).
Proof.
  unfold fetchUrl, downloadAndValidate, acceptFinalPath.
  frame_with ltac:(first [apply ensures_download | apply ensures_rename
                         | apply ensures_processCRL]).
Qed.

Lemma ensures_crlFetchWorker ext crlsChan :
  ensures R (fun _ => True) (crlFetchWorker ext crlsChan).
Proof.
  unfold crlFetchWorker. apply ensures_forEach; [|done].
  intros resultChan tuple _. unfold fetchIssuer.
  frame_with ltac:(apply ensures_forEach; [intros; apply ensures_fetchUrl|done]).
Qed.

Lemma ensures_downloadCRLs ext (issuerToUrls : IssuerCrlMap) :
  ensures R (fun _ => True) (downloadCRLs ext issuerToUrls).
Proof.
  unfold downloadCRLs.
  frame_with ltac:(first [apply ensures_dispatch
                         | eapply ensures_weaken;
                           [apply ensures_pool; intros; apply ensures_crlFetchWorker|done]]).
Qed.

End Retrieval.

(** *** The aggregation stage, which also enrolls and stores *)

Section Aggregation.
Hypothesis R_Enroll : forall issuer w, R w (snd (Enroll issuer w)).
Hypothesis R_Store : forall ext issuer serials w, R w (snd (Store ext issuer serials w)).

Lemma ensures_Enroll issuer : ensures R (fun _ => True) (Enroll issuer).
Proof. intros w. split; [apply R_Enroll|done]. Qed.

Lemma ensures_Store ext issuer serials : ensures R (fun _ => True) (Store ext issuer serials).
Proof. intros w. split; [apply R_Store|done]. Qed.

Lemma ensures_aggregatePath ext cert issuer st crlPath :
  ensures R (fun _ => True) (aggregatePath ext cert issuer st crlPath).
Proof.
  unfold aggregatePath.
  frame_with ltac:(first [apply ensures_Enroll | apply ensures_processCRL]).
Qed.

Lemma ensures_aggregateCRLWorker ext workChan :
  ensures R (fun _ => True) (aggregateCRLWorker ext workChan).
Proof.
  unfold aggregateCRLWorker. apply ensures_forEach; [|done].
  intros [] tuple _. unfold aggregateIssuer.
  frame_with ltac:(first [apply ensures_Store
                         | apply ensures_forEach;
                           [intros; apply ensures_aggregatePath|done]]).
Qed.

Lemma ensures_aggregateCRLs ext crlPaths :
  ensures R (fun _ => True) (aggregateCRLs ext crlPaths).
Proof.
  unfold aggregateCRLs.
  frame_with ltac:(eapply ensures_weaken;
                   [apply ensures_pool; intros; apply ensures_aggregateCRLWorker|done]).
Qed.

End Aggregation.
End Rules.

(** *** The two relations *)

Lemma sameRegistry_refl w : sameRegistry w w.
Proof. by split. Qed.

Lemma sameRegistry_trans w1 w2 w3 :
  sameRegistry w1 w2 -> sameRegistry w2 w3 -> sameRegistry w1 w3.
Proof. intros [H1 H2] [H3 H4]. split; congruence. Qed.

Lemma sameCrlFiles_refl w : sameCrlFiles w w.
Proof. done. Qed.

Lemma sameCrlFiles_trans w1 w2 w3 :
  sameCrlFiles w1 w2 -> sameCrlFiles w2 w3 -> sameCrlFiles w1 w3.
Proof. unfold sameCrlFiles. congruence. Qed.

Lemma pollQuit_same w :
  sameRegistry w (snd (pollQuit w)) /\ sameCrlFiles w (snd (pollQuit w)).
Proof. unfold pollQuit. by destruct (signals w) as [|q rest]. Qed.

Lemma download_sameRegistry ext crlUrl tmpPath w :
  sameRegistry w (snd (download ext crlUrl tmpPath w)).
Proof.
  unfold download.
  by destruct (DownloadFileSync ext crlUrl tmpPath (files w) (clock w)) as [[err f] c].
Qed.

Lemma rename_sameRegistry ext oldpath newpath w :
  sameRegistry w (snd (rename ext oldpath newpath w)).
Proof. unfold rename. by destruct (Rename ext oldpath newpath (files w)) as [err f]. Qed.

Lemma Store_sameCrlFiles ext issuer l w : sameCrlFiles w (snd (Store ext issuer l w)).
Proof. unfold Store. by destruct (StoreKnownCertificateList ext issuer l). Qed.

Lemma identifyCrlsByIssuer_sameRegistry ext w :
  sameRegistry w (snd (identifyCrlsByIssuer ext w)).
Proof.
  apply (ensures_identifyCrlsByIssuer sameRegistry sameRegistry_refl sameRegistry_trans).
  - done.
  - intros w'. apply pollQuit_same.
Qed.

Lemma downloadCRLs_sameRegistry ext (issuerToUrls : IssuerCrlMap) w :
  sameRegistry w (snd (downloadCRLs ext issuerToUrls w)).
Proof.
  apply (ensures_downloadCRLs sameRegistry sameRegistry_refl sameRegistry_trans).
  - done.
  - intros w'. apply pollQuit_same.
  - apply download_sameRegistry.
  - apply rename_sameRegistry.
Qed.

(** X9: The discovery stage and the retrieval stage prepare the aggregation and
    no more: whatever the cache, the network and the signals, they call
    neither [Enroll] nor [StoreKnownCertificateList]. *)
Theorem discovery_and_retrieval_never_enroll_or_store ext :
  (forall w, sameRegistry w (snd (identifyCrlsByIssuer ext w)))
  /\ (forall issuerToUrls w, sameRegistry w (snd (downloadCRLs ext issuerToUrls w))).
Proof.
  split.
  - apply identifyCrlsByIssuer_sameRegistry.
  - apply downloadCRLs_sameRegistry.
Qed.

(** X10: Neither the discovery stage nor the aggregation stage changes a CRL
    file: whatever the signals and the errors, the files that [processCRL]
    reads, and that the retrieval stage downloads and renames, are after
    [identifyCrlsByIssuer] and after [aggregateCRLs] what they were before.
    The aggregation stage writes through [Enroll] and
    [StoreKnownCertificateList] alone; the lists it stores are kept apart
    from the CRL files (in [main] the storage backend is a directory of its
    own, [revokedpath]), and they are not what this statement is about. *)
Theorem discovery_and_aggregation_keep_the_crl_files ext :
  (forall w, files (snd (identifyCrlsByIssuer ext w)) = files w)
  /\ (forall crlPaths w, files (snd (aggregateCRLs ext crlPaths w)) = files w).
Proof.
  split.
  - intros w.
    apply (ensures_identifyCrlsByIssuer sameCrlFiles sameCrlFiles_refl sameCrlFiles_trans).
    + done.
    + intros w'. apply pollQuit_same.
  - intros crlPaths w.
    apply (ensures_aggregateCRLs sameCrlFiles sameCrlFiles_refl sameCrlFiles_trans).
    + done.
    + intros w'. apply pollQuit_same.
    + done.
    + apply Store_sameCrlFiles.
Qed.

End Frames.

(* ===================================================================== *)
(** ** More on the aggregation stage *)
(* ===================================================================== *)

Section MoreAggregation.
Import Types Filename Engine Run Behaviour.

(** *** What the accumulator holds *)

Lemma validSerials_app ext disk cert l1 l2 :
  validSerials ext disk cert (l1 ++ l2)
  = validSerials ext disk cert l1 ++ validSerials ext disk cert l2.
Proof. unfold validSerials. by rewrite map_app, concat_app. Qed.

Lemma validSerials_one ext disk cert p :
  validSerials ext disk cert [p]
  = if contributes (crlResult ext disk p cert) then fst (crlResult ext disk p cert) else [].
Proof. unfold validSerials. cbn. by rewrite app_nil_r. Qed.

Lemma contributes_nonempty r : contributes r = true -> fst r <> [].
Proof.
  unfold contributes. destruct (snd r); [done|].
  intros H Hnil. rewrite Hnil in H. done.
Qed.

Lemma validSerials_nil ext disk cert paths :
  validSerials ext disk cert paths = []
  <-> existsb (fun p => contributes (crlResult ext disk p cert)) paths = false.
Proof.
  induction paths as [|p paths IH]; [done|].
  change (p :: paths) with ([p] ++ paths) at 1.
  rewrite validSerials_app, validSerials_one. cbn [existsb].
  destruct (contributes (crlResult ext disk p cert)) eqn:Ep; cbn [orb app].
  - split; [|done]. intros H. apply app_eq_nil in H as [H _].
    by apply contributes_nonempty in Ep.
  - exact IH.
Qed.

Lemma regrow_elems st n :
  elems (regrow st n) = elems (serials st) \/ elems (regrow st n) = [].
Proof.
  unfold regrow. destruct (capacity (serials st) <? n + serialCount st); [right|by left].
  reflexivity.
Qed.

(** The accumulator holds the serials of the valid CRLs of a tail of the
    paths, and the counter counts those of all the paths. *)
Lemma aggFold_tail ext disk cert paths : forall before st,
  (exists k, (k <= length before)%nat
             /\ elems (serials st) = validSerials ext disk cert (drop k before)) ->
  serialCount st = len (validSerials ext disk cert before) ->
  (issuerEnrolled st = true <-> elems (serials st) <> []) ->
  let st' := aggFold ext disk cert st paths in
  (exists k, (k <= length (before ++ paths))%nat
             /\ elems (serials st') = validSerials ext disk cert (drop k (before ++ paths)))
  /\ serialCount st' = len (validSerials ext disk cert (before ++ paths))
  /\ (issuerEnrolled st' = true <-> elems (serials st') <> []).
Proof.
  induction paths as [|p paths IH]; intros before st Htail Hcount Hflag.
  - cbn. by rewrite app_nil_r.
  - change (aggFold ext disk cert st (p :: paths))
      with (aggFold ext disk cert (aggStep (growslice ext) st (crlResult ext disk p cert)) paths).
    replace (before ++ p :: paths) with ((before ++ [p]) ++ paths) by by rewrite <- app_assoc.
    destruct Htail as (k & Hk & Htail).
    apply IH; unfold aggStep; rewrite ?validSerials_app, ?validSerials_one;
      destruct (contributes (crlResult ext disk p cert)) eqn:Ep;
      cbn [serials serialCount issuerEnrolled append elems].
    + destruct (regrow_elems st (len (fst (crlResult ext disk p cert)))) as [-> | ->].
      * exists k. rewrite length_app. split; [lia|].
        rewrite drop_app_le by done. by rewrite validSerials_app, validSerials_one, Ep, Htail.
      * exists (length before). rewrite length_app. split; [lia|].
        by rewrite drop_app_length, validSerials_one, Ep.
    + exists k. rewrite length_app. split; [lia|].
      rewrite drop_app_le by done.
      by rewrite validSerials_app, validSerials_one, Ep, app_nil_r.
    + rewrite len_app. lia.
    + by rewrite app_nil_r.
    + split; [|done]. intros _ H. apply app_eq_nil in H as [_ H].
      by apply contributes_nonempty in Ep.
    + done.
Qed.

(** X11: Whatever the sizes of the CRLs, the list stored for an issuer is never
    empty and holds the serials of the valid CRLs of a tail of the issuer's
    paths, in their order: no serial of another file, none twice. The
    count that is logged is the one of all the paths. An issuer without a
    valid serial is neither enrolled nor stored. *)
Theorem aggregator_stores_a_tail_of_the_serials ext tuple cert w :
  signals w = [] ->
  GetCertificateForIssuer ext (paths_Issuer tuple) = inr cert ->
  (forall l, StoreKnownCertificateList ext (paths_Issuer tuple) l = None) ->
  let issuer := paths_Issuer tuple in
  let all := validSerials ext (files w) cert (CrlPaths tuple) in
  let w' := snd (aggregateIssuer ext tuple w) in
  (all = [] -> saved w' = saved w /\ enrolled w' = enrolled w)
  /\ (all <> [] ->
      exists k tail,
        tail = validSerials ext (files w) cert (drop k (CrlPaths tuple))
        /\ tail <> []
        /\ saved w' = <[issuer := tail]> (saved w)
        /\ enrolled w' = enrolled w ++ [issuer]
        /\ In (INFO, MsgSaving issuer (len all)) (log w')).
Proof.
  intros Hq Hcert Hstore issuer all w'. subst w'.
  rewrite (aggregateIssuer_run ext tuple cert) by done. cbv zeta. fold issuer.
  destruct (aggFold_tail ext (files w) cert (CrlPaths tuple) [] aggInit)
    as ((k & _ & Htail) & Hcount & Hflag).
  { exists 0%nat. by split. }
  { done. }
  { done. }
  cbn [app] in Htail, Hcount. fold all in Hcount.
  set (st := aggFold ext (files w) cert aggInit (CrlPaths tuple)) in *.
  assert (Hen : issuerEnrolled st = negb (bool_decide (all = []))).
  { unfold st. rewrite aggFold_enrolled. cbn [aggInit issuerEnrolled orb].
    destruct (existsb _ _) eqn:Eex.
    - rewrite bool_decide_eq_false_2; [done|]. intros Hnil.
      apply validSerials_nil in Hnil. congruence.
    - rewrite bool_decide_eq_true_2; [done|]. by apply validSerials_nil. }
  split.
  - intros Hnil. rewrite Hen, bool_decide_eq_true_2 by done. cbn. by rewrite app_nil_r.
  - intros Hne. rewrite Hen, bool_decide_eq_false_2 by done. cbn [negb].
    rewrite Hstore. cbn [snd stored after saved enrolled log].
    exists k, (elems (serials st)). split; [done|]. split.
    + apply Hflag. rewrite Hen, bool_decide_eq_false_2; done.
    + split; [done|]. split; [done|].
      rewrite Hcount. apply in_or_app. right. apply in_or_app. right. by left.
Qed.

Lemma aggregator_stores_a_tail_of_the_serials_witness :
  let tuple := mkIssuerCrlPaths "X" ["three.crl"; "forged.crl"; "one.crl"] in
  exists k,
    saved (snd (aggregateIssuer Demo.ext tuple Demo.aggDisk))
    = {[ "X"%string := validSerials Demo.ext (files Demo.aggDisk) [1] (drop k (CrlPaths tuple)) ]}.
Proof.
  intros tuple.
  destruct (aggregator_stores_a_tail_of_the_serials Demo.ext tuple [1] Demo.aggDisk
              eq_refl eq_refl (fun _ => eq_refl)) as [_ H].
  destruct H as (k & tail & -> & _ & Hsaved & _); [by vm_compute|].
  exists k. exact Hsaved.
Defined.

(** X12: An issuer whose valid CRLs hold no more than [128*1024] serials: the
    run of the worker on its tuple is known in full. The serials of every
    valid CRL are stored, file after file; the issuer is enrolled once; the
    log ends with the count of the stored list. *)
Theorem aggregator_stores_all_within_capacity ext tuple cert w :
  signals w = [] ->
  GetCertificateForIssuer ext (paths_Issuer tuple) = inr cert ->
  let issuer := paths_Issuer tuple in
  let all := validSerials ext (files w) cert (CrlPaths tuple) in
  all <> [] ->
  len all <= 128 * 1024 ->
  StoreKnownCertificateList ext issuer all = None ->
  aggregateIssuer ext tuple w
  = (Ok tt,
     mkWorld (files w) (clock w) [] (enrolled w ++ [issuer]) (<[issuer := all]> (saved w))
             (log w ++ flat_map (pathLog ext (files w) (clock w) cert) (CrlPaths tuple)
                    ++ [(INFO, MsgSaving issuer (len all))])).
Proof.
  intros Hq Hcert issuer all Hne Hfit Hstore.
  rewrite (aggregateIssuer_run ext tuple cert) by done. cbv zeta. fold issuer.
  destruct (aggFold_within_capacity ext (files w) cert (CrlPaths tuple) aggInit)
    as (He & _ & Hn); [done| cbn; fold all; lia |].
  change (elems (serials aggInit)) with (@nil Serial) in He. cbn [app] in He.
  fold all in He. rewrite Hn, He, Hstore.
  rewrite aggFold_enrolled. cbn [aggInit issuerEnrolled orb].
  destruct (existsb _ _) eqn:Eex.
  - unfold stored, after. cbn [files clock signals enrolled saved log]. by rewrite Hq.
  - apply validSerials_nil in Eex. done.
Qed.

Lemma aggregator_stores_all_within_capacity_witness :
  saved (snd (aggregateIssuer Demo.ext
                (mkIssuerCrlPaths "X" ["three.crl"; "junk.crl"; "one.crl"]) Demo.aggDisk))
  = {[ "X"%string := [[5]; [6]; [7]; [9]] ]}.
Proof.
  rewrite (aggregator_stores_all_within_capacity Demo.ext
             (mkIssuerCrlPaths "X" ["three.crl"; "junk.crl"; "one.crl"]) [1] Demo.aggDisk
             eq_refl eq_refl);
    [reflexivity | by vm_compute | by vm_compute | reflexivity].
Defined.

(** *** Errors and signals *)

Lemma forEach_app {S A} (body : S -> A -> M S) (l1 l2 : list A) : forall s w,
  forEach body s (l1 ++ l2) w
  = bind (forEach body s l1) (fun s' => forEach body s' l2) w.
Proof.
  induction l1 as [|a l1 IH]; intros s w; [reflexivity|].
  cbn [app forEach]. unfold bind.
  destruct (body s a w) as [[s'| |] w1]; [|reflexivity|reflexivity].
  rewrite IH. reflexivity.
Qed.

(** X13: An issuer whose certificate is not known ends the process: nothing of
    its CRLs is read, it is neither enrolled nor stored, and the tuples
    behind it on the channel are not processed. *)
Theorem missing_certificate_stops_the_worker ext before tuple rest err w :
  GetCertificateForIssuer ext (paths_Issuer tuple) = inl err ->
  fst (aggregateCRLWorker ext before w) = Ok tt ->
  let w1 := snd (aggregateCRLWorker ext before w) in
  aggregateCRLWorker ext (before ++ tuple :: rest) w
  = (Fatal,
     mkWorld (files w1) (clock w1) (signals w1) (enrolled w1) (saved w1)
             (log w1 ++ [(FATAL, MsgNoCertificate (paths_Issuer tuple) err)])).
Proof.
  intros Hcert Hbefore w1. subst w1. unfold aggregateCRLWorker in *.
  rewrite forEach_app. unfold bind at 1.
  destruct (forEach _ tt before w) as [r w1]. cbn [fst snd] in *. subst r.
  cbn [forEach]. unfold bind, aggregateIssuer. rewrite Hcert. reflexivity.
Qed.

Lemma missing_certificate_stops_the_worker_witness :
  fst (aggregateCRLWorker Demo.ext
         [mkIssuerCrlPaths "X" ["one.crl"]; mkIssuerCrlPaths "W" ["three.crl"];
          mkIssuerCrlPaths "Y" ["forged.crl"]] Demo.aggDisk) = Fatal
  /\ saved (snd (aggregateCRLWorker Demo.ext
                   [mkIssuerCrlPaths "X" ["one.crl"]; mkIssuerCrlPaths "W" ["three.crl"];
                    mkIssuerCrlPaths "Y" ["forged.crl"]] Demo.aggDisk))
     = {[ "X"%string := [[9]] ]}.
Proof.
  pose proof (missing_certificate_stops_the_worker Demo.ext
                [mkIssuerCrlPaths "X" ["one.crl"]] (mkIssuerCrlPaths "W" ["three.crl"])
                [mkIssuerCrlPaths "Y" ["forged.crl"]] "unknown issuer" Demo.aggDisk
                eq_refl eq_refl) as H.
  cbv zeta in H. cbn [app] in H. rewrite H.
  split; reflexivity.
Defined.

(** Whatever the signals, a step of the loop that returns has done what it
    does without a signal, and no step touches the store. *)
Lemma aggregatePath_return ext cert issuer st crlPath w :
  saved (snd (aggregatePath ext cert issuer st crlPath w)) = saved w
  /\ files (snd (aggregatePath ext cert issuer st crlPath w)) = files w
  /\ forall st',
       fst (aggregatePath ext cert issuer st crlPath w) = Ok st' ->
       st' = aggStep (growslice ext) st (crlResult ext (files w) crlPath cert)
       /\ enrolled (snd (aggregatePath ext cert issuer st crlPath w))
          = enrolled w ++ enrollCall issuer st st'.
Proof.
  unfold aggregatePath, bind, pollQuit.
  destruct (signals w) as [|[|] rest]; [|by repeat split|].
  all: rewrite processCRL_run; cbn [files clock].
  all: unfold aggStep, contributes, enrollCall, regrow.
  all: destruct (crlResult ext (files w) crlPath cert) as [l [e|]]; cbn [fst snd].
  all: try rewrite logf_run.
  all: try destruct (len l =? 0).
  all: try destruct (issuerEnrolled st) eqn:Est.
  all: cbn; (split; [done|split; [done|]]); intros st' [= <-]; cbn; rewrite ?Est; cbn;
    by rewrite ?app_nil_r.
Qed.

Lemma aggregateLoop_return ext cert issuer paths : forall st w,
  saved (snd (forEach (aggregatePath ext cert issuer) st paths w)) = saved w
  /\ forall st',
       fst (forEach (aggregatePath ext cert issuer) st paths w) = Ok st' ->
       st' = aggFold ext (files w) cert st paths
       /\ enrolled (snd (forEach (aggregatePath ext cert issuer) st paths w))
          = enrolled w ++ enrollCall issuer st st'.
Proof.
  induction paths as [|p paths IH]; intros st w.
  - cbn. split; [done|]. intros st' [= <-]. split; [done|].
    unfold enrollCall. by rewrite andb_negb_r, app_nil_r.
  - cbn [forEach]. unfold bind.
    destruct (aggregatePath_return ext cert issuer st p w) as (Hsaved & Hfiles & Hok).
    destruct (aggregatePath ext cert issuer st p w) as [[st1| |] w1]; cbn [fst snd] in *.
    + destruct (Hok st1 eq_refl) as [-> He].
      destruct (IH (aggStep (growslice ext) st (crlResult ext (files w) p cert)) w1)
        as [Hsaved' Hok'].
      split; [congruence|]. intros st' Hst'.
      destruct (Hok' st' Hst') as [-> He']. rewrite Hfiles in *.
      split; [done|]. rewrite He', He, <- app_assoc. f_equal.
      apply enrollCall_trans.
      * rewrite aggStep_enrolled. by intros ->.
      * rewrite aggFold_enrolled. by intros ->.
    + by split.
    + by split.
Qed.

(** X14: The store changes only with a worker that returns from the tuple: one
    that leaves on the quit signal, or dies of an error, has stored nothing
    for the issuer, although it may have enrolled it. *)
Theorem aggregateIssuer_stores_only_on_success ext tuple w :
  fst (aggregateIssuer ext tuple w) <> Ok tt ->
  saved (snd (aggregateIssuer ext tuple w)) = saved w.
Proof.
  unfold aggregateIssuer.
  destruct (GetCertificateForIssuer ext (paths_Issuer tuple)) as [err|cert]; [done|].
  unfold bind.
  destruct (aggregateLoop_return ext cert (paths_Issuer tuple) (CrlPaths tuple) aggInit w)
    as [Hsaved _].
  destruct (forEach _ aggInit (CrlPaths tuple) w) as [[st| |] w1]; cbn [fst snd] in *;
    [|done|done].
  destruct (issuerEnrolled st); [|done].
  rewrite logf_run. unfold Store. cbn [after saved].
  destruct (StoreKnownCertificateList ext (paths_Issuer tuple) (elems (serials st)));
    [done|]. cbn. by intros [].
Qed.

Lemma aggregateIssuer_stores_only_on_success_witness :
  let w := cancelledAfterOne Demo.aggDisk in
  let w' := snd (aggregateIssuer Demo.ext (mkIssuerCrlPaths "X" ["three.crl"; "one.crl"]) w) in
  enrolled w' = ["X"%string] /\ saved w' = ∅.
Proof.
  split; [reflexivity|].
  rewrite (aggregateIssuer_stores_only_on_success Demo.ext
             (mkIssuerCrlPaths "X" ["three.crl"; "one.crl"]) (cancelledAfterOne Demo.aggDisk));
    [reflexivity|by vm_compute].
Defined.

End MoreAggregation.

(* ===================================================================== *)
(** ** A run that completes *)
(* ===================================================================== *)

Section CompletedRun.
Import Types Filename Engine Run Behaviour.

Lemma accountedFor_refl w : accountedFor w w.
Proof. split; [done|]. intros issuer Hin. by left. Qed.

Lemma accountedFor_trans w1 w2 w3 :
  accountedFor w1 w2 -> accountedFor w2 w3 -> accountedFor w1 w3.
Proof.
  intros [Hs12 He12] [Hs23 He23]. split.
  - intros issuer H. by apply Hs23, Hs12.
  - intros issuer H. destruct (He23 issuer H) as [H2|H3]; [|by right].
    destruct (He12 issuer H2) as [H1|H2']; [by left|].
    right. by apply Hs23.
Qed.

Lemma sameRegistry_accountedFor w w' : sameRegistry w w' -> accountedFor w w'.
Proof.
  intros [He Hs]. split.
  - intros issuer. by rewrite Hs.
  - intros issuer. rewrite He. by left.
Qed.

Section Rules.
Variable R : World -> World -> Prop.
Hypothesis R_refl : forall w, R w w.
Hypothesis R_trans : forall w1 w2 w3, R w1 w2 -> R w2 w3 -> R w1 w3.

Lemma onReturn_ret {A} (a : A) : onReturn R (ret a).
Proof. intros w a' w' [= _ <-]. apply R_refl. Qed.

Lemma onReturn_bind {A B} (m : M A) (f : A -> M B) :
  onReturn R m -> (forall a, onReturn R (f a)) -> onReturn R (bind m f).
Proof.
  intros Hm Hf w b w'. unfold bind.
  destruct (m w) as [[a| |] w1] eqn:Em; [|done|done].
  intros Hb. apply (R_trans w w1); [by apply (Hm w a)|by apply (Hf a w1 b)].
Qed.

Lemma onReturn_forEach {S A} (body : S -> A -> M S) (l : list A) :
  (forall s a, onReturn R (body s a)) -> forall s, onReturn R (forEach body s l).
Proof.
  intros Hbody. induction l as [|a l IH]; intros s.
  - apply onReturn_ret.
  - cbn [forEach]. apply onReturn_bind; [apply Hbody|apply IH].
Qed.

Lemma onReturn_pool {A B} ext (worker : list A -> M B) (chan : list A) :
  (forall work, onReturn R (worker work)) -> onReturn R (pool ext worker chan).
Proof.
  intros Hworker. unfold pool. apply onReturn_forEach.
  intros results work. apply onReturn_bind; [apply Hworker|].
  intros r. apply onReturn_ret.
Qed.

End Rules.

(** A worker that returns from a tuple has stored a list for the issuer if
    it has enrolled it. *)
Lemma aggregateIssuer_accounts ext tuple : onReturn accountedFor (aggregateIssuer ext tuple).
Proof.
  intros w [] w'. unfold aggregateIssuer.
  destruct (GetCertificateForIssuer ext (paths_Issuer tuple)) as [err|cert]; [done|].
  unfold bind.
  destruct (aggregateLoop_return ext cert (paths_Issuer tuple) (CrlPaths tuple) aggInit w)
    as [Hsaved Hok].
  destruct (forEach _ aggInit (CrlPaths tuple) w) as [[st| |] w1]; cbn [fst snd] in *;
    [|done|done].
  destruct (Hok st eq_refl) as [_ Hen]. unfold enrollCall in Hen.
  cbn [aggInit issuerEnrolled negb] in Hen. rewrite andb_true_r in Hen.
  destruct (issuerEnrolled st).
  - rewrite logf_run. unfold Store. cbn [after saved].
    destruct (StoreKnownCertificateList ext (paths_Issuer tuple) (elems (serials st)));
      [done|].
    intros [= <-]. split; cbn [saved enrolled].
    + intros issuer H. rewrite Hsaved.
      destruct (decide (paths_Issuer tuple = issuer)) as [<-|Hne].
      * by rewrite lookup_insert_eq.
      * by rewrite lookup_insert_ne.
    + intros issuer. rewrite app_nil_r, Hen. intros Hin.
      apply in_app_or in Hin as [Hin|[<-|[]]]; [by left|right].
      by rewrite lookup_insert_eq.
  - rewrite logf_run. intros [= <-]. split; cbn [after saved enrolled].
    + intros issuer. by rewrite Hsaved.
    + intros issuer. rewrite Hen, !app_nil_r. by left.
Qed.

(** X15: A run of the three stages that completes has stored a list for every
    issuer it has enrolled: an issuer enrolled without a stored list is the
    mark of a run that a signal or a fatal error cut short. *)
Theorem completed_run_stores_every_enrolled_issuer ext w issuer :
  fst (stages ext w) = Ok tt ->
  In issuer (enrolled (snd (stages ext w))) ->
  In issuer (enrolled w) \/ is_Some (saved (snd (stages ext w)) !! issuer).
Proof.
  intros Hok.
  assert (Hstages : onReturn accountedFor (stages ext)).
  { unfold stages.
    apply (onReturn_bind _ accountedFor_trans).
    { intros w0 m w1 Hrun. apply sameRegistry_accountedFor.
      pose proof (identifyCrlsByIssuer_sameRegistry ext w0) as Hfind.
      by rewrite Hrun in Hfind. }
    intros m. apply (onReturn_bind _ accountedFor_trans).
    { intros w0 paths w1 Hrun. apply sameRegistry_accountedFor.
      pose proof (downloadCRLs_sameRegistry ext m w0) as Hfetch.
      by rewrite Hrun in Hfetch. }
    intros crlPaths. unfold aggregateCRLs.
    apply (onReturn_bind _ accountedFor_trans).
    { apply (onReturn_pool _ accountedFor_refl accountedFor_trans).
      intros work. unfold aggregateCRLWorker.
      apply (onReturn_forEach _ accountedFor_refl accountedFor_trans).
      intros [] tuple. apply aggregateIssuer_accounts. }
    intros _ w0 [] w1 Hlog. apply sameRegistry_accountedFor.
    rewrite logf_run in Hlog. injection Hlog as <-. by split; cbn; rewrite ?app_nil_r. }
  destruct (stages ext w) as [r w'] eqn:Erun. cbn [fst snd] in *. subst r.
  destruct (Hstages w tt w' Erun) as [_ Hen]. apply Hen.
Qed.

Lemma completed_run_stores_every_enrolled_issuer_witness :
  In "X"%string (enrolled Demo.scenario)
  \/ is_Some (saved (snd (stages Demo.ext Demo.scenario)) !! "X"%string).
Proof.
  apply (completed_run_stores_every_enrolled_issuer Demo.ext Demo.scenario "X").
  - vm_compute. reflexivity.
  - vm_compute. left. reflexivity.
Defined.

End CompletedRun.

(* ===================================================================== *)
(** ** More on the retrieval stage *)
(* ===================================================================== *)

Section MoreRetrieval.
Import Types Filename Engine Run Behaviour.

(** X16: A download is moved to the final path exactly when it succeeds and the
    file at the temporary path validates against the certificate of the
    issuer: [os.Rename] then gives the disk. In every other case the disk
    is the one the download has left, and the file at the final path is the
    one of an earlier run, if any. *)
Theorem download_is_moved_iff_it_validates ext issuer crlUrl w err files' clock' :
  let tmpPath := tmpPathOf ext issuer crlUrl in
  let finalPath := finalPathOf ext issuer crlUrl in
  DownloadFileSync ext crlUrl tmpPath (files w) (clock w) = (err, files', clock') ->
  let valid := err = None
               /\ exists cert, GetCertificateForIssuer ext issuer = inr cert
                               /\ snd (crlResult ext files' tmpPath cert) = None in
  (valid -> files (snd (downloadAndValidate ext issuer crlUrl w))
            = snd (Rename ext tmpPath finalPath files'))
  /\ (~ valid -> files (snd (downloadAndValidate ext issuer crlUrl w)) = files').
Proof.
  intros tmpPath finalPath Hdl valid. subst valid.
  unfold downloadAndValidate, bind, download. fold tmpPath finalPath. rewrite Hdl.
  destruct err as [e|].
  { rewrite logf_run. split; [by intros [? _]|done]. }
  destruct (GetCertificateForIssuer ext issuer) as [e|cert].
  { split; [by intros [_ (cert & ? & _)]|done]. }
  rewrite processCRL_run. cbn [files clock after snd].
  destruct (snd (crlResult ext files' tmpPath cert)) as [e|] eqn:Eres.
  { rewrite logf_run. split; [|done].
    intros [_ (cert' & [= <-] & Hvalid)]. congruence. }
  unfold rename, after. cbn [files].
  destruct (Rename ext tmpPath finalPath files') as [[e|] files''].
  - cbn. split; [done|]. intros Hno. destruct Hno. split; [done|]. by exists cert.
  - cbn. split; [done|]. intros Hno. destruct Hno. split; [done|]. by exists cert.
Qed.

Lemma download_is_moved_iff_it_validates_witness :
  files (snd (downloadAndValidate Demo.ext "X" crlUrlA Demo.scenario)) !! Demo.cachedB
  = files Demo.scenario !! Demo.cachedB
  /\ files (snd (downloadAndValidate Demo.ext "X" Demo.crlUrlB Demo.scenario))
     = files Demo.scenario.
Proof.
  split.
  - destruct (download_is_moved_iff_it_validates Demo.ext "X" crlUrlA Demo.scenario
                None _ _ eq_refl) as [Hyes _].
    rewrite Hyes; [vm_compute; reflexivity|]. clear Hyes.
    split; [reflexivity|]. exists [1]. vm_compute. split; reflexivity.
  - destruct (download_is_moved_iff_it_validates Demo.ext "X" Demo.crlUrlB Demo.scenario
                (Some "connection refused"%string) _ _ eq_refl) as [_ Hno].
    rewrite Hno; [reflexivity|]. clear Hno. intros [H _]. discriminate H.
Defined.

(** *** The paths an issuer is sent on with *)

Lemma acceptFinalPath_returns ext issuer crlUrl paths w paths' :
  fst (acceptFinalPath ext issuer crlUrl paths w) = Ok paths' ->
  paths' = paths \/ paths' = paths ++ [finalPathOf ext issuer crlUrl].
Proof.
  unfold acceptFinalPath, bind, GetSizeAndDateOfFile, timeNow.
  destruct (files w !! finalPathOf ext issuer crlUrl) as [f|].
  - destruct (Sub (clock w) (modTime f) >? allowableAgeOfLocalCRL).
    + rewrite logf_run. intros [= <-]. by left.
    + intros [= <-]. by right.
  - rewrite logf_run. intros [= <-]. by left.
Qed.

Lemma fetchUrl_returns ext issuer paths crlUrl w paths' :
  fst (fetchUrl ext issuer paths crlUrl w) = Ok paths' ->
  paths' = paths \/ paths' = paths ++ [finalPathOf ext issuer crlUrl].
Proof.
  unfold fetchUrl, bind.
  destruct (pollQuit w) as [[[|]| |] w1]; [done| |done|done].
  destruct (MkdirAll ext (Join ext [crlpath ext; issuer])) as [e|].
  - rewrite logf_run. intros [= <-]. by left.
  - destruct (downloadAndValidate ext issuer crlUrl w1) as [[[]| |] w2]; [|done|done].
    apply acceptFinalPath_returns.
Qed.

Lemma fetchLoop_returns ext issuer urls : forall paths w paths',
  fst (forEach (fetchUrl ext issuer) paths urls w) = Ok paths' ->
  exists kept, paths' = paths ++ kept
               /\ sublist kept (map (finalPathOf ext issuer) urls).
Proof.
  induction urls as [|crlUrl urls IH]; intros paths w paths'.
  - intros [= <-]. exists []. by rewrite app_nil_r.
  - cbn [forEach]. unfold bind.
    pose proof (fetchUrl_returns ext issuer paths crlUrl w) as Hone.
    destruct (fetchUrl ext issuer paths crlUrl w) as [[paths1| |] w1]; [|done|done].
    intros Hrest. destruct (IH _ _ _ Hrest) as (kept & -> & Hsub).
    destruct (Hone paths1 eq_refl) as [-> | ->].
    + exists kept. split; [done|]. cbn [map]. by apply sublist_cons.
    + exists (finalPathOf ext issuer crlUrl :: kept). rewrite <- app_assoc.
      split; [done|]. cbn [map]. by apply sublist_skip.
Qed.

(** X17: Whatever the network, the disk and the signals, a worker of the
    retrieval stage that sends a result sends the issuer it has received,
    with final paths of that issuer's URLs and nothing else, at most one
    per URL and in the order of the URLs. *)
Theorem fetchIssuer_returns_final_paths_in_order ext tuple w result :
  fst (fetchIssuer ext tuple w) = Ok result ->
  paths_Issuer result = urls_Issuer tuple
  /\ sublist (CrlPaths result) (map (finalPathOf ext (urls_Issuer tuple)) (Urls tuple)).
Proof.
  unfold fetchIssuer, bind.
  pose proof (fetchLoop_returns ext (urls_Issuer tuple) (Urls tuple) [] w) as Hloop.
  destruct (forEach (fetchUrl ext (urls_Issuer tuple)) [] (Urls tuple) w)
    as [[paths| |] w1]; [|done|done].
  intros [= <-]. split; [done|].
  destruct (Hloop paths eq_refl) as (kept & -> & Hsub). done.
Qed.

Lemma fetchIssuer_returns_final_paths_in_order_witness :
  let result := mkIssuerCrlPaths "X" [finalPathOf Demo.ext "X" crlUrlA;
                                      finalPathOf Demo.ext "X" Demo.crlUrlB] in
  fst (fetchIssuer Demo.ext urlsOfX Demo.scenario) = Ok result
  /\ paths_Issuer result = urls_Issuer urlsOfX
  /\ sublist (CrlPaths result) (map (finalPathOf Demo.ext (urls_Issuer urlsOfX)) (Urls urlsOfX)).
Proof.
  intros result.
  assert (Erun : fst (fetchIssuer Demo.ext urlsOfX Demo.scenario) = Ok result)
    by (vm_compute; reflexivity).
  split; [exact Erun|].
  exact (fetchIssuer_returns_final_paths_in_order Demo.ext urlsOfX Demo.scenario result Erun).
Defined.

(** *** A directory that cannot be made *)

Lemma fetchLoop_no_directory ext issuer err urls : forall paths w,
  signals w = [] ->
  MkdirAll ext (Join ext [crlpath ext; issuer]) = Some err ->
  forEach (fetchUrl ext issuer) paths urls w
  = (Ok paths, after w [] (map (fun _ => (WARNING, MsgMkdir err)) urls)).
Proof.
  induction urls as [|crlUrl urls IH]; intros paths w Hq Hdir.
  - cbn. unfold ret. by rewrite after_nil.
  - cbn [forEach]. unfold bind at 1. unfold fetchUrl at 1. unfold bind.
    rewrite (pollQuit_quiet _ Hq), Hdir, logf_run. unfold ret.
    rewrite IH by done. by rewrite after_after.
Qed.

(** X18: When the directory of an issuer cannot be made, nothing is downloaded
    for the issuer and no file that an earlier run has left is used: the
    issuer is sent on without a path, with a warning for each of its URLs,
    and the disk is not touched. *)
Theorem directory_failure_skips_the_issuer ext tuple err w :
  signals w = [] ->
  MkdirAll ext (Join ext [crlpath ext; urls_Issuer tuple]) = Some err ->
  fetchIssuer ext tuple w
  = (Ok (mkIssuerCrlPaths (urls_Issuer tuple) []),
     mkWorld (files w) (clock w) [] (enrolled w) (saved w)
             (log w ++ map (fun _ => (WARNING, MsgMkdir err)) (Urls tuple))).
Proof.
  intros Hq Hdir. unfold fetchIssuer, bind.
  rewrite (fetchLoop_no_directory ext (urls_Issuer tuple) err) by done.
  unfold ret, after. by rewrite Hq, app_nil_r.
Qed.

Lemma directory_failure_skips_the_issuer_witness :
  fst (fetchIssuer readOnly urlsOfX Demo.scenario) = Ok (mkIssuerCrlPaths "X" [])
  /\ files (snd (fetchIssuer readOnly urlsOfX Demo.scenario)) = files Demo.scenario.
Proof.
  rewrite (directory_failure_skips_the_issuer readOnly urlsOfX
             "read-only file system" Demo.scenario eq_refl eq_refl).
  split; reflexivity.
Defined.

End MoreRetrieval.

(* ===================================================================== *)
(** ** More on the dispatch of downloadCRLs *)
(* ===================================================================== *)

Section MoreDispatch.
Import Types Filename Engine Run Behaviour.

Lemma parseLoop_run ext keys : forall urls w,
  fst (forEach (parseUrl ext) urls keys w) = Ok (urls ++ parsedUrls ext keys).
Proof.
  induction keys as [|iUrl keys IH]; intros urls w.
  - cbn. by rewrite app_nil_r.
  - cbn [forEach parsedUrls flat_map]. unfold bind at 1. unfold parseUrl at 1.
    destruct (ParseURL ext iUrl) as [err|urlObj].
    + unfold bind. rewrite logf_run. unfold ret. by rewrite IH.
    + unfold ret. rewrite IH. by rewrite <- app_assoc.
Qed.

Lemma dispatchIssuer_run ext crlChan entry w :
  fst (dispatchIssuer ext crlChan entry w) = Ok (crlChan ++ tupleOf ext entry).
Proof.
  unfold dispatchIssuer, bind, tupleOf.
  pose proof (parseLoop_run ext (map fst (map_to_list (snd entry))) [] w) as Hparse.
  destruct (forEach (parseUrl ext) [] (map fst (map_to_list (snd entry))) w)
    as [r w1]. cbn [fst] in Hparse. subst r. cbn [app].
  destruct (0 <? len (parsedUrls ext (map fst (map_to_list (snd entry))))).
  - done.
  - cbn. by rewrite app_nil_r.
Qed.

Lemma dispatchLoop_run ext entries : forall crlChan w,
  fst (forEach (dispatchIssuer ext) crlChan entries w)
  = Ok (crlChan ++ flat_map (tupleOf ext) entries).
Proof.
  induction entries as [|entry entries IH]; intros crlChan w.
  - cbn. by rewrite app_nil_r.
  - cbn [forEach flat_map]. unfold bind.
    pose proof (dispatchIssuer_run ext crlChan entry w) as Hone.
    destruct (dispatchIssuer ext crlChan entry w) as [r w1]. cbn [fst] in Hone. subst r.
    rewrite IH. by rewrite <- app_assoc.
Qed.

Lemma tupleOf_issuers ext entries :
  sublist (map urls_Issuer (flat_map (tupleOf ext) entries)) (map fst entries).
Proof.
  induction entries as [|entry entries IH]; [constructor|].
  cbn [flat_map map]. unfold tupleOf at 1.
  destruct (0 <? len (parsedUrls ext (map fst (map_to_list (snd entry))))).
  - cbn. by apply sublist_skip.
  - cbn. by apply sublist_cons.
Qed.

Lemma In_parsedUrls ext keys urlObj :
  In urlObj (parsedUrls ext keys)
  <-> exists iUrl, In iUrl keys /\ ParseURL ext iUrl = inr urlObj.
Proof.
  unfold parsedUrls. rewrite in_flat_map. split.
  - intros (iUrl & Hin & Hparse). exists iUrl. split; [done|].
    destruct (ParseURL ext iUrl) as [err|u]; [done|].
    destruct Hparse as [->|[]]. done.
  - intros (iUrl & Hin & Hparse). exists iUrl. split; [done|].
    rewrite Hparse. by left.
Qed.

Lemma In_keys (crls : gmap string bool) (iUrl : string) :
  In iUrl (map fst (map_to_list crls)) <-> is_Some (crls !! iUrl).
Proof.
  rewrite in_map_iff. split.
  - intros ([k b] & <- & Hin). apply list_elem_of_In, elem_of_map_to_list in Hin.
    by exists b.
  - intros [b Hb]. exists (iUrl, b). split; [done|].
    by apply list_elem_of_In, elem_of_map_to_list.
Qed.

Lemma In_tupleOf ext entry tuple :
  In tuple (tupleOf ext entry)
  <-> tuple = mkIssuerCrlUrls (fst entry) (parsedUrls ext (map fst (map_to_list (snd entry))))
      /\ parsedUrls ext (map fst (map_to_list (snd entry))) <> [].
Proof.
  unfold tupleOf.
  destruct (parsedUrls ext (map fst (map_to_list (snd entry)))) as [|u urls] eqn:E.
  - cbn. split; [done|]. by intros [_ ?].
  - replace (0 <? len (u :: urls)) with true.
    + cbn. split; [intros [<-|[]]; by split|intros [-> _]; by left].
    + symmetry. apply Z.ltb_lt. unfold len. cbn [length]. lia.
Qed.

(** X19: The dispatch of [downloadCRLs] never fails and never stops on a signal.
    It sends one tuple at most per issuer, none without a URL, and the
    URLs it sends under an issuer are exactly those that parse among the
    URLs the map lists for that issuer. *)
Theorem dispatch_sends_the_parsed_urls ext (issuerToUrls : IssuerCrlMap) w :
  exists crlChan,
    fst (dispatch ext issuerToUrls w) = Ok crlChan
    /\ NoDup (map urls_Issuer crlChan)
    /\ (forall tuple, In tuple crlChan -> Urls tuple <> [])
    /\ (forall issuer urlObj,
          (exists tuple, In tuple crlChan /\ urls_Issuer tuple = issuer
                         /\ In urlObj (Urls tuple))
          <-> (exists crls iUrl, issuerToUrls !! issuer = Some crls
                                 /\ is_Some (crls !! iUrl)
                                 /\ ParseURL ext iUrl = inr urlObj)).
Proof.
  exists (flat_map (tupleOf ext) (map_to_list issuerToUrls)).
  split; [unfold dispatch; by rewrite dispatchLoop_run|]. split; [|split].
  - apply (sublist_NoDup _ (map fst (map_to_list issuerToUrls))).
    + apply NoDup_fst_map_to_list.
    + apply tupleOf_issuers.
  - intros tuple Hin. apply in_flat_map in Hin as (entry & _ & Hin).
    apply In_tupleOf in Hin as [-> Hne]. done.
  - intros issuer urlObj. split.
    + intros (tuple & Hin & <- & Hurl).
      apply in_flat_map in Hin as ([other crls] & Hentry & Hin).
      apply In_tupleOf in Hin as [-> _]. cbn [fst snd urls_Issuer Urls] in *.
      apply In_parsedUrls in Hurl as (iUrl & Hkey & Hparse).
      exists crls, iUrl. split; [|split; [by apply In_keys|done]].
      by apply list_elem_of_In, elem_of_map_to_list in Hentry.
    + intros (crls & iUrl & Hcrls & Hkey & Hparse).
      assert (Hurl : In urlObj (parsedUrls ext (map fst (map_to_list crls)))).
      { apply In_parsedUrls. exists iUrl. split; [by apply In_keys|done]. }
      exists (mkIssuerCrlUrls issuer (parsedUrls ext (map fst (map_to_list crls)))).
      split; [|by split].
      apply in_flat_map. exists (issuer, crls). split.
      * by apply list_elem_of_In, elem_of_map_to_list.
      * apply In_tupleOf. split; [done|]. intros Hnil. cbn [snd] in Hnil.
        by rewrite Hnil in Hurl.
Qed.

End MoreDispatch.

(* ===================================================================== *)
(** ** More on the discovery stage *)
(* ===================================================================== *)

Section MoreDiscovery.
Import Types Filename Engine Run Behaviour.

(** *** What the workers return, signals or not *)

Lemma findCrlIssuer_returns ext m issuer w m' :
  fst (findCrlIssuer ext m issuer w) = Ok m' -> m' = findStep ext m issuer.
Proof.
  unfold findCrlIssuer, bind, pollQuit.
  destruct (signals w) as [|[|] rest]; [|done|].
  all: destruct (len (CRLs ext issuer) =? 0);
    [destruct (IsIssuerInProgram ext issuer);
       [destruct (GetSubjectForIssuer ext issuer)|]|].
  all: cbn; intros [= <-]; reflexivity.
Qed.

Lemma findCrlWorker_returns ext issuerChan : forall m w m',
  fst (forEach (findCrlIssuer ext) m issuerChan w) = Ok m' ->
  m' = fold_left (findStep ext) issuerChan m.
Proof.
  induction issuerChan as [|issuer chan IH]; intros m w m'.
  - by intros [= <-].
  - cbn [forEach fold_left]. unfold bind.
    pose proof (findCrlIssuer_returns ext m issuer w) as Hone.
    destruct (findCrlIssuer ext m issuer w) as [[m1| |] w1]; [|done|done].
    rewrite (Hone m1 eq_refl). apply IH.
Qed.

Lemma pool_returns {A B} ext (worker : list A -> M B) (result : list A -> B)
    (chan : list A) w bs :
  (forall work w' b, fst (worker work w') = Ok b -> b = result work) ->
  fst (pool ext worker chan w) = Ok bs ->
  bs = map result (shares ext chan).
Proof.
  intros Hworker. unfold pool.
  assert (Hgen : forall works acc w' bs',
            fst (forEach (fun results work => let* r := worker work in ret (results ++ [r]))
                         acc works w') = Ok bs' ->
            bs' = acc ++ map result works).
  { induction works as [|work works IH]; intros acc w' bs'.
    - cbn. intros [= <-]. by rewrite app_nil_r.
    - cbn [forEach map]. unfold bind at 1. unfold bind at 1.
      pose proof (Hworker work w') as Hone.
      destruct (worker work w') as [[b| |] w1]; [|done|done].
      unfold ret at 1. intros Hrest. apply IH in Hrest.
      rewrite Hrest, (Hone b eq_refl), <- app_assoc. done. }
  apply Hgen.
Qed.

Lemma identifyCrlsByIssuer_returns ext w m :
  fst (identifyCrlsByIssuer ext w) = Ok m ->
  exists issuerList,
    GetIssuerAndDatesFromCache ext = inr issuerList
    /\ m = fold_left Merge
             (map (findMap ext)
                  (shares ext (List.filter (IsIssuerInProgram ext) issuerList))) ∅.
Proof.
  unfold identifyCrlsByIssuer, bind. rewrite logf_run.
  destruct (GetIssuerAndDatesFromCache ext) as [err|issuerList]; [done|].
  pose proof (pool_returns ext (findCrlWorker ext) (findMap ext)
                (List.filter (IsIssuerInProgram ext) issuerList)
                (after w [] [(INFO, MsgListing)])) as Hpool.
  destruct (pool ext (findCrlWorker ext) _ _) as [[bs| |] w1]; [|done|done].
  intros [= <-]. exists issuerList. split; [done|].
  rewrite (Hpool bs); [done| |done].
  intros work w' b. apply findCrlWorker_returns.
Qed.

(** *** The URL sets of the maps *)

Lemma dom_addUrls (crlSet : list string) : forall crls : gmap string bool,
  dom (addUrls crlSet crls) = dom crls ∪ list_to_set crlSet.
Proof.
  induction crlSet as [|url l IH]; intros crls.
  - cbn. by rewrite (right_id_L ∅ (∪)).
  - unfold addUrls. cbn [fold_left list_to_set].
    fold (addUrls l (<[url := true]> crls)).
    rewrite IH, dom_insert_L. apply set_eq. intros x.
    rewrite !elem_of_union. tauto.
Qed.

Lemma selfCrlsOf_findStep ext (m : IssuerCrlMap) other issuer :
  selfCrlsOf (findStep ext m other) issuer
  = if decide (other = issuer)
    then addUrls (CRLs ext issuer) (selfCrlsOf m issuer)
    else selfCrlsOf m issuer.
Proof.
  unfold selfCrlsOf at 1. unfold findStep.
  destruct (decide (other = issuer)) as [->|Hne].
  - by rewrite lookup_insert_eq.
  - by rewrite lookup_insert_ne.
Qed.

Lemma urlSets_findStep ext (m : IssuerCrlMap) other issuer :
  urlSets (findStep ext m other) !! issuer
  = if decide (other = issuer)
    then Some (dom (selfCrlsOf m issuer) ∪ list_to_set (CRLs ext issuer))
    else urlSets m !! issuer.
Proof.
  rewrite !urlSets_lookup. unfold findStep.
  destruct (decide (other = issuer)) as [->|Hne].
  - rewrite lookup_insert_eq. cbn. by rewrite dom_addUrls.
  - by rewrite lookup_insert_ne.
Qed.

Lemma urlSets_findFold_absent ext issuer chan : forall m : IssuerCrlMap,
  ~ In issuer chan ->
  urlSets (fold_left (findStep ext) chan m) !! issuer = urlSets m !! issuer.
Proof.
  induction chan as [|other chan IH]; intros m Hnot; [done|].
  cbn [fold_left]. rewrite IH by (intros H; apply Hnot; by right).
  rewrite urlSets_findStep. destruct (decide (other = issuer)) as [->|Hne]; [|done].
  exfalso. apply Hnot. by left.
Qed.

Lemma urlSets_findFold_present ext issuer chan : forall m : IssuerCrlMap,
  In issuer chan ->
  urlSets (fold_left (findStep ext) chan m) !! issuer
  = Some (dom (selfCrlsOf m issuer) ∪ list_to_set (CRLs ext issuer)).
Proof.
  induction chan as [|other chan IH]; intros m Hin; [done|].
  cbn [fold_left].
  destruct (in_dec string_dec issuer chan) as [Hrest|Hrest].
  - rewrite IH by done. rewrite selfCrlsOf_findStep.
    destruct (decide (other = issuer)) as [->|Hne]; [|done].
    rewrite dom_addUrls. f_equal. apply set_eq. intros x.
    rewrite !elem_of_union. tauto.
  - rewrite urlSets_findFold_absent by done. rewrite urlSets_findStep.
    destruct (decide (other = issuer)) as [->|Hne]; [done|].
    by destruct Hin.
Qed.

Lemma urlSets_findMap ext issuer chan :
  (In issuer chan ->
   urlSets (findMap ext chan) !! issuer = Some (list_to_set (CRLs ext issuer)))
  /\ (~ In issuer chan -> urlSets (findMap ext chan) !! issuer = None).
Proof.
  unfold findMap. split; intros Hin.
  - rewrite urlSets_findFold_present by done.
    unfold selfCrlsOf. rewrite lookup_empty, dom_empty_L.
    by rewrite (left_id_L ∅ (∪)).
  - rewrite urlSets_findFold_absent by done.
    by rewrite urlSets_lookup, lookup_empty.
Qed.

Lemma urlSets_fold_Merge_none issuer (results : list IssuerCrlMap) :
  forall A : IssuerCrlMap,
    urlSets A !! issuer = None ->
    (forall r, In r results -> urlSets r !! issuer = None) ->
    urlSets (fold_left Merge results A) !! issuer = None.
Proof.
  induction results as [|r results IH]; intros A HA Hall; [done|].
  cbn [fold_left]. apply IH.
  - rewrite urlSets_Merge, HA. rewrite (Hall r); [done|by left].
  - intros r' Hr'. apply Hall. by right.
Qed.

Lemma urlSets_fold_Merge_same issuer (S : gset string) (results : list IssuerCrlMap) :
  forall A : IssuerCrlMap,
    (urlSets A !! issuer = None \/ urlSets A !! issuer = Some S) ->
    (forall r, In r results ->
               urlSets r !! issuer = None \/ urlSets r !! issuer = Some S) ->
    (urlSets A !! issuer = Some S
     \/ exists r, In r results /\ urlSets r !! issuer = Some S) ->
    urlSets (fold_left Merge results A) !! issuer = Some S.
Proof.
  induction results as [|r results IH]; intros A HA Hall Hsome.
  - destruct Hsome as [H|(r & [] & _)]. done.
  - cbn [fold_left].
    assert (Hr : urlSets r !! issuer = None \/ urlSets r !! issuer = Some S)
      by (apply Hall; by left).
    assert (Hstep : urlSets (Merge A r) !! issuer
                    = match urlSets A !! issuer, urlSets r !! issuer with
                      | None, None => None
                      | _, _ => Some S
                      end).
    { rewrite urlSets_Merge.
      destruct HA as [HA|HA], Hr as [Hr|Hr]; rewrite ?HA, ?Hr; try done.
      by rewrite (idemp_L (∪) S). }
    apply IH.
    + rewrite Hstep. destruct HA as [HA|HA], Hr as [Hr|Hr]; rewrite ?HA, ?Hr; auto.
    + intros r' Hr'. apply Hall. by right.
    + destruct Hsome as [H|(r' & [<-|Hin] & Hr')].
      * left. rewrite Hstep, H. by destruct (urlSets r !! issuer).
      * left. rewrite Hstep, Hr'. by destruct (urlSets A !! issuer).
      * right. by exists r'.
Qed.

(** The merged map of the pool: an issuer of the channel has the set of
    its URLs, an issuer that is not on the channel has no entry. *)
Lemma urlSets_discovery ext chan issuer :
  let m := fold_left Merge (map (findMap ext) (shares ext chan)) ∅ in
  (~ In issuer chan -> urlSets m !! issuer = None)
  /\ (In issuer chan -> (0 < NumThreads ext)%nat ->
      urlSets m !! issuer = Some (list_to_set (CRLs ext issuer)))
  /\ (urlSets m !! issuer = None
      \/ In issuer chan /\ urlSets m !! issuer = Some (list_to_set (CRLs ext issuer))).
Proof.
  intros m.
  assert (Hworks : forall r, In r (map (findMap ext) (shares ext chan)) ->
            exists work, r = findMap ext work /\ forall x, In x work -> In x chan).
  { intros r Hr. apply in_map_iff in Hr as (work & <- & Hwork).
    exists work. split; [done|]. unfold shares in Hwork.
    apply in_map_iff in Hwork as (t & <- & _). intros x. apply share_In. }
  assert (Hempty : urlSets (∅ : IssuerCrlMap) !! issuer = None)
    by (by rewrite urlSets_lookup, lookup_empty).
  assert (Hnot : ~ In issuer chan -> urlSets m !! issuer = None).
  { intros Hnot. apply urlSets_fold_Merge_none; [done|].
    intros r Hr. destruct (Hworks r Hr) as (work & -> & Hsub).
    apply urlSets_findMap. intros Hin. by apply Hnot, Hsub. }
  assert (Hcases : forall r, In r (map (findMap ext) (shares ext chan)) ->
            urlSets r !! issuer = None
            \/ urlSets r !! issuer = Some (list_to_set (CRLs ext issuer))).
  { intros r Hr. destruct (Hworks r Hr) as (work & -> & _).
    destruct (in_dec string_dec issuer work) as [Hin|Hout].
    - right. by apply urlSets_findMap.
    - left. by apply urlSets_findMap. }
  assert (Hin : In issuer chan -> (0 < NumThreads ext)%nat ->
            urlSets m !! issuer = Some (list_to_set (CRLs ext issuer))).
  { intros Hin Hn. apply urlSets_fold_Merge_same; [by left|done|]. right.
    destruct (share_receives ext chan issuer Hn Hin) as (work & Hwork & Hissuer).
    exists (findMap ext work). split; [by apply in_map|]. by apply urlSets_findMap. }
  split; [done|]. split; [done|].
  destruct (in_dec string_dec issuer chan) as [Hyes|Hno]; [|left; by apply Hnot].
  destruct (NumThreads ext) as [|n] eqn:En.
  - left. subst m. unfold shares. rewrite En. done.
  - right. split; [done|]. apply Hin; [done|lia].
Qed.

Lemma Merge_allTrue (self other : IssuerCrlMap) : allTrue self -> allTrue (Merge self other).
Proof.
  intros Hself issuer url b. unfold urlEntry. rewrite Merge_lookup.
  destruct (other !! issuer) as [crls|] eqn:Eother; [|apply Hself].
  rewrite mergeCrls_lookup. destruct (crls !! url); [by intros [= <-]|].
  unfold selfCrlsOf. intros Hb. apply (Hself issuer url). unfold urlEntry.
  destruct (self !! issuer); [done|]. by rewrite lookup_empty in Hb.
Qed.

Lemma fold_Merge_allTrue (results : list IssuerCrlMap) : forall A : IssuerCrlMap,
  allTrue A -> allTrue (fold_left Merge results A).
Proof.
  induction results as [|r results IH]; intros A HA; [done|].
  cbn [fold_left]. by apply IH, Merge_allTrue.
Qed.

(** X20: With a worker in the pool, the map that the discovery stage returns
    does not depend on which worker received which issuer, nor on the
    number of workers: it lists the issuers of the root program that the
    cache knows, and them alone, each with the set of the URLs of its
    CRLs, and every URL is stored with [true]. *)
Theorem discovery_lists_exactly_the_known_urls ext w (m : IssuerCrlMap) :
  fst (identifyCrlsByIssuer ext w) = Ok m ->
  (0 < NumThreads ext)%nat ->
  exists issuerList,
    GetIssuerAndDatesFromCache ext = inr issuerList
    /\ (forall issuer,
          In issuer issuerList -> IsIssuerInProgram ext issuer = true ->
          urlSets m !! issuer = Some (list_to_set (CRLs ext issuer)))
    /\ (forall issuer,
          urlSets m !! issuer <> None ->
          In issuer issuerList /\ IsIssuerInProgram ext issuer = true)
    /\ allTrue m.
Proof.
  intros Hrun Hn.
  destruct (identifyCrlsByIssuer_returns ext w m Hrun) as (issuerList & Hlist & ->).
  exists issuerList. split; [done|]. split; [|split].
  - intros issuer Hin Hprog.
    apply (urlSets_discovery ext (List.filter (IsIssuerInProgram ext) issuerList) issuer);
      [|done].
    apply filter_In. by split.
  - intros issuer Hsome.
    destruct (urlSets_discovery ext (List.filter (IsIssuerInProgram ext) issuerList) issuer)
      as (_ & _ & [Hnone|[Hin _]]); [done|].
    by apply filter_In in Hin.
  - apply fold_Merge_allTrue. intros issuer url b. unfold urlEntry.
    by rewrite lookup_empty.
Qed.

Lemma discovery_lists_exactly_the_known_urls_witness :
  exists m : IssuerCrlMap,
    fst (identifyCrlsByIssuer Demo.ext Demo.emptyWorld) = Ok m
    /\ urlSets m !! "X"%string = Some (list_to_set (CRLs Demo.ext "X")).
Proof.
  assert (Hrun : { m : IssuerCrlMap
                 | fst (identifyCrlsByIssuer Demo.ext Demo.emptyWorld) = Ok m }).
  { eexists. vm_compute. reflexivity. }
  destruct Hrun as [m Hrun]. exists m. split; [exact Hrun|].
  assert (Hn : (0 < NumThreads Demo.ext)%nat) by (cbn; lia).
  destruct (discovery_lists_exactly_the_known_urls Demo.ext Demo.emptyWorld m Hrun Hn)
    as (issuerList & Hlist & Hyes & _).
  clear Hrun. cbn in Hlist. injection Hlist as <-.
  apply Hyes; [left; reflexivity|reflexivity].
Defined.

(** *** Who can be enrolled *)

(** The map of the discovery stage has URLs only for issuers of the root
    program that the cache lists, and only URLs of their CRLs. *)
Lemma discovery_entries ext w (m : IssuerCrlMap) issuer crls iUrl :
  fst (identifyCrlsByIssuer ext w) = Ok m ->
  m !! issuer = Some crls ->
  is_Some (crls !! iUrl) ->
  IsIssuerInProgram ext issuer = true
  /\ (exists issuerList,
        GetIssuerAndDatesFromCache ext = inr issuerList /\ In issuer issuerList)
  /\ In iUrl (CRLs ext issuer).
Proof.
  intros Hrun Hcrls Hurl.
  destruct (identifyCrlsByIssuer_returns ext w m Hrun) as (issuerList & Hlist & Hm).
  destruct (urlSets_discovery ext (List.filter (IsIssuerInProgram ext) issuerList) issuer)
    as (_ & _ & Hcases).
  cbv zeta in Hcases. rewrite <- Hm, urlSets_lookup, Hcrls in Hcases. cbn in Hcases.
  destruct Hcases as [|[Hin [= Hdom]]]; [done|].
  apply filter_In in Hin as [Hin Hprog].
  split; [done|]. split; [by exists issuerList|].
  apply elem_of_dom in Hurl. rewrite Hdom, elem_of_list_to_set in Hurl.
  by apply list_elem_of_In.
Qed.

Lemma stages_keep_who_cannot_be_enrolled ext issuer :
  ~ canBeEnrolled ext issuer -> keeps issuer (fun _ => True) (stages ext).
Proof.
  intros Hcannot. unfold stages.
  apply (keeps_bind issuer
           (fun m : IssuerCrlMap =>
              forall crls iUrl urlObj,
                m !! issuer = Some crls -> is_Some (crls !! iUrl) ->
                ParseURL ext iUrl <> inr urlObj)).
  { intros w. split; [apply keeps_identifyCrlsByIssuer_any|].
    intros m Hrun crls iUrl urlObj Hcrls Hurl Hparse. apply Hcannot.
    destruct (discovery_entries ext w m issuer crls iUrl Hrun Hcrls Hurl)
      as (Hprog & Hlisted & Hin).
    split; [done|]. split; [done|]. by exists iUrl, urlObj. }
  intros m Hm.
  apply (keeps_bind issuer (Forall (fun result => paths_Issuer result <> issuer)));
    [|intros crlPaths Hpaths; by apply keeps_aggregateCRLs].
  unfold downloadCRLs.
  apply (keeps_bind issuer (Forall (fun tuple => urls_Issuer tuple <> issuer))).
  { intros w. split.
    - destruct (ensures_dispatch sameRegistry sameRegistry_refl sameRegistry_trans
                  (fun _ _ w' => sameRegistry_refl w') ext m w) as [[Hen _] _].
      unfold enrollCount. rewrite Hen. lia.
    - intros crlChan Hrun. apply Forall_forall. intros tuple Hin Hissuer.
      apply list_elem_of_In in Hin.
      unfold dispatch in Hrun. rewrite dispatchLoop_run in Hrun.
      injection Hrun as <-. cbn [app] in Hin.
      apply in_flat_map in Hin as ([other crls] & Hentry & Hin).
      apply In_tupleOf in Hin as [-> Hne]. cbn [fst snd urls_Issuer] in *. subst other.
      apply list_elem_of_In, elem_of_map_to_list in Hentry.
      destruct (parsedUrls ext (map fst (map_to_list crls))) as [|urlObj urls] eqn:E;
        [done|].
      assert (Hurl : In urlObj (parsedUrls ext (map fst (map_to_list crls))))
        by (rewrite E; by left).
      apply In_parsedUrls in Hurl as (iUrl & Hkey & Hparse).
      apply In_keys in Hkey. by apply (Hm crls iUrl urlObj). }
  intros crlChan Hchan.
  apply (keeps_bind issuer (Forall (Forall (fun result => paths_Issuer result <> issuer)))).
  - apply keeps_pool. intros work Hwork. apply keeps_crlFetchWorker.
    intros tuple Hin. rewrite Forall_forall in Hchan. apply Hchan.
    apply list_elem_of_In. by apply Hwork.
  - intros results Hres. apply keeps_ret. by apply Forall_concat.
Qed.

(** X21: A run enrolls an issuer only if the issuer is in the root program, the
    cache lists it and one of the URLs of its CRLs parses: whatever the
    files on the disk, the signals and the errors, no other issuer is
    enrolled. *)
Theorem only_known_issuers_with_a_url_are_enrolled ext issuer w :
  In issuer (enrolled (snd (stages ext w))) ->
  In issuer (enrolled w) \/ canBeEnrolled ext issuer.
Proof.
  intros Hafter.
  destruct (in_dec string_dec issuer (enrolled w)) as [Hbefore|Hbefore]; [by left|].
  right.
  assert (Hkeeps : ~ canBeEnrolled ext issuer -> False).
  { intros Hcannot.
    by apply (keeps_unenrolled issuer (fun _ => True) (stages ext) w
                (stages_keep_who_cannot_be_enrolled ext issuer Hcannot) Hbefore). }
  unfold canBeEnrolled in *.
  destruct (IsIssuerInProgram ext issuer) eqn:Hprog;
    [|exfalso; apply Hkeeps; by intros [? _]].
  split; [done|].
  destruct (GetIssuerAndDatesFromCache ext) as [err|issuerList] eqn:Hlist;
    [exfalso; apply Hkeeps; by intros (_ & (l & ? & _) & _)|].
  destruct (in_dec string_dec issuer issuerList) as [Hin|Hout];
    [|exfalso; apply Hkeeps; intros (_ & (l & [= <-] & ?) & _); done].
  split; [by exists issuerList|].
  destruct (parsedUrls ext (CRLs ext issuer)) as [|urlObj urls] eqn:E.
  - exfalso. apply Hkeeps. intros (_ & _ & (iUrl & urlObj & Hurl & Hparse)).
    assert (H : In urlObj (parsedUrls ext (CRLs ext issuer)))
      by (apply In_parsedUrls; by exists iUrl).
    by rewrite E in H.
  - assert (H : In urlObj (parsedUrls ext (CRLs ext issuer))) by (rewrite E; by left).
    apply In_parsedUrls in H as (iUrl & Hurl & Hparse). by exists iUrl, urlObj.
Qed.

Lemma only_known_issuers_with_a_url_are_enrolled_witness :
  In "X"%string (enrolled Demo.scenario) \/ canBeEnrolled Demo.ext "X".
Proof.
  apply (only_known_issuers_with_a_url_are_enrolled Demo.ext "X" Demo.scenario).
  vm_compute. left. reflexivity.
Defined.

End MoreDiscovery.
